(** * Canvas: context tree, bitmap manager and document index

    A shallow embedding of the JavaScript sources of the canvas repository
    (the [Tree]/[TreeNode] classes, [BitmapManager] and [IndexD]) together
    with the properties of their behaviour.

    JavaScript objects that are mutated in place and can be reached through
    several names (the [RoaringBitmap32] instances handed out by
    [BitmapManager]) live in an explicit heap and are named by references;
    methods are state transformers that either return a value or throw. *)

From stdpp Require Import base strings list gmap sets pretty.


(** ** Outcomes of a JavaScript call *)

Inductive JsError :=
  | TypeError (msg : string)
  | Error (msg : string).

Inductive outcome (A : Type) :=
  | Return (a : A)
  | Throw (e : JsError).
Arguments Return {A} a.
Arguments Throw {A} e.

(** A method body over a mutable state [S]: the state that is returned is
    the one in force when the call returns or throws (JavaScript does not
    undo the mutations made before an exception). *)
Definition M (S A : Type) : Type := S → outcome A * S.

Global Instance M_ret {S} : MRet (M S) := λ A a s, (Return a, s).
Global Instance M_bind {S} : MBind (M S) := λ A B f m s,
  match m s with
  | (Return a, s') => f a s'
  | (Throw e, s') => (Throw e, s')
  end.

Definition throw {S A} (e : JsError) : M S A := λ s, (Throw e, s).
Definition gets {S A} (f : S → A) : M S A := λ s, (Return (f s), s).
Definition modify {S} (f : S → S) : M S () := λ s, (Return (), f s).

(** [Array.prototype.map] with a callback that may throw: elements are
    visited left to right and the first exception aborts the traversal. *)
Fixpoint mapM {S A B} (f : A → M S B) (xs : list A) : M S (list B) :=
  match xs with
  | [] => mret []
  | x :: xs' => y ← f x; ys ← mapM f xs'; mret (y :: ys)
  end.

(** ** The compressed set library

    [RoaringBitmap32] comes from the npm package [roaring]; the repository
    only calls it.  A bitmap object is a finite set of unsigned integers, its
    serialized form lists the members. *)
Module Roaring.

Abbreviation bitmap := (gset N).

Record Blob := mkBlob { blob_members : list N }.

Definition serialize (s : bitmap) : Blob := mkBlob (elements s).
Definition deserialize (b : Blob) : bitmap := list_to_set (blob_members b).

End Roaring.

(** ** BitmapManager.js *)
Module BitmapManager.
Import Roaring.

(** A reference to a [RoaringBitmap32] object in the heap. *)
Definition ref := nat.

(** The JavaScript values that callers hand to [tick] and friends: a
    bitmap key, one identifier, an array of identifiers, or a bitmap. *)
Inductive JsVal :=
  | VStr (s : string)
  | VNum (n : N)
  | VArr (l : list N)
  | VBitmap (r : ref).

(** What [db.get] may yield for a key the store has: the blob written by
    [#saveBitmapToDb], or a falsy value (the case [#loadBitmapFromDb]
    guards against). *)
Inductive DbValue :=
  | DbBlob (b : Blob)
  | DbFalsy.

(** The second constructor argument.  [BitmapManager] expects "a suitable
    caching backend with a Map() like interface"; [IndexD] passes a plain
    string instead, which has no [has] method. *)
Inductive CacheBackend :=
  | CacheMap (m : gmap string ref)
  | CacheNotAMap (v : string).

(** The manager's private fields [#db] and [#cache] (both keyed by bitmap
    key strings), the heap of bitmap objects, and [resolved]: the keys
    handed to [getBitmap] so far, oldest first, which is what a counting
    mock store observes. *)
Record State := mkState {
  db : gmap string DbValue;
  cache : CacheBackend;
  heap : list bitmap;
  resolved : list string
}.

Definition set_db (f : gmap string DbValue → gmap string DbValue) (st : State) : State :=
  mkState (f (db st)) (cache st) (heap st) (resolved st).
Definition set_heap (f : list bitmap → list bitmap) (st : State) : State :=
  mkState (db st) (cache st) (f (heap st)) (resolved st).
Definition log_resolved (key : string) (st : State) : State :=
  mkState (db st) (cache st) (heap st) (resolved st ++ [key]).

(** [new RoaringBitmap32()] / [new RoaringBitmap32(values)] *)
Definition new_bitmap (s : bitmap) : M State ref := λ st,
  (Return (length (heap st)), set_heap (λ h, h ++ [s]) st).

(** The members of the object behind a reference. *)
Definition contents (st : State) (r : ref) : bitmap := default ∅ (heap st !! r).

(** [bitmap.size] *)
Definition bitmap_size (r : ref) : M State nat := gets (λ st, size (contents st r)).

(** [partial.andInPlace(bitmap)]: the receiver is overwritten. *)
Definition andInPlace (p b : ref) : M State () :=
  modify (λ st, set_heap (λ h, <[p := contents st p ∩ contents st b]> h) st).

(** [bitmap.add(idOrArray)]: one or many integers are added to the
    receiver, which is returned; a value that is not an integer or a
    collection of integers is rejected. *)
Definition add (r : ref) (v : JsVal) : M State ref :=
  match v with
  | VNum n => _ ← modify (λ st, set_heap (λ h, <[r := contents st r ∪ {[n]}]> h) st); mret r
  | VArr l => _ ← modify (λ st, set_heap (λ h, <[r := contents st r ∪ list_to_set l]> h) st); mret r
  | VBitmap b => _ ← modify (λ st, set_heap (λ h, <[r := contents st r ∪ contents st b]> h) st); mret r
  | VStr _ => throw (TypeError "value is not a 32 bit unsigned integer")
  end.

(** [bitmap.addMany(oidArrayOrBitmap)] *)
Definition addMany (r : ref) (v : JsVal) : M State ref :=
  match v with
  | VArr l => _ ← modify (λ st, set_heap (λ h, <[r := contents st r ∪ list_to_set l]> h) st); mret r
  | VBitmap b => _ ← modify (λ st, set_heap (λ h, <[r := contents st r ∪ contents st b]> h) st); mret r
  | VNum _ | VStr _ => throw (TypeError "values is not iterable")
  end.

(** [#saveBitmapToDb(key, bitmap)] *)
Definition saveBitmapToDb (key : string) (r : ref) : M State () :=
  modify (λ st, set_db (λ d, <[key := DbBlob (serialize (contents st r))]> d) st).

(** [#loadBitmapFromDb(key)] *)
Definition loadBitmapFromDb (key : string) : M State (option ref) := λ st,
  match db st !! key with
  | Some (DbBlob bitmapData) =>
      (r ← new_bitmap ∅;
       _ ← modify (set_heap (λ h, <[r := deserialize bitmapData]> h));
       mret (Some r)) st
  | Some DbFalsy | None => (Return None, st)
  end.

(** [getBitmap(key)] *)
Definition getBitmap (key : string) : M State (option ref) := λ st0,
  let st := log_resolved key st0 in
  match cache st with
  | CacheNotAMap _ => (Throw (TypeError "this.#cache.has is not a function"), st)
  | CacheMap c =>
      match c !! key with
      | Some r => (Return (Some r), st)
      | None =>
          match db st !! key with
          | None => (Return None, st)
          | Some _ => loadBitmapFromDb key st
          end
      end
  end.

(** [getBitmap] applied to an arbitrary value.  The keys of [#db] and
    [#cache] are strings, and a [Map] compares keys without coercion, so a
    number, an array or a bitmap is never found. *)
Definition getBitmapJs (key : JsVal) : M State (option ref) :=
  match key with
  | VStr s => getBitmap s
  | VNum _ | VArr _ | VBitmap _ => λ st,
      match cache st with
      | CacheNotAMap _ => (Throw (TypeError "this.#cache.has is not a function"), st)
      | CacheMap _ => (Return None, st)
      end
  end.

(** The result of a tick: [false] or the bitmap. *)
Inductive TickResult :=
  | TickFalse
  | TickBitmap (r : ref).

(** [#saveBitmapToDb(bitmapKey, bitmap)] as called by [tick].  A bitmap is
    only ever found under a string key (see [getBitmapJs]), so the call is
    reached with a string. *)
Definition saveBitmapToDbJs (bitmapKey : JsVal) (r : ref) : M State () :=
  match bitmapKey with
  | VStr key => saveBitmapToDb key r
  | VNum _ | VArr _ | VBitmap _ => mret ()
  end.

(** [tick(idOrArray, bitmapKey)] *)
Definition tick (idOrArray bitmapKey : JsVal) : M State TickResult :=
  bitmap ← getBitmapJs bitmapKey;
  match bitmap with
  | None => mret TickFalse
  | Some bitmap =>
      bitmap ← add bitmap idOrArray;
      _ ← saveBitmapToDbJs bitmapKey bitmap;
      mret (TickBitmap bitmap)
  end.

(** [tickSync(key, oidArrayOrBitmap, autoCreateBitmap = true, implicitSave = true)] *)
Definition tickSync (key : string) (oidArrayOrBitmap : JsVal)
    (autoCreateBitmap implicitSave : bool) : M State TickResult :=
  found ← getBitmap key;
  match found with
  | None =>
      if negb autoCreateBitmap then mret TickFalse
      else
        bitmap ← new_bitmap ∅;
        bitmap ← addMany bitmap oidArrayOrBitmap;
        _ ← (if implicitSave then saveBitmapToDb key bitmap else mret ());
        mret (TickBitmap bitmap)
  | Some bitmap =>
      bitmap ← addMany bitmap oidArrayOrBitmap;
      _ ← (if implicitSave then saveBitmapToDb key bitmap else mret ());
      mret (TickBitmap bitmap)
  end.

(** [tickMany(keyArray, oidArrayOrBitmap, autoCreateBitmaps = true, implicitSave = true)].
    Each key is passed on as the first argument of [tick] and the
    identifiers as the second; [tick] takes no further arguments. *)
Definition tickMany (keyArray : list string) (oidArrayOrBitmap : JsVal)
    (autoCreateBitmaps implicitSave : bool) : M State (list TickResult) :=
  if (length keyArray =? 0)%nat
  then throw (TypeError "The first argument to tickMany must be a non-empty array of bitmap keys")
  else mapM (λ key, tick (VStr key) oidArrayOrBitmap) keyArray.

(** [tickManySync(keyArray, oidArrayOrBitmap, autoCreateBitmaps = true, implicitSave = true)] *)
Definition tickManySync (keyArray : list string) (oidArrayOrBitmap : JsVal)
    (autoCreateBitmaps implicitSave : bool) : M State (list TickResult) :=
  if (length keyArray =? 0)%nat
  then throw (TypeError "First argument must be a non-empty array of bitmap keys")
  else
    let oidArrayOrBitmap :=
      match oidArrayOrBitmap with VNum n => VArr [n] | v => v end in
    match oidArrayOrBitmap with
    | VStr _ => throw (TypeError "Second argument must be an array of IDs or an instance of RoaringBitmap32")
    | _ => mapM (λ key, tickSync key oidArrayOrBitmap autoCreateBitmaps implicitSave) keyArray
    end.

(** The loop shared, statement for statement, by the instance method
    [AND(keyArray)] and the static method [AND(roaringBitmapArray)]; the
    two differ only in how an element of the array becomes a bitmap
    ([this.getBitmap(key)] against the element itself). *)
Section AND_loop.
Context {X : Type} (resolve : X → M State (option ref)).

Fixpoint AND_loop (xs : list X) (partial : option ref) : M State ref :=
  match xs with
  | [] =>
      match partial with
      | Some p => mret p
      | None => new_bitmap ∅
      end
  | x :: xs' =>
      bitmap ← resolve x;
      match bitmap with
      | None => new_bitmap ∅
      | Some b =>
          sz ← bitmap_size b;
          if (sz =? 0)%nat then new_bitmap ∅
          else
            match partial with
            | None => AND_loop xs' (Some b)
            | Some p => _ ← andInPlace p b; AND_loop xs' (Some p)
            end
      end
  end.

Definition AND_with (xs : list X) : M State ref :=
  if (length xs =? 0)%nat then new_bitmap ∅ else AND_loop xs None.
End AND_loop.

(** [AND(keyArray)] *)
Definition AND (keyArray : list string) : M State ref := AND_with getBitmap keyArray.

(** [static AND(roaringBitmapArray)]; an element may be [null]. *)
Definition AND_static (roaringBitmapArray : list (option ref)) : M State ref :=
  AND_with (λ bitmap, mret bitmap) roaringBitmapArray.

(** [bitmap.removeMany(oidArrayOrBitmap)] *)
Definition removeMany (r : ref) (v : JsVal) : M State ref :=
  match v with
  | VArr l => _ ← modify (λ st, set_heap (λ h, <[r := contents st r ∖ list_to_set l]> h) st); mret r
  | VBitmap b => _ ← modify (λ st, set_heap (λ h, <[r := contents st r ∖ contents st b]> h) st); mret r
  | VNum _ | VStr _ => throw (TypeError "values is not iterable")
  end.

(** [RoaringBitmap32.orMany(bitmaps)]: a new bitmap holding the union. *)
Definition orMany (bitmaps : list ref) : M State ref := λ st,
  new_bitmap (⋃ (contents st <$> bitmaps)) st.

(** [hasBitmap(key)] *)
Definition hasBitmap (key : string) : M State bool :=
  gets (λ st, bool_decide (is_Some (db st !! key))).

(** [this.#cache.delete(key)] *)
Definition cache_delete (key : string) : M State () := λ st,
  match cache st with
  | CacheMap c => (Return (), mkState (db st) (CacheMap (delete key c)) (heap st) (resolved st))
  | CacheNotAMap _ => (Throw (TypeError "this.#cache.delete is not a function"), st)
  end.

(** [removeBitmap(key)] *)
Definition removeBitmap (key : string) : M State bool :=
  has ← hasBitmap key;
  if negb has then mret false
  else
    _ ← cache_delete key;
    _ ← modify (set_db (delete key));
    mret true.

(** [removeBitmapSync(key)] *)
Definition removeBitmapSync (key : string) : M State bool :=
  has ← hasBitmap key;
  if negb has then mret false
  else
    _ ← modify (set_db (delete key));
    mret true.

(** [untickSync(key, oidArrayOrBitmap, implicitSave = true)] *)
Definition untickSync (key : string) (oidArrayOrBitmap : JsVal) (implicitSave : bool)
    : M State TickResult :=
  found ← getBitmap key;
  match found with
  | None => mret TickFalse
  | Some bitmap =>
      bitmap ← removeMany bitmap oidArrayOrBitmap;
      _ ← (if implicitSave then saveBitmapToDb key bitmap else mret ());
      mret (TickBitmap bitmap)
  end.

(** [OR(keyArray)]: [keyArray.map(key => this.getBitmap(key)).filter(Boolean)]
    and then [orMany], or a new empty bitmap when nothing is left. *)
Definition OR (keyArray : list string) : M State ref :=
  found ← mapM getBitmap keyArray;
  let validBitmaps := omap (λ b : option ref, b) found in
  if (length validBitmaps =? 0)%nat then new_bitmap ∅ else orMany validBitmaps.

(** The value of [createBitmap]: [false] or the bitmap. *)
Inductive CreateResult :=
  | CreateFalse
  | CreatedBitmap (r : ref).

(** [!oidArrayOrBitmap]: an absent seed, [0] and the empty string are falsy. *)
Definition falsy_seed (seed : option JsVal) : bool :=
  match seed with
  | None => true
  | Some (VNum n) => (n =? 0)%N
  | Some (VStr EmptyString) => true
  | Some (VStr (String _ _)) | Some (VArr _) | Some (VBitmap _) => false
  end.

(** Modelled from the spec: the class [Bitmap] (module ./Bitmap) is not among
    the sources.  [Bitmap.create(seed, options)] gives a bitmap (an instance
    of [RoaringBitmap32]) for a seed that "may be absent (empty set), an
    existing compressed set (adopted by value), or a plain collection of
    integers (materialized into a new compressed set)". *)
Definition Bitmap_create (seed : option JsVal) : M State ref :=
  match seed with
  | Some (VArr l) => new_bitmap (list_to_set l)
  | Some (VBitmap b) => λ st, new_bitmap (contents st b) st
  | Some (VNum _) | Some (VStr _) | None => new_bitmap ∅
  end.

(** The truthiness of the value of [#saveBitmapToDb], which has no
    [return] statement: [undefined] is falsy. *)
Definition truthy_undefined (_ : ()) : bool := false.

(** [createBitmap(key, oidArrayOrBitmap = null)] *)
Definition createBitmap (key : string) (oidArrayOrBitmap : option JsVal)
    : M State CreateResult :=
  has ← hasBitmap key;
  if (has : bool) then mret CreateFalse
  else
    first ← (if falsy_seed oidArrayOrBitmap
             then b ← new_bitmap ∅; mret (Some b)
             else
               match oidArrayOrBitmap with
               | Some (VBitmap b) => mret (Some b)
               | Some (VArr l) => b ← new_bitmap (list_to_set l); mret (Some b)
               | _ => mret None
               end);
    match first with
    | None => mret CreateFalse
    | Some _ =>
        bitmap ← Bitmap_create oidArrayOrBitmap;
        saved ← saveBitmapToDb key bitmap;
        if negb (truthy_undefined saved)
        then throw (Error "Unable to save bitmap to database")
        else mret (CreatedBitmap bitmap)
    end.

(** [renameBitmap(key, newKey)] *)
Definition renameBitmap (key newKey : string) : M State bool :=
  bitmap ← getBitmap key;
  match bitmap with
  | None => mret false
  | Some bitmap =>
      created ← createBitmap newKey (Some (VBitmap bitmap));
      match created with
      | CreateFalse => throw (Error "Unable to create bitmap")
      | CreatedBitmap _ =>
          removed ← removeBitmap key;
          if negb removed then throw (Error "Unable to remove bitmap")
          else mret true
      end
  end.

(** [renameBitmapSync(key, newKey)]: the class has no method
    [createBitmapSync], so the call of it throws. *)
Definition renameBitmapSync (key newKey : string) : M State bool :=
  bitmap ← getBitmap key;
  match bitmap with
  | None => mret false
  | Some _ => throw (TypeError "this.createBitmapSync is not a function")
  end.

End BitmapManager.

(** ** String primitives of the JavaScript runtime *)
Module JsString.

(** The separator [/] (code point 47). *)
Definition slash : Ascii.ascii := Ascii.ascii_of_nat 47.

(** [s.split('/')] *)
Fixpoint split (s : string) : list string :=
  match s with
  | EmptyString => [EmptyString]
  | String c s' =>
      if Ascii.eqb c slash then EmptyString :: split s'
      else
        match split s' with
        | h :: t => String c h :: t
        | [] => [String c EmptyString]
        end
  end.

(** [parts.join('/')] *)
Fixpoint join (parts : list string) : string :=
  match parts with
  | [] => EmptyString
  | [x] => x
  | x :: rest => x +:+ "/" +:+ join rest
  end.

(** [Boolean(s)] for a string: only the empty string is falsy. *)
Definition truthy (s : string) : bool :=
  match s with EmptyString => false | String _ _ => true end.

(** [s.split('/').filter(Boolean)] *)
Definition segments (s : string) : list string := filter (λ x, truthy x = true) (split s).

(** [parts.slice(0, -1)] *)
Definition slice_init {A} (parts : list A) : list A := removelast parts.

(** [s.includes('/')] *)
Fixpoint includes_slash (s : string) : bool :=
  match s with
  | EmptyString => false
  | String c s' => Ascii.eqb c slash || includes_slash s'
  end.

(** [hay.includes(needle)] *)
Definition includes (hay needle : string) : bool :=
  match String.index 0 needle hay with Some _ => true | None => false end.

(** [parts.pop()] on the result of a [split], which is never empty. *)
Definition pop (parts : list string) : string := List.last parts EmptyString.

End JsString.

(** ** IndexD (the document index) *)
Module IndexD.
Import Roaring.

(** The entries of [DOCUMENT_SCHEMAS]: the JSON description produced by
    the [toJSON] of the schema class required for each key. *)
Inductive Schema :=
  | DocumentSchema
  | FileSchema
  | TabSchema
  | NoteSchema.

(** [DOCUMENT_SCHEMA_TYPE] of the schema classes present in the sources. *)
Definition schema_type (s : Schema) : option string :=
  match s with
  | FileSchema => Some "data/abstraction/file"
  | NoteSchema => Some "data/abstr/note"
  | DocumentSchema | TabSchema => None
  end.

(** What [DOCUMENT_SCHEMAS[key]] evaluates to when it is not [undefined]:
    an own property of the object literal, or a member inherited from
    [Object.prototype] (a function or object, hence truthy). *)
Inductive Property :=
  | Own (s : Schema)
  | Inherited (name : string).

Definition object_prototype_members : list string :=
  ["constructor"; "__defineGetter__"; "__defineSetter__"; "hasOwnProperty";
   "__lookupGetter__"; "__lookupSetter__"; "isPrototypeOf";
   "propertyIsEnumerable"; "toString"; "valueOf"; "__proto__";
   "toLocaleString"].

(** [DOCUMENT_SCHEMAS[key]] *)
Definition DOCUMENT_SCHEMAS (key : string) : option Property :=
  if decide (key = "default") then Some (Own DocumentSchema)
  else if decide (key = "file") then Some (Own FileSchema)
  else if decide (key = "tab") then Some (Own TabSchema)
  else if decide (key = "note") then Some (Own NoteSchema)
  else if decide (key ∈ object_prototype_members) then Some (Inherited key)
  else None.

(** [hasDocumentSchema(schema)] *)
Definition hasDocumentSchema (schema : string) : bool :=
  match DOCUMENT_SCHEMAS schema with Some _ => true | None => false end.

(** [getDocumentSchema(schema)]; [None] is [null]. *)
Definition getDocumentSchema (schema : string) : option Property :=
  let schema :=
    if JsString.includes_slash schema then JsString.pop (JsString.split schema)
    else schema in
  match DOCUMENT_SCHEMAS schema with
  | None => None
  | Some p => Some p
  end.

(** A document as handed to [insertDocument]: [id] may be absent, and
    [sha1] is the content hash found in [hashes]. *)
Record RawDocument := mkRawDocument {
  raw_id : option N;
  raw_sha1 : string;
  raw_data : string
}.

(** Modelled from the spec: the class [Document] (module
    ../../schemas/Document) is not among the sources.  A document record has
    the shape "{ id, schemaVersion, type, hashes: { sha1?: string, ... },
    data }"; of it the index reads [id], [hashes.sha1] and [data], which
    [new Document(doc)] takes over from [doc]. *)
Record Document := mkDocument {
  doc_id : N;
  doc_sha1 : string;
  doc_data : string
}.

(** Modelled from the spec: the persistence module (../db) is not among
    the sources.  Each named dataset offers [get(key)] and [put(key, value)],
    a finite map.  The constructor creates three: [documents], [bitmaps]
    (handed to the four bitmap managers) and [hash2oid]. *)
Record State := mkState {
  documents : gmap N Document;
  bitmaps : gmap string BitmapManager.DbValue;
  hash2oid : gmap string N
}.

(** Truthiness of a stored object identifier ([undefined] and [0] are falsy). *)
Definition truthy_id (res : option N) : bool :=
  match res with
  | Some n => negb (n =? 0)%N
  | None => false
  end.

(** Modelled from the spec: [this.db.getKeysCount()], the count-keys
    operation of the persistence engine, taken over the three datasets. *)
Definition getKeysCount (st : State) : N :=
  N.of_nat (size (documents st) + size (bitmaps st) + size (hash2oid st)).

(** [#genDocumentID()]: the post-increment returns the value before it. *)
Definition genDocumentID (st : State) : N := getKeysCount st + 1000.

(** [#validateDocument(doc)] *)
Definition validateDocument (doc : RawDocument) : M State Document := λ st,
  let id := if truthy_id (raw_id doc) then default 0%N (raw_id doc) else genDocumentID st in
  (Return (mkDocument id (raw_sha1 doc) (raw_data doc)), st).

(** [#extractDocumentFeatures(doc)] *)
Definition extractDocumentFeatures (doc : Document) : list string := [].

(** What [insertDocument] resolves to: [true], the value of
    [updateDocument], or the parsed document. *)
Inductive InsertResult :=
  | Updated
  | Inserted (parsed : Document).

(** [updateDocument(doc, contextArray, featureArray)] *)
Definition updateDocument (doc : Document) (contextArray featureArray : list string)
    : M State InsertResult := mret Updated.

(** A call on one of the bitmap managers built by the constructor as
    [new BitmapManager(this.bitmaps, name, {...})]: its [#db] is the
    [bitmaps] dataset and its [#cache] is the string [name].  The promise
    returned by an [async] method settles to the method's outcome. *)
Definition on_manager {A} (name : string) (call : M BitmapManager.State A)
    : M State (outcome A) := λ st,
  let '(res, bm) :=
    call (BitmapManager.mkState (bitmaps st) (BitmapManager.CacheNotAMap name) [] []) in
  (Return res, mkState (documents st) (BitmapManager.db bm) (hash2oid st)).

(** [insertDocument(doc, contextArray = [], featureArray = [])].  The three
    promises of the [Promise.all] are created in order, each call running
    to its end; the [await] throws when one of them is rejected and the
    write to [hash2oid] is then skipped. *)
Definition insertDocument (doc : RawDocument) (contextArray featureArray : list string)
    : M State InsertResult :=
  parsed ← validateDocument doc;
  let extractedFeatures := extractDocumentFeatures parsed in
  let combinedFeatureArray := featureArray ++ extractedFeatures in
  res ← gets (λ st, hash2oid st !! doc_sha1 parsed);
  if truthy_id res then updateDocument parsed contextArray combinedFeatureArray
  else
    _ ← modify (λ st, mkState (<[doc_id parsed := parsed]> (documents st)) (bitmaps st) (hash2oid st));
    ticked_contexts ← on_manager "contexts"
      (BitmapManager.tickMany contextArray (BitmapManager.VNum (doc_id parsed)) true true);
    ticked_features ← on_manager "features"
      (BitmapManager.tickMany combinedFeatureArray (BitmapManager.VNum (doc_id parsed)) true true);
    match ticked_contexts, ticked_features with
    | Return _, Return _ =>
        _ ← modify (λ st, mkState (documents st) (bitmaps st)
                            (<[doc_sha1 parsed := doc_id parsed]> (hash2oid st)));
        mret (Inserted parsed)
    | Throw error, _ => throw error
    | Return _, Throw error => throw error
    end.

(** [getDocument(id)] *)
Definition getDocument (id : N) (st : State) : option Document := documents st !! id.

(** [getDocumentByHash(hash, hashType = '')]; [None] is [null] or [undefined]. *)
Definition getDocumentByHash (hash hashType : string) (st : State) : option Document :=
  let fullHash := if JsString.truthy hashType then hashType +:+ "/" +:+ hash else hash in
  let id := hash2oid st !! fullHash in
  if negb (truthy_id id) then None
  else documents st !! default 0%N id.

End IndexD.

(** ** The context tree (TreeNode and Tree) *)
Module Tree.

(** Modelled from the spec: the class [Layer] (module ./Layer) is not among
    the sources.  A layer has the "identity: id (string, stable, globally
    unique)" and the attributes name, label, description, color and type;
    the tree reads [id] and [name]. *)
Record Layer := mkLayer {
  layer_id : string;
  layer_name : string
}.

(** [rootLayer] *)
Definition rootLayer : Layer := mkLayer "/" "universe".

(** Modelled from the spec: the class [LayerIndex] (module ./LayerIndex) is
    not among the sources.  The layer registry "resolves a human-readable
    name to a stable layer identifier and record, creating one on demand;
    resolves an identifier back to its record" and "owns identifier
    allocation": it holds the layer records in creation order and numbers
    the identifiers it hands out. *)
Record LayerIndex := mkLayerIndex {
  layer_list : list Layer;
  next_layer : N
}.

Definition getLayerByName (L : LayerIndex) (name : string) : option Layer :=
  List.find (λ l, bool_decide (layer_name l = name)) (layer_list L).

Definition getLayerByID (L : LayerIndex) (id : string) : option Layer :=
  List.find (λ l, bool_decide (layer_id l = id)) (layer_list L).

Definition createLayer (name : string) (L : LayerIndex) : Layer * LayerIndex :=
  let layer := mkLayer ("layer-" +:+ pretty (next_layer L)) name in
  (layer, mkLayerIndex (layer_list L ++ [layer]) (next_layer L + 1)).

(** [class TreeNode]: [children] is a [Map] from child identifier to child,
    kept here as the list of its values in insertion order (the key of a
    child is always the child's own [id], see [addChild]). *)
Local Unset Elimination Schemes.
Inductive TreeNode :=
  | mkTreeNode (id : string) (payload : Layer) (children : list TreeNode).

Definition node_id (n : TreeNode) : string := match n with mkTreeNode id _ _ => id end.
Definition payload (n : TreeNode) : Layer := match n with mkTreeNode _ p _ => p end.
Definition children (n : TreeNode) : list TreeNode := match n with mkTreeNode _ _ c => c end.

(** [new TreeNode(id, payload)]; the payload may be [undefined]. *)
Definition newTreeNode (id : string) (payload : option Layer) : outcome TreeNode :=
  if negb (JsString.truthy id) then Throw (Error "Treenode ID not provided")
  else
    match payload with
    | None => Throw (Error "TreeNode payload must be provided")
    | Some p => Return (mkTreeNode id p [])
    end.

Definition isLeaf (n : TreeNode) : bool := (length (children n) =? 0)%nat.
Definition hasChildren (n : TreeNode) : bool := negb (isLeaf n).

(** [getChild(id)]: [children.get(id)] *)
Definition getChild (n : TreeNode) (id : string) : option TreeNode :=
  List.find (λ c, bool_decide (node_id c = id)) (children n).

(** [hasChild(id)] *)
Definition hasChild (n : TreeNode) (id : string) : bool :=
  match getChild n id with Some _ => true | None => false end.

(** [addChild(child)]: a new key is appended, an existing one is kept. *)
Definition addChild (n child : TreeNode) : TreeNode :=
  if hasChild n (node_id child) then n
  else mkTreeNode (node_id n) (payload n) (children n ++ [child]).

(** [removeChild(id)]: [children.delete(id)] *)
Definition removeChild (n : TreeNode) (id : string) : TreeNode :=
  mkTreeNode (node_id n) (payload n)
    (List.filter (λ c, negb (bool_decide (node_id c = id))) (children n)).

(** The persisted JSON shapes.  The compact form carries [id] and
    [children]; the display form carries [name] (and descriptive fields)
    and [children]. *)
Inductive JsonNode :=
  | mkJson (jid : option string) (jname : option string) (jchildren : list JsonNode).
Local Set Elimination Schemes.

(** A node object of the tree is designated by the identifiers of the
    children followed from the root to reach it. *)
Definition Cursor := list string.

Fixpoint node_at (cursor : Cursor) (t : TreeNode) : option TreeNode :=
  match cursor with
  | [] => Some t
  | i :: rest =>
      match getChild t i with
      | Some c => node_at rest c
      | None => None
      end
  end.

(** Replaces the value stored under key [i]. *)
Fixpoint update_child (i : string) (g : TreeNode → TreeNode) (cs : list TreeNode) : list TreeNode :=
  match cs with
  | [] => []
  | c :: cs' =>
      if bool_decide (node_id c = i) then g c :: cs' else c :: update_child i g cs'
  end.

(** An in-place mutation [f] of the node object at [cursor]. *)
Fixpoint modify_at (cursor : Cursor) (f : TreeNode → TreeNode) (t : TreeNode) : TreeNode :=
  match cursor with
  | [] => f t
  | i :: rest =>
      mkTreeNode (node_id t) (payload t) (update_child i (modify_at rest f) (children t))
  end.

(** The tree object: the injected layer registry [#layers], the [root]
    node, and the injected index store [#index].  Modelled from the spec:
    the class [TreeIndex] (module ./TreeIndex) is not among the sources; the
    tree uses its [get] and [set] on the one key ['tree'], whose value
    ([None] when absent) is kept here. *)
Record State := mkState {
  layers : LayerIndex;
  root : TreeNode;
  index : option JsonNode
}.

Definition set_layers (L : LayerIndex) (st : State) : State := mkState L (root st) (index st).
Definition set_root (t : TreeNode) (st : State) : State := mkState (layers st) t (index st).
Definition set_index (j : option JsonNode) (st : State) : State := mkState (layers st) (root st) j.

Definition mutate (cursor : Cursor) (f : TreeNode → TreeNode) : M State () :=
  modify (λ st, set_root (modify_at cursor f (root st)) st).

Definition lift {S A} (o : outcome A) : M S A := λ st, (o, st).

Definition createLayerM (name : string) : M State Layer := λ st,
  let '(layer, L) := createLayer name (layers st) in (Return layer, set_layers L st).

(** The values [insert] and [move] return. *)
Inductive RetVal :=
  | Undefined
  | Bool (b : bool).

Definition truthy (v : RetVal) : bool :=
  match v with
  | Bool b => b
  | Undefined => false
  end.

(** [#buildJsonIndexTree(node)] *)
Fixpoint buildJsonIndexTree (currentNode : TreeNode) : JsonNode :=
  match currentNode with
  | mkTreeNode id _ children =>
      mkJson (Some id) None
        (map (λ child,
                if hasChildren child then buildJsonIndexTree child
                else mkJson (Some (node_id child)) None [])
             children)
  end.

(** [save()] *)
Definition save : M State bool :=
  data ← gets (λ st, buildJsonIndexTree (root st));
  _ ← modify (set_index (Some data));
  mret true.

(** The inner [buildTree] of [#buildTreeFromJson(rootNode, autoCreateLayers = true)] *)
Fixpoint buildTree (autoCreateLayers : bool) (nodeData : JsonNode) : M State TreeNode :=
  match nodeData with
  | mkJson jid jname jchildren =>
      found ← gets (λ st,
        if bool_decide (jid = Some "/") || bool_decide (jname = Some "/") then Some rootLayer
        else jid ≫= getLayerByID (layers st));
      let no_name := negb (JsString.truthy (default "" jname)) in
      layer ← match found with
              | Some layer => mret layer
              | None =>
                  if no_name || negb autoCreateLayers
                  then throw (Error "Unable to find layer by ID, can not create a tree node")
                  else createLayerM (default "" jname)
              end;
      node ← (if bool_decide (layer_id layer = "/")
              then lift (newTreeNode "/" (Some rootLayer))
              else
                p ← gets (λ st, getLayerByID (layers st) (layer_id layer));
                lift (newTreeNode (layer_id layer) p));
      (fix build_children (cs : list JsonNode) (node : TreeNode) : M State TreeNode :=
         match cs with
         | [] => mret node
         | childData :: cs' =>
             childNode ← buildTree autoCreateLayers childData;
             build_children cs' (addChild node childNode)
         end) jchildren node
  end.

(** [#buildTreeFromJson(rootNode, autoCreateLayers = true)] *)
Definition buildTreeFromJson (rootNode : option JsonNode) (autoCreateLayers : bool)
    : M State TreeNode :=
  match rootNode with
  | None => lift (newTreeNode "/" (Some rootLayer))
  | Some rootNode => buildTree autoCreateLayers rootNode
  end.

(** [load(json = this.#index.get('tree'))], given the value of [json]. *)
Definition load_json (json : option JsonNode) : M State bool :=
  match json with
  | None => mret false
  | Some _ =>
      t ← buildTreeFromJson json true;
      _ ← modify (set_root t);
      mret true
  end.

(** [load()] *)
Definition load : M State bool := λ st, load_json (index st) st.

(** [clear()] *)
Definition clear : M State () :=
  t ← lift (newTreeNode "/" (Some rootLayer));
  _ ← modify (set_root t);
  _ ← save;
  mret ().

(** [new Tree(layerIndex, treeIndex)]: the state once the constructor has
    run [load()]. *)
Definition construct (layerIndex : LayerIndex) (treeIndex : option JsonNode) : outcome State * State :=
  let st := mkState layerIndex (mkTreeNode "/" rootLayer []) treeIndex in
  match load st with
  | (Return _, st') => (Return st', st')
  | (Throw e, st') => (Throw e, st')
  end.

(** The loop of [getNode]; [cursor] designates [currentNode]. *)
Fixpoint getNode_loop (L : LayerIndex) (layerNames : list string)
    (cursor : Cursor) (currentNode : TreeNode) : option (Cursor * TreeNode) :=
  match layerNames with
  | [] => Some (cursor, currentNode)
  | layerName :: rest =>
      match getLayerByName L layerName with
      | None => None
      | Some layer =>
          match getChild currentNode (layer_id layer) with
          | None => None
          | Some child => getNode_loop L rest (cursor ++ [layer_id layer]) child
          end
      end
  end.

(** [getNode(path)]: the node object found (its cursor and its present
    value), or [None] for [false]. *)
Definition getNode (path : string) (st : State) : option (Cursor * TreeNode) :=
  if bool_decide (path = "/") || negb (JsString.truthy path) then Some ([], root st)
  else getNode_loop (layers st) (JsString.segments path) [] (root st).

(** The loop of [insert]; [None] stands for the early [return false]. *)
Fixpoint insert_loop (autoCreateLayers : bool) (layerNames : list string)
    (currentNode : Cursor) : M State (option Cursor) :=
  match layerNames with
  | [] => mret (Some currentNode)
  | layerName :: rest =>
      found ← gets (λ st, getLayerByName (layers st) layerName);
      layer ← match found with
              | Some l => mret (Some l)
              | None =>
                  if autoCreateLayers then l ← createLayerM layerName; mret (Some l)
                  else mret None
              end;
      match layer with
      | None => mret None
      | Some layer =>
          child ← gets (λ st, node_at currentNode (root st) ≫= λ n, getChild n (layer_id layer));
          _ ← match child with
              | Some _ => mret ()
              | None =>
                  p ← gets (λ st, getLayerByID (layers st) (layer_id layer));
                  c ← lift (newTreeNode (layer_id layer) p);
                  mutate currentNode (λ n, addChild n c)
              end;
          insert_loop autoCreateLayers rest (currentNode ++ [layer_id layer])
      end
  end.

(** [insert(path = '/', node, autoCreateLayers = true)].  The method ends
    with [this.save()] and no [return] statement: its value is then
    [undefined]. *)
Definition insert (path : string) (node : option TreeNode) (autoCreateLayers : bool)
    : M State RetVal :=
  if bool_decide (path = "/") && bool_decide (node = None) then mret (Bool false)
  else
    reached ← insert_loop autoCreateLayers (JsString.segments path) [];
    match reached with
    | None => mret (Bool false)
    | Some currentNode =>
        _ ← match node with
            | None => mret ()
            | Some node =>
                child ← gets (λ st, node_at currentNode (root st) ≫= λ n, getChild n (node_id node));
                match child with
                | Some child => mutate currentNode (λ n, addChild n child)
                | None => mret ()
                end
            end;
        _ ← save;
        mret Undefined
    end.

(** [const [key, value] = entry] where [entry] is produced by
    [node.children.values()]: the entry is a [TreeNode], and the class
    defines no iterator, so the destructuring throws. *)
Definition destructure_entry (entry : TreeNode) : M State (string * TreeNode) :=
  throw (TypeError "object is not iterable").

(** [for (const [key, value] of node.children.values()) parentNode.addChild(value)] *)
Fixpoint promote_children (parentNode : Cursor) (entries : list TreeNode) : M State () :=
  match entries with
  | [] => mret ()
  | entry :: rest =>
      kv ← destructure_entry entry;
      _ ← mutate parentNode (λ p, addChild p (snd kv));
      promote_children parentNode rest
  end.

(** [pathFrom.split('/').slice(0, -1).join('/')] *)
Definition parent_path (path : string) : string :=
  JsString.join (JsString.slice_init (JsString.split path)).

(** [remove(path, recursive = false)] *)
Definition remove (path : string) (recursive : bool) : M State bool :=
  node ← gets (getNode path);
  match node with
  | None => mret false
  | Some (_, node) =>
      parentNode ← gets (getNode (parent_path path));
      match parentNode with
      | None => throw (Error "Unable to remove layer, parent node not found")
      | Some (parentNode, _) =>
          _ ← (if negb recursive && hasChildren node
               then promote_children parentNode (children node)
               else mret ());
          _ ← mutate parentNode (λ p, removeChild p (node_id node));
          _ ← save;
          mret true
      end
  end.

(** [moveRecursive(pathFrom, pathTo)] *)
Definition moveRecursive (pathFrom pathTo : string) : M State RetVal :=
  node ← gets (getNode pathFrom);
  parentNode ← gets (getNode (parent_path pathFrom));
  match node with
  | None => throw (TypeError "Cannot read properties of undefined (reading 'name')")
  | Some (_, node) =>
      let layer := payload node in
      if JsString.includes pathTo (layer_name layer)
      then throw (Error "Destination path includes the layer name")
      else
        inserted ← insert pathTo (Some node) true;
        if negb (truthy inserted) then mret (Bool false)
        else
          match parentNode with
          | None => throw (TypeError "parentNode.removeChild is not a function")
          | Some (parentNode, _) =>
              _ ← mutate parentNode (λ p, removeChild p (node_id node));
              _ ← save;
              mret Undefined
          end
  end.

(** [move(pathFrom, pathTo, recursive = false)].  After the [insert] the
    objects [node] and [parentNode] are read again at their cursors, since
    the insertion may have added children to them. *)
Definition move (pathFrom pathTo : string) (recursive : bool) : M State RetVal :=
  if recursive then moveRecursive pathFrom pathTo
  else
    node ← gets (getNode pathFrom);
    match node with
    | None => mret (Bool false)
    | Some (nodeCursor, node) =>
        parentNode ← gets (getNode (parent_path pathFrom));
        match parentNode with
        | None => mret (Bool false)
        | Some (parentNode, _) =>
            let layer := payload node in
            targetNode ← lift (newTreeNode (layer_id layer) (Some layer));
            inserted ← insert pathTo (Some targetNode) true;
            if negb (truthy inserted) then mret (Bool false)
            else
              _ ← mutate parentNode (λ p, removeChild p (node_id node));
              now ← gets (λ st, default node (node_at nodeCursor (root st)));
              _ ← (if hasChildren now
                   then promote_children parentNode (children now)
                   else mret ());
              _ ← save;
              mret Undefined
        end
    end.


End Tree.

(** * Properties *)

(** ** Generic facts about method bodies *)

Lemma bind_return {S A B} (m : M S A) (f : A → M S B) (s s' : S) (a : A) :
  m s = (Return a, s') → (m ≫= f) s = f a s'.
Proof. intros H. unfold mbind, M_bind. by rewrite H. Qed.

Lemma bind_throw {S A B} (m : M S A) (f : A → M S B) (s s' : S) (e : JsError) :
  m s = (Throw e, s') → (m ≫= f) s = (Throw e, s').
Proof. intros H. unfold mbind, M_bind. by rewrite H. Qed.

(** ** Strings *)
Module JsStringFacts.
Import JsString.

Example split_path : split "/work/reports" = [""; "work"; "reports"].
Proof. reflexivity. Qed.

Example segments_drop_empty : segments "/work//reports/" = ["work"; "reports"].
Proof. reflexivity. Qed.

Example parent_of_nested : join (slice_init (split "/work/reports")) = "/work".
Proof. reflexivity. Qed.

Example parent_of_top : join (slice_init (split "/work")) = "".
Proof. reflexivity. Qed.

Example parent_with_trailing_slash : join (slice_init (split "/work/")) = "/work".
Proof. reflexivity. Qed.

Example pop_schema : pop (split "data/abstr/note") = "note".
Proof. reflexivity. Qed.

End JsStringFacts.

(** ** The set library *)
Module RoaringFacts.
Import Roaring.

Lemma deserialize_serialize (s : bitmap) : deserialize (serialize s) = s.
Proof. unfold deserialize, serialize; simpl. apply list_to_set_elements_L. Qed.

Lemma size_zero_iff (s : bitmap) : (size s =? 0)%nat = true ↔ s = ∅.
Proof. rewrite Nat.eqb_eq, size_empty_iff. by unfold_leibniz. Qed.

Lemma foldl_inter_empty (sets : list bitmap) : foldl (∩) ∅ sets = ∅.
Proof.
  induction sets as [|s sets IH]; simpl; [done|].
  by rewrite (left_absorb_L ∅ (∩)).
Qed.

End RoaringFacts.

(** ** BitmapManager *)
Module BitmapManagerFacts.
Import Roaring BitmapManager RoaringFacts.

(** The members a key stands for in a state: those of the cached object,
    else those of the persisted blob. *)
Definition resolves (st : State) (key : string) : option bitmap :=
  match cache st with
  | CacheMap c =>
      match c !! key with
      | Some r => Some (contents st r)
      | None =>
          match db st !! key with
          | Some (DbBlob b) => Some (deserialize b)
          | Some DbFalsy | None => None
          end
      end
  | CacheNotAMap _ => None
  end.

Lemma contents_alloc (st : State) (v : bitmap) (r : ref) :
  contents (set_heap (λ h, h ++ [v]) st) r
  = if decide (r = length (heap st)) then v else contents st r.
Proof.
  unfold contents, set_heap; simpl.
  destruct (decide (r = length (heap st))) as [->|Hne].
  - by rewrite lookup_app_r, Nat.sub_diag by lia.
  - destruct (decide (r < length (heap st))) as [Hlt|Hge].
    + by rewrite lookup_app_l.
    + rewrite !lookup_ge_None_2; [done|lia|].
      rewrite length_app; simpl; lia.
Qed.

Lemma contents_store (st : State) (p : ref) (v : bitmap) (r : ref) :
  p < length (heap st) →
  contents (set_heap (λ h, <[p := v]> h) st) r
  = if decide (r = p) then v else contents st r.
Proof.
  intros Hp. unfold contents, set_heap; simpl.
  destruct (decide (r = p)) as [->|Hne].
  - by rewrite list_lookup_insert_eq.
  - by rewrite list_lookup_insert_ne.
Qed.

Lemma new_bitmap_spec (s : bitmap) (st : State) :
  new_bitmap s st = (Return (length (heap st)), set_heap (λ h, h ++ [s]) st).
Proof. reflexivity. Qed.

(** The loop of [AND], for any way [resolve] of turning an array element
    into a bitmap that behaves like a lookup: [R] gives the members an
    element stands for in the state [s0] in which the call starts. *)
Section AND_generic.
Context {X : Type} (resolve : X → M State (option ref)).
Context (s0 : State) (R : X → option bitmap) (ok : X → Prop).

(** What the loop maintains while [partial] is the object [p]: [p] holds
    the running intersection [acc], and every other object that existed
    in [s0] is as it was. *)
Record frame (p : ref) (acc : bitmap) (st : State) : Prop := mkFrame {
  fr_live : p < length (heap st);
  fr_p : contents st p = acc;
  fr_other : ∀ r, r ≠ p → r < length (heap s0) → contents st r = contents s0 r;
  fr_sub : p < length (heap s0) → acc ⊆ contents s0 p;
  fr_len : length (heap s0) ≤ length (heap st);
  fr_db : db st = db s0;
  fr_cache : cache st = cache s0
}.

Lemma frame_alloc p acc st v :
  frame p acc st → frame p acc (set_heap (λ h, h ++ [v]) st).
Proof.
  intros [H1 H2 H3 H4 H5 H6 H7]. split; simpl; try done.
  - rewrite length_app; simpl; lia.
  - rewrite contents_alloc, decide_False by lia. done.
  - intros r Hr Hlt. rewrite contents_alloc, decide_False by lia. by apply H3.
  - rewrite length_app; simpl; lia.
Qed.

Lemma frame_shrink p acc st s :
  frame p acc st → frame p (acc ∩ s) (set_heap (λ h, <[p := acc ∩ s]> h) st).
Proof.
  intros [H1 H2 H3 H4 H5 H6 H7]. split; simpl; try done.
  - by rewrite length_insert.
  - rewrite contents_store, decide_True; done.
  - intros r Hr Hlt. rewrite contents_store, decide_False by done. by apply H3.
  - intros Hp. specialize (H4 Hp). etrans; [apply intersection_subseteq_l|done].
  - by rewrite length_insert.
Qed.

Lemma AND_loop_cons x xs partial st o st1 :
  resolve x st = (Return o, st1) →
  AND_loop resolve (x :: xs) partial st =
    match o with
    | None => new_bitmap ∅ st1
    | Some b =>
        if (size (contents st1 b) =? 0)%nat then new_bitmap ∅ st1
        else
          match partial with
          | None => AND_loop resolve xs (Some b) st1
          | Some p =>
              AND_loop resolve xs (Some p)
                (set_heap (λ h, <[p := contents st1 p ∩ contents st1 b]> h) st1)
          end
    end.
Proof.
  intros H. cbn [AND_loop]. rewrite (bind_return _ _ _ _ _ H).
  destruct o as [b|]; [|done].
  unfold bitmap_size, gets. unfold mbind at 1, M_bind at 1.
  destruct (size (contents st1 b) =? 0)%nat; [done|].
  by destruct partial.
Qed.

Hypothesis resolve_next : ∀ x p acc st, ok x → frame p acc st →
  ∃ o st', resolve x st = (Return o, st') ∧ frame p acc st' ∧
    match o with
    | None => R x = None
    | Some b => ∃ s, R x = Some s ∧ ((b ≠ p ∧ contents st' b = s) ∨ (b = p ∧ acc ⊆ s))
    end.

Lemma andInPlace_spec p b st :
  andInPlace p b st
  = (Return (), set_heap (λ h, <[p := contents st p ∩ contents st b]> h) st).
Proof. reflexivity. Qed.

Lemma AND_loop_intersect xs : ∀ sets p acc st,
  Forall ok xs →
  Forall2 (λ x s, R x = Some s) xs sets →
  Forall (λ s, s ≠ ∅) sets →
  frame p acc st →
  ∃ r st', AND_loop resolve xs (Some p) st = (Return r, st')
    ∧ contents st' r = foldl (∩) acc sets
    ∧ frame p (foldl (∩) acc sets) st'
    ∧ (r = p ∨ foldl (∩) acc sets = ∅).
Proof.
  induction xs as [|x xs IH]; intros sets p acc st Hok HR Hne Hfr.
  - apply Forall2_nil_inv_l in HR as ->. simpl.
    exists p, st. split; [done|]. split; [apply Hfr|]. split; [done|by left].
  - apply Forall2_cons_inv_l in HR as (s & sets' & HRx & HR & ->).
    apply Forall_cons in Hok as [Hokx Hok].
    apply Forall_cons in Hne as [Hs Hne].
    destruct (resolve_next x p acc st Hokx Hfr) as (o & st1 & Hres & Hfr1 & Ho).
    rewrite (AND_loop_cons _ _ _ _ _ _ Hres).
    destruct o as [b|]; [|congruence].
    destruct Ho as (s' & HRx' & Hcase).
    assert (s' = s) as -> by congruence.
    destruct Hcase as [[Hbp Hb]|[-> Hsub]].
    + assert ((size (contents st1 b) =? 0)%nat = false) as ->.
      { apply not_true_is_false. rewrite size_zero_iff. by rewrite Hb. }
      rewrite Hb, (fr_p _ _ _ Hfr1). simpl.
      apply IH; try done. by apply frame_shrink.
    + destruct (size (contents st1 p) =? 0)%nat eqn:Hsz.
      * apply size_zero_iff in Hsz. rewrite (fr_p _ _ _ Hfr1) in Hsz. subst acc.
        rewrite new_bitmap_spec. eexists _, _. split; [done|].
        simpl. rewrite (left_absorb_L ∅ (∩)).
        rewrite foldl_inter_empty. split; [|split].
        -- rewrite contents_alloc. by rewrite decide_True.
        -- by apply frame_alloc.
        -- by right.
      * rewrite (fr_p _ _ _ Hfr1). simpl.
        replace (acc ∩ s) with (acc ∩ acc)
          by (by rewrite (idemp_L (∩)), subseteq_intersection_1_L).
        apply IH; try done. by apply frame_shrink.
Qed.


Lemma AND_loop_short pre : ∀ x rest sets p acc st,
  Forall ok (pre ++ [x]) →
  Forall2 (λ x s, R x = Some s) pre sets →
  Forall (λ s, s ≠ ∅) sets →
  R x = None ∨ R x = Some ∅ →
  frame p acc st →
  ∃ st', AND_loop resolve (pre ++ x :: rest) (Some p) st
         = (Return (length (heap st') - 1), st')
    ∧ contents st' (length (heap st') - 1) = ∅
    ∧ AND_loop resolve (pre ++ [x]) (Some p) st
      = AND_loop resolve (pre ++ x :: rest) (Some p) st.
Proof.
  assert (Hnew : ∀ st, ∃ st', new_bitmap ∅ st = (Return (length (heap st') - 1), st')
                  ∧ contents st' (length (heap st') - 1) = ∅).
  { intros st. rewrite new_bitmap_spec. eexists; split.
    - f_equal. simpl. rewrite length_app; simpl. f_equal. lia.
    - simpl. rewrite length_app; simpl.
      replace (length (heap st) + 1 - 1) with (length (heap st)) by lia.
      rewrite contents_alloc. by rewrite decide_True. }
  induction pre as [|y pre IH]; intros x rest sets p acc st Hok HR Hne Hx Hfr.
  - simpl in Hok. apply Forall_cons in Hok as [Hok _].
    destruct (resolve_next x p acc st Hok Hfr) as (o & st1 & Hres & Hfr1 & Ho).
    cbn [app]. rewrite !(AND_loop_cons _ _ _ _ _ _ Hres).
    destruct o as [b|].
    + destruct Ho as (s & HRx & Hcase).
      assert (s = ∅) as -> by (destruct Hx; congruence).
      assert ((size (contents st1 b) =? 0)%nat = true) as ->.
      { apply size_zero_iff. destruct Hcase as [[_ Hb]|[-> Hsub]]; [done|].
        rewrite (fr_p _ _ _ Hfr1). by apply equiv_empty_L. }
      destruct (Hnew st1) as (st' & -> & Hc). eauto.
    + destruct (Hnew st1) as (st' & -> & Hc). eauto.
  - apply Forall2_cons_inv_l in HR as (s & sets' & HRy & HR & ->).
    simpl in Hok. apply Forall_cons in Hok as [Hoky Hok].
    apply Forall_cons in Hne as [Hs Hne].
    destruct (resolve_next y p acc st Hoky Hfr) as (o & st1 & Hres & Hfr1 & Ho).
    cbn [app]. rewrite !(AND_loop_cons _ _ _ _ _ _ Hres).
    destruct o as [b|]; [|congruence].
    destruct Ho as (s' & HRy' & Hcase).
    assert (s' = s) as -> by congruence.
    destruct (size (contents st1 b) =? 0)%nat eqn:Hsz.
    + destruct (Hnew st1) as (st' & -> & Hc). eauto.
    + destruct Hcase as [[Hbp Hb]|[-> Hsub]].
      * rewrite Hb, (fr_p _ _ _ Hfr1).
        eapply IH; try done. by apply frame_shrink.
      * rewrite (fr_p _ _ _ Hfr1).
        eapply IH; try done. by apply frame_shrink.
Qed.

(** The first element is resolved in [s0] itself, with no [partial] yet. *)
Hypothesis resolve_first : ∀ x, ok x →
  ∃ o st', resolve x s0 = (Return o, st') ∧
    match o with
    | None => R x = None
    | Some b => ∃ s, R x = Some s ∧ frame b s st'
    end.

Lemma AND_with_intersect x xs s sets :
  Forall ok (x :: xs) →
  R x = Some s →
  Forall2 (λ x s, R x = Some s) xs sets →
  Forall (λ s, s ≠ ∅) (s :: sets) →
  ∃ p st1 r st', resolve x s0 = (Return (Some p), st1)
    ∧ AND_with resolve (x :: xs) s0 = (Return r, st')
    ∧ contents st' r = foldl (∩) s sets
    ∧ contents st' p = foldl (∩) s sets
    ∧ (r = p ∨ foldl (∩) s sets = ∅)
    ∧ db st' = db s0 ∧ cache st' = cache s0.
Proof.
  intros Hok HRx HR Hne.
  apply Forall_cons in Hok as [Hokx Hok].
  apply Forall_cons in Hne as [Hs Hne].
  destruct (resolve_first x Hokx) as (o & st1 & Hres & Ho).
  destruct o as [p|]; [|congruence].
  destruct Ho as (s' & HRx' & Hfr). assert (s' = s) as -> by congruence.
  unfold AND_with. cbn [length Nat.eqb].
  rewrite (AND_loop_cons _ _ _ _ _ _ Hres).
  assert ((size (contents st1 p) =? 0)%nat = false) as ->.
  { apply not_true_is_false. rewrite size_zero_iff. by rewrite (fr_p _ _ _ Hfr). }
  destruct (AND_loop_intersect xs sets p s st1 Hok HR Hne Hfr)
    as (r & st' & -> & Hr & Hfr' & Hrp).
  exists p, st1, r, st'. repeat split; try done.
  - apply Hfr'.
  - apply Hfr'.
  - apply Hfr'.
Qed.

Lemma AND_with_short pre x rest sets :
  Forall ok (pre ++ [x]) →
  Forall2 (λ x s, R x = Some s) pre sets →
  Forall (λ s, s ≠ ∅) sets →
  R x = None ∨ R x = Some ∅ →
  ∃ st', AND_with resolve (pre ++ x :: rest) s0 = (Return (length (heap st') - 1), st')
    ∧ contents st' (length (heap st') - 1) = ∅
    ∧ AND_with resolve (pre ++ [x]) s0 = AND_with resolve (pre ++ x :: rest) s0.
Proof.
  assert (Hnew : ∀ st, ∃ st', new_bitmap ∅ st = (Return (length (heap st') - 1), st')
                  ∧ contents st' (length (heap st') - 1) = ∅).
  { intros st. rewrite new_bitmap_spec. eexists; split.
    - f_equal. simpl. rewrite length_app; simpl. f_equal. lia.
    - simpl. rewrite length_app; simpl.
      replace (length (heap st) + 1 - 1) with (length (heap st)) by lia.
      rewrite contents_alloc. by rewrite decide_True. }
  intros Hok HR Hne Hx.
  unfold AND_with.
  assert ((length (pre ++ x :: rest) =? 0)%nat = false) as ->.
  { apply Nat.eqb_neq. rewrite length_app; simpl; lia. }
  assert ((length (pre ++ [x]) =? 0)%nat = false) as ->.
  { apply Nat.eqb_neq. rewrite length_app; simpl; lia. }
  destruct pre as [|y pre].
  - simpl in Hok. apply Forall_cons in Hok as [Hok _].
    destruct (resolve_first x Hok) as (o & st1 & Hres & Ho).
    cbn [app]. rewrite !(AND_loop_cons _ _ _ _ _ _ Hres).
    destruct o as [b|].
    + destruct Ho as (s & HRx & Hfr).
      assert (s = ∅) as -> by (destruct Hx; congruence).
      assert ((size (contents st1 b) =? 0)%nat = true) as ->.
      { apply size_zero_iff. apply Hfr. }
      destruct (Hnew st1) as (st' & -> & Hc). eauto.
    + destruct (Hnew st1) as (st' & -> & Hc). eauto.
  - apply Forall2_cons_inv_l in HR as (s & sets' & HRy & HR & ->).
    simpl in Hok. apply Forall_cons in Hok as [Hoky Hok].
    apply Forall_cons in Hne as [Hs Hne].
    destruct (resolve_first y Hoky) as (o & st1 & Hres & Ho).
    cbn [app]. rewrite !(AND_loop_cons _ _ _ _ _ _ Hres).
    destruct o as [b|]; [|congruence].
    destruct Ho as (s' & HRy' & Hfr). assert (s' = s) as -> by congruence.
    assert ((size (contents st1 b) =? 0)%nat = false) as ->.
    { apply not_true_is_false. rewrite size_zero_iff. by rewrite (fr_p _ _ _ Hfr). }
    by eapply AND_loop_short.
Qed.

End AND_generic.

Lemma frame_log s0 p acc st key :
  frame s0 p acc st → frame s0 p acc (log_resolved key st).
Proof. intros [H1 H2 H3 H4 H5 H6 H7]. by split. Qed.

Lemma loadBitmapFromDb_blob key st b :
  db st !! key = Some (DbBlob b) →
  loadBitmapFromDb key st
  = (Return (Some (length (heap st))), set_heap (λ h, h ++ [deserialize b]) st).
Proof.
  intros Hdb. unfold loadBitmapFromDb. rewrite Hdb.
  unfold mbind, M_bind, new_bitmap, modify, mret, M_ret, set_heap; simpl.
  do 3 f_equal.
  rewrite insert_app_r_alt, Nat.sub_diag by lia. done.
Qed.

(** [getBitmap] as a function of the state, when the cache is a [Map]. *)
Lemma getBitmap_spec key st c :
  cache st = CacheMap c →
  getBitmap key st =
    match c !! key with
    | Some r => (Return (Some r), log_resolved key st)
    | None =>
        match db st !! key with
        | Some (DbBlob b) =>
            (Return (Some (length (heap st))),
             set_heap (λ h, h ++ [deserialize b]) (log_resolved key st))
        | Some DbFalsy | None => (Return None, log_resolved key st)
        end
    end.
Proof.
  intros Hc. unfold getBitmap. simpl. rewrite Hc.
  destruct (c !! key) as [r|]; [done|].
  destruct (db st !! key) as [[b|]|] eqn:Hdb; [| |done].
  - by rewrite (loadBitmapFromDb_blob key _ b).
  - unfold loadBitmapFromDb. simpl. by rewrite Hdb.
Qed.

Section AND_instance.
Context (s0 : State) (c : gmap string ref).
Hypothesis cache_map : cache s0 = CacheMap c.
Hypothesis cache_live : ∀ k r, c !! k = Some r → r < length (heap s0).

Lemma getBitmap_next x p acc st :
  True → frame s0 p acc st →
  ∃ o st', getBitmap x st = (Return o, st') ∧ frame s0 p acc st' ∧
    match o with
    | None => resolves s0 x = None
    | Some b => ∃ s, resolves s0 x = Some s
                     ∧ ((b ≠ p ∧ contents st' b = s) ∨ (b = p ∧ acc ⊆ s))
    end.
Proof.
  intros _ Hfr.
  assert (Hc : cache st = CacheMap c) by (by rewrite (fr_cache _ _ _ _ Hfr)).
  rewrite (getBitmap_spec _ _ _ Hc). unfold resolves. rewrite cache_map.
  rewrite (fr_db _ _ _ _ Hfr).
  destruct (c !! x) as [r|] eqn:Hx.
  - eexists _, _. split; [done|]. split; [by apply frame_log|].
    exists (contents s0 r). split; [done|].
    destruct (decide (r = p)) as [->|Hne].
    + right. split; [done|]. apply (fr_sub _ _ _ _ Hfr). eauto.
    + left. split; [done|]. apply (fr_other _ _ _ _ Hfr); eauto.
  - destruct (db s0 !! x) as [[b|]|] eqn:Hdb.
    + eexists _, _. split; [done|]. split; [by apply frame_alloc, frame_log|].
      exists (deserialize b). split; [done|]. left. split.
      * pose proof (fr_live _ _ _ _ Hfr). simpl. lia.
      * rewrite contents_alloc. simpl. by rewrite decide_True.
    + eexists _, _. split; [done|]. split; [by apply frame_log|done].
    + eexists _, _. split; [done|]. split; [by apply frame_log|done].
Qed.

Lemma frame_init_existing r :
  r < length (heap s0) → ∀ st, heap st = heap s0 → db st = db s0 → cache st = cache s0 →
  frame s0 r (contents s0 r) st.
Proof.
  intros Hr st Hh Hd Hc. split; try done.
  - by rewrite Hh.
  - unfold contents. by rewrite Hh.
  - intros r' _ _. unfold contents. by rewrite Hh.
  - by rewrite Hh.
Qed.

Lemma getBitmap_first x :
  True →
  ∃ o st', getBitmap x s0 = (Return o, st') ∧
    match o with
    | None => resolves s0 x = None
    | Some b => ∃ s, resolves s0 x = Some s ∧ frame s0 b s st'
    end.
Proof.
  intros _. rewrite (getBitmap_spec _ _ _ cache_map). unfold resolves. rewrite cache_map.
  destruct (c !! x) as [r|] eqn:Hx.
  - eexists _, _. split; [done|]. exists (contents s0 r). split; [done|].
    apply frame_init_existing; eauto.
  - destruct (db s0 !! x) as [[b|]|] eqn:Hdb.
    + eexists _, _. split; [done|]. exists (deserialize b). split; [done|].
      split; simpl; try done.
      * rewrite length_app; simpl; lia.
      * rewrite contents_alloc. simpl. by rewrite decide_True.
      * intros r Hne Hlt. rewrite contents_alloc. simpl. by rewrite decide_False by lia.
      * lia.
      * rewrite length_app; simpl; lia.
    + eexists _, _. split; done.
    + eexists _, _. split; done.
Qed.

End AND_instance.

(** The static variant resolves nothing: an element is the bitmap. *)
Definition members (st : State) (o : option ref) : option bitmap := contents st <$> o.

Definition live (st : State) (o : option ref) : Prop :=
  ∀ r, o = Some r → r < length (heap st).

Lemma static_next s0 x p acc st :
  live s0 x → frame s0 p acc st →
  ∃ o st', (mret x : M State (option ref)) st = (Return o, st') ∧ frame s0 p acc st' ∧
    match o with
    | None => members s0 x = None
    | Some b => ∃ s, members s0 x = Some s
                     ∧ ((b ≠ p ∧ contents st' b = s) ∨ (b = p ∧ acc ⊆ s))
    end.
Proof.
  intros Hlive Hfr. exists x, st. split; [done|]. split; [done|].
  destruct x as [b|]; [|done]. exists (contents s0 b). split; [done|].
  destruct (decide (b = p)) as [->|Hne].
  - right. split; [done|]. apply (fr_sub _ _ _ _ Hfr). by apply Hlive.
  - left. split; [done|]. apply (fr_other _ _ _ _ Hfr); [done|]. by apply Hlive.
Qed.

Lemma static_first s0 x :
  live s0 x →
  ∃ o st', (mret x : M State (option ref)) s0 = (Return o, st') ∧
    match o with
    | None => members s0 x = None
    | Some b => ∃ s, members s0 x = Some s ∧ frame s0 b s st'
    end.
Proof.
  intros Hlive. exists x, s0. split; [done|].
  destruct x as [b|]; [|done]. exists (contents s0 b). split; [done|].
  apply frame_init_existing; auto.
Qed.

Lemma Forall2_and_split {A B} (P : A → B → Prop) (Q : B → Prop) l k :
  Forall2 (λ a b, P a b ∧ Q b) l k → Forall2 P l k ∧ Forall Q k.
Proof.
  induction 1 as [|a b l k [HP HQ] _ [IH1 IH2]]; split; constructor; done.
Qed.

(** [getBitmap] is the only operation of the loop that a store observes:
    [AND] resolves an initial segment of its keys, in order. *)
Lemma AND_loop_resolved c keys : ∀ partial st,
  cache st = CacheMap c →
  ∃ j, resolved (AND_loop getBitmap keys partial st).2 = resolved st ++ take j keys.
Proof.
  induction keys as [|k keys IH]; intros partial st Hc.
  - exists 0. simpl. destruct partial; simpl; by rewrite app_nil_r.
  - pose proof (getBitmap_spec k st c Hc) as Hg.
    assert (∃ o st1, getBitmap k st = (Return o, st1)
              ∧ cache st1 = CacheMap c ∧ resolved st1 = resolved st ++ [k])
      as (o & st1 & Hres & Hc1 & Hr1).
    { rewrite Hg. destruct (c !! k); [by eexists _, _|].
      destruct (db st !! k) as [[b|]|]; by eexists _, _. }
    rewrite (AND_loop_cons _ _ _ _ _ _ _ Hres).
    assert (Hstop : ∃ j, resolved (new_bitmap ∅ st1).2 = resolved st ++ take j (k :: keys)).
    { exists 1. simpl. by rewrite take_0. }
    destruct o as [b|]; [|done].
    destruct (size (contents st1 b) =? 0)%nat; [done|].
    destruct partial as [p|].
    + destruct (IH (Some p) (set_heap (λ h, <[p := contents st1 p ∩ contents st1 b]> h) st1))
        as [j Hj]; [done|].
      exists (S j). rewrite Hj. simpl. rewrite Hr1. by rewrite <- app_assoc.
    + destruct (IH (Some b) st1) as [j Hj]; [done|].
      exists (S j). rewrite Hj, Hr1. simpl. by rewrite <- app_assoc.
Qed.

(** C3: [AND([])] is an empty set; as soon as a key resolves to a missing
    or empty set, [AND] returns an empty set and resolves none of the keys
    that follow; when every key resolves to a non-empty set the result is
    their intersection.  The same holds for the static variant over a list
    of bitmaps. *)
Theorem AND_short_circuits_or_intersects (st : State) (c : gmap string ref) :
  cache st = CacheMap c →
  (∀ k r, c !! k = Some r → r < length (heap st)) →
  (∃ r st', AND [] st = (Return r, st')
      ∧ contents st' r = ∅ ∧ resolved st' = resolved st)
  ∧ (∀ pre k rest sets,
      Forall2 (λ k' s, resolves st k' = Some s ∧ s ≠ ∅) pre sets →
      resolves st k = None ∨ resolves st k = Some ∅ →
      ∃ r st' j, AND (pre ++ k :: rest) st = (Return r, st')
        ∧ contents st' r = ∅
        ∧ resolved st' = resolved st ++ take j (pre ++ [k]))
  ∧ (∀ k keys s sets,
      resolves st k = Some s → s ≠ ∅ →
      Forall2 (λ k' s', resolves st k' = Some s' ∧ s' ≠ ∅) keys sets →
      ∃ r st', AND (k :: keys) st = (Return r, st')
        ∧ contents st' r = foldl (∩) s sets)
  ∧ (∃ r st', AND_static [] st = (Return r, st') ∧ contents st' r = ∅)
  ∧ (∀ pre b rest sets,
      Forall (live st) (pre ++ [b]) →
      Forall2 (λ o s, members st o = Some s ∧ s ≠ ∅) pre sets →
      members st b = None ∨ members st b = Some ∅ →
      ∃ r st', AND_static (pre ++ b :: rest) st = (Return r, st')
        ∧ contents st' r = ∅
        ∧ AND_static (pre ++ [b]) st = AND_static (pre ++ b :: rest) st)
  ∧ (∀ b arr s sets,
      Forall (live st) (b :: arr) →
      members st b = Some s → s ≠ ∅ →
      Forall2 (λ o s', members st o = Some s' ∧ s' ≠ ∅) arr sets →
      ∃ r st', AND_static (b :: arr) st = (Return r, st')
        ∧ contents st' r = foldl (∩) s sets).
Proof.
  intros Hc Hlive. repeat split.
  - eexists _, _. split; [reflexivity|]. split; [|done].
    simpl. rewrite contents_alloc. by rewrite decide_True.
  - intros pre k rest sets HR Hk.
    apply Forall2_and_split in HR as [HR Hne].
    destruct (AND_with_short getBitmap st (resolves st) (λ _, True)
                (getBitmap_next st c Hc Hlive) (getBitmap_first st c Hc Hlive)
                pre k rest sets) as (st' & Hand & Hempty & Heq); try done.
    { by apply Forall_true. }
    destruct (AND_loop_resolved c (pre ++ [k]) None st Hc) as [j Hj].
    exists (length (heap st') - 1), st', j. split; [done|]. split; [done|].
    unfold AND in Hand. rewrite <- Heq in Hand.
    unfold AND_with in Hand.
    replace (length (pre ++ [k]) =? 0)%nat with false in Hand.
    + by rewrite Hand in Hj.
    + symmetry. apply Nat.eqb_neq. rewrite length_app; simpl; lia.
  - intros k keys s sets Hk Hs HR.
    apply Forall2_and_split in HR as [HR Hne].
    destruct (AND_with_intersect getBitmap st (resolves st) (λ _, True)
                (getBitmap_next st c Hc Hlive) (getBitmap_first st c Hc Hlive)
                k keys s sets) as (p & st1 & r & st' & _ & Hand & Hr & _); try done.
    { by apply Forall_true. }
    { by constructor. }
    by exists r, st'.
  - eexists _, _. split; [reflexivity|].
    simpl. rewrite contents_alloc. by rewrite decide_True.
  - intros pre b rest sets Hok HR Hb.
    apply Forall2_and_split in HR as [HR Hne].
    destruct (AND_with_short (λ o, mret o) st (members st) (live st)
                (static_next st) (static_first st)
                pre b rest sets) as (st' & Hand & Hempty & Heq); try done.
    by exists (length (heap st') - 1), st'.
  - intros b arr s sets Hok Hb Hs HR.
    apply Forall2_and_split in HR as [HR Hne].
    destruct (AND_with_intersect (λ o, mret o) st (members st) (live st)
                (static_next st) (static_first st)
                b arr s sets) as (p & st1 & r & st' & _ & Hand & Hr & _); try done.
    { by constructor. }
    by exists r, st'.
Qed.

Definition store_w : State :=
  mkState {[ "b" := DbBlob (mkBlob [2; 3]%N) ]} (CacheMap {[ "a" := 0 ]})
          [ {[ 1%N; 2%N ]} ] [].

Lemma store_w_live k r :
  ({[ "a" := 0 ]} : gmap string ref) !! k = Some r → r < length (heap store_w).
Proof. intros [_ <-]%lookup_singleton_Some. simpl. lia. Qed.

Lemma AND_short_circuits_or_intersects_witness :
  cache store_w = CacheMap {[ "a" := 0 ]}
  ∧ (∃ r st' j, AND (["a"] ++ "zz" :: ["b"]) store_w = (Return r, st')
       ∧ contents st' r = ∅
       ∧ resolved st' = resolved store_w ++ take j (["a"] ++ ["zz"])).
Proof.
  split; [reflexivity|].
  destruct (AND_short_circuits_or_intersects store_w {[ "a" := 0 ]} eq_refl store_w_live)
    as (_ & Hshort & _).
  apply (Hshort ["a"] "zz" ["b"] [ {[ 1%N; 2%N ]} ]).
  - constructor; [|constructor]. split; [reflexivity|].
    intros H. apply (f_equal (λ s : bitmap, bool_decide (1%N ∈ s))) in H. vm_compute in H. discriminate.
  - left. reflexivity.
Defined.

(** C9: with two or more keys that resolve to non-empty sets, the object
    obtained for the first key is the one [AND] intersects in place: after
    the call it holds the result of the query, and so does the cache entry
    of the first key when there is one.  Likewise the static variant
    overwrites the first bitmap of its argument. *)
Theorem AND_overwrites_first_bitmap (st : State) (c : gmap string ref) :
  cache st = CacheMap c →
  (∀ k r, c !! k = Some r → r < length (heap st)) →
  (∀ k1 k2 keys s1 s2 sets,
      resolves st k1 = Some s1 → s1 ≠ ∅ →
      resolves st k2 = Some s2 → s2 ≠ ∅ →
      Forall2 (λ k' s', resolves st k' = Some s' ∧ s' ≠ ∅) keys sets →
      ∃ p st1 r st',
        getBitmap k1 st = (Return (Some p), st1)
        ∧ AND (k1 :: k2 :: keys) st = (Return r, st')
        ∧ contents st' r = foldl (∩) s1 (s2 :: sets)
        ∧ contents st' p = foldl (∩) s1 (s2 :: sets)
        ∧ (r = p ∨ foldl (∩) s1 (s2 :: sets) = ∅)
        ∧ (∀ r1, c !! k1 = Some r1 →
             resolves st' k1 = Some (foldl (∩) s1 (s2 :: sets))))
  ∧ (∀ b1 b2 arr s2 sets,
      Forall (live st) (Some b1 :: Some b2 :: arr) →
      contents st b1 ≠ ∅ →
      contents st b2 = s2 → s2 ≠ ∅ →
      Forall2 (λ o s', members st o = Some s' ∧ s' ≠ ∅) arr sets →
      ∃ r st',
        AND_static (Some b1 :: Some b2 :: arr) st = (Return r, st')
        ∧ contents st' r = foldl (∩) (contents st b1) (s2 :: sets)
        ∧ contents st' b1 = foldl (∩) (contents st b1) (s2 :: sets)
        ∧ (r = b1 ∨ foldl (∩) (contents st b1) (s2 :: sets) = ∅)).
Proof.
  intros Hc Hlive. split.
  - intros k1 k2 keys s1 s2 sets H1 Hs1 H2 Hs2 HR.
    apply Forall2_and_split in HR as [HR Hne].
    destruct (AND_with_intersect getBitmap st (resolves st) (λ _, True)
                (getBitmap_next st c Hc Hlive) (getBitmap_first st c Hc Hlive)
                k1 (k2 :: keys) s1 (s2 :: sets))
      as (p & st1 & r & st' & Hg & Hand & Hr & Hp & Hrp & Hdb & Hcache); try done.
    { by apply Forall_true. }
    { by constructor. }
    { by repeat constructor. }
    exists p, st1, r, st'. repeat split; try done.
    intros r1 Hr1. unfold resolves. rewrite Hcache, Hc, Hr1.
    rewrite (getBitmap_spec _ _ _ Hc), Hr1 in Hg.
    injection Hg as <- _. by rewrite Hp.
  - intros b1 b2 arr s2 sets Hok Hs1 H2 Hs2 HR.
    apply Forall2_and_split in HR as [HR Hne].
    destruct (AND_with_intersect (λ o, mret o) st (members st) (live st)
                (static_next st) (static_first st)
                (Some b1) (Some b2 :: arr) (contents st b1) (s2 :: sets))
      as (p & st1 & r & st' & Hg & Hand & Hr & Hp & Hrp & _); try done.
    { constructor; [|done]. unfold members; simpl. by rewrite H2. }
    { by repeat constructor. }
    injection Hg as -> _.
    by exists r, st'.
Qed.

Lemma AND_overwrites_first_bitmap_witness :
  cache store_w = CacheMap {[ "a" := 0 ]}
  ∧ ∃ st', AND ["a"; "b"] store_w = (Return 0, st')
           ∧ contents store_w 0 = {[ 1%N; 2%N ]}
           ∧ contents st' 0 = {[ 1%N; 2%N ]} ∩ list_to_set [2%N; 3%N].
Proof.
  split; [reflexivity|].
  destruct (AND_overwrites_first_bitmap store_w {[ "a" := 0 ]} eq_refl store_w_live)
    as [Hinst _].
  destruct (Hinst "a" "b" [] {[ 1%N; 2%N ]} (list_to_set [2%N; 3%N]) [])
    as (p & st1 & r & st' & Hg & Hand & Hr & Hp & Hrp & _).
  - reflexivity.
  - intros H. apply (f_equal (λ s : bitmap, bool_decide (1%N ∈ s))) in H. vm_compute in H. discriminate.
  - reflexivity.
  - intros H. apply (f_equal (λ s : bitmap, bool_decide (2%N ∈ s))) in H. vm_compute in H. discriminate.
  - constructor.
  - assert (p = 0) as -> by (vm_compute in Hg; congruence).
    destruct Hrp as [->|Hempty].
    + exists st'. split; [done|]. split; [reflexivity|done].
    + exfalso. apply (f_equal (λ s : bitmap, bool_decide (2%N ∈ s))) in Hempty.
      vm_compute in Hempty. discriminate.
Defined.

(** C7, as the code has it: [getBitmap] returns the cached object when
    there is one; otherwise, when the store holds a blob for the key, it
    returns a new object with the deserialized members and leaves the
    cache and the store as they were; and when the key is in neither, it
    returns [null] and changes nothing. *)
Theorem getBitmap_cached_or_loaded (key : string) (st : State) (c : gmap string ref) :
  cache st = CacheMap c →
  (∀ r, c !! key = Some r →
     getBitmap key st = (Return (Some r), log_resolved key st))
  ∧ (∀ b, c !! key = None → db st !! key = Some (DbBlob b) →
       ∃ st', getBitmap key st = (Return (Some (length (heap st))), st')
         ∧ contents st' (length (heap st)) = deserialize b
         ∧ heap st' = heap st ++ [deserialize b]
         ∧ cache st' = cache st ∧ db st' = db st)
  ∧ (c !! key = None → db st !! key = None →
       getBitmap key st = (Return None, log_resolved key st)).
Proof.
  intros Hc. rewrite (getBitmap_spec _ _ _ Hc). repeat split.
  - by intros r ->.
  - intros b -> ->. eexists. split; [done|]. simpl.
    rewrite contents_alloc. simpl. by rewrite decide_True.
  - by intros -> ->.
Qed.

Definition store_k : State :=
  mkState {[ "k" := DbBlob (mkBlob [7%N]) ]} (CacheMap ∅) [] [].

Lemma getBitmap_cached_or_loaded_witness :
  cache store_k = CacheMap ∅
  ∧ ∃ st', getBitmap "k" store_k = (Return (Some 0), st')
      ∧ contents st' 0 = list_to_set [7%N]
      ∧ cache st' = CacheMap ∅.
Proof.
  split; [reflexivity|].
  destruct (getBitmap_cached_or_loaded "k" store_k ∅ eq_refl) as (_ & Hload & _).
  destruct (Hload (mkBlob [7%N]) eq_refl eq_refl) as (st' & Hg & Hcont & _ & Hcache & _).
  exists st'. by repeat split.
Defined.

(** C7 as stated fails: after a bitmap was loaded from the store, the
    cache still has no entry for its key. *)
Lemma getBitmap_does_not_populate_cache :
  (getBitmap "k" store_k).1 = Return (Some 0)
  ∧ contents (getBitmap "k" store_k).2 0 = list_to_set [7%N]
  ∧ ¬ ∃ c r, cache (getBitmap "k" store_k).2 = CacheMap c ∧ c !! "k" = Some r.
Proof.
  split; [reflexivity|]. split; [reflexivity|].
  intros (c & r & Hc & Hr).
  assert (cache (getBitmap "k" store_k).2 = CacheMap ∅) as Hc' by reflexivity.
  rewrite Hc' in Hc. injection Hc as <-.
  by rewrite lookup_empty in Hr.
Qed.

(** [tick] with a key that is in neither the cache nor the store fails
    and creates nothing. *)
Lemma tick_missing_key x key st c :
  cache st = CacheMap c → c !! key = None → db st !! key = None →
  tick x (VStr key) st = (Return TickFalse, log_resolved key st).
Proof.
  intros Hc Hk Hdb. unfold tick. simpl.
  pose proof (getBitmap_spec key st c Hc) as Hg. rewrite Hk, Hdb in Hg.
  by rewrite (bind_return _ _ _ _ _ Hg).
Qed.

(** A successful [tick] has written the bitmap it returns to the store. *)
Lemma tick_writes_through x key st r st' :
  tick x (VStr key) st = (Return (TickBitmap r), st') →
  db st' !! key = Some (DbBlob (serialize (contents st' r))).
Proof.
  unfold tick. simpl. unfold mbind at 1, M_bind at 1.
  destruct (getBitmap key st) as [[[b|]|e] st1]; [|done|done].
  unfold mbind at 1, M_bind at 1.
  destruct (add b x st1) as [[b'|e] st2] eqn:Hadd; [|done].
  unfold saveBitmapToDb, modify, mbind, M_bind, mret, M_ret. simpl.
  intros [= <- <-]. simpl. by rewrite lookup_insert_eq.
Qed.

(** [tickSync] on a missing key: without auto-create it fails and creates
    nothing; with auto-create it starts from an empty set, and with
    implicit save the result is written to the store. *)
Lemma tickSync_missing_key key ids implicitSave st c :
  cache st = CacheMap c → c !! key = None → db st !! key = None →
  tickSync key (VArr ids) false implicitSave st = (Return TickFalse, log_resolved key st)
  ∧ ∃ st', tickSync key (VArr ids) true true st = (Return (TickBitmap (length (heap st))), st')
      ∧ contents st' (length (heap st)) = list_to_set ids
      ∧ db st' !! key = Some (DbBlob (serialize (list_to_set ids))).
Proof.
  intros Hc Hk Hdb.
  pose proof (getBitmap_spec key st c Hc) as Hg. rewrite Hk, Hdb in Hg.
  unfold tickSync. rewrite !(bind_return _ _ _ _ _ Hg). simpl. split; [done|].
  eexists. split; [reflexivity|].
  assert (Hcont : contents
    (set_heap (λ h, <[length (heap st) := contents (set_heap (λ h0, h0 ++ [∅]) (log_resolved key st))
                         (length (heap st)) ∪ list_to_set ids]> h)
       (set_heap (λ h, h ++ [∅]) (log_resolved key st))) (length (heap st)) = list_to_set ids).
  { rewrite contents_store by (simpl; rewrite length_app; simpl; lia).
    rewrite decide_True by done. rewrite contents_alloc. simpl.
    rewrite decide_True by done. by rewrite (left_id_L ∅ (∪)). }
  split.
  - unfold set_db. simpl. exact Hcont.
  - simpl. rewrite lookup_insert_eq. do 3 f_equal. exact Hcont.
Qed.

(** [tickMany] hands each key to [tick] as [idOrArray] and the identifiers
    as [bitmapKey]: whatever the keys and flags, nothing is found under
    the identifiers, every tick fails and the state is unchanged. *)
Lemma tickMany_never_ticks keys ids autoCreate implicitSave st c :
  cache st = CacheMap c → keys ≠ [] →
  tickMany keys (VArr ids) autoCreate implicitSave st
  = (Return (replicate (length keys) TickFalse), st).
Proof.
  intros Hc Hkeys.
  assert (Hmap : ∀ l, mapM (λ key, tick (VStr key) (VArr ids)) l st
                      = (Return (replicate (length l) TickFalse), st)).
  { induction l as [|k l IH]; [done|].
    cbn [mapM length replicate].
    assert (Ht : tick (VStr k) (VArr ids) st = (Return TickFalse, st)).
    { unfold tick, getBitmapJs. unfold mbind, M_bind. by rewrite Hc. }
    rewrite (bind_return _ _ _ _ _ Ht), (bind_return _ _ _ _ _ IH). done. }
  unfold tickMany. destruct keys as [|k keys]; [done|]. apply Hmap.
Qed.

Definition store_empty : State := mkState ∅ (CacheMap ∅) [] [].

(** C4 at the failing input [tickMany(['ctx'], [1000])] on an empty store
    with auto-create enabled: the tick fails, no set is created and
    nothing is persisted, whereas [tickManySync] on the same input
    creates the set at ['ctx'] and persists it. *)
Theorem tickMany_swaps_key_and_ids :
  tickMany ["ctx"] (VArr [1000%N]) true true store_empty = (Return [TickFalse], store_empty)
  ∧ db (tickMany ["ctx"] (VArr [1000%N]) true true store_empty).2 !! "ctx" = None
  ∧ (tickManySync ["ctx"] (VArr [1000%N]) true true store_empty).1 = Return [TickBitmap 0]
  ∧ db (tickManySync ["ctx"] (VArr [1000%N]) true true store_empty).2 !! "ctx"
    = Some (DbBlob (mkBlob [1000%N])).
Proof. repeat split; vm_compute; reflexivity. Qed.

End BitmapManagerFacts.

(** ** IndexD *)
Module IndexDFacts.
Import IndexD.

(** Without a namespace prefix the two lookups agree. *)
Lemma schema_lookups_agree_without_prefix (schema : string) :
  JsString.includes_slash schema = false →
  hasDocumentSchema schema = true ↔ getDocumentSchema schema ≠ None.
Proof.
  intros Hs. unfold hasDocumentSchema, getDocumentSchema. rewrite Hs.
  destruct (DOCUMENT_SCHEMAS schema); split; done.
Qed.

(** A name with a slash is no key of [DOCUMENT_SCHEMAS]: for every
    prefixed name [hasDocumentSchema] answers [false]. *)
Lemma hasDocumentSchema_rejects_prefixed (schema : string) :
  JsString.includes_slash schema = true → hasDocumentSchema schema = false.
Proof.
  intros Hs. unfold hasDocumentSchema, DOCUMENT_SCHEMAS.
  repeat case_decide; subst; try discriminate; try done.
  exfalso. unfold object_prototype_members in *.
  repeat match goal with
         | H : _ ∈ _ :: _ |- _ => apply elem_of_cons in H as [->|H]; [discriminate|]
         | H : _ ∈ [] |- _ => by apply elem_of_nil in H
         end.
Qed.

(** C8 at the failing input ['data/abstr/note']: [getDocumentSchema]
    strips the prefix and finds the note schema, [hasDocumentSchema] looks
    the whole name up and answers [false]. *)
Theorem hasDocumentSchema_keeps_prefix :
  getDocumentSchema "data/abstr/note" = Some (Own NoteSchema)
  ∧ hasDocumentSchema "data/abstr/note" = false
  ∧ hasDocumentSchema "note" = true.
Proof. repeat split; vm_compute; reflexivity. Qed.

(** A bitmap manager whose cache is not a [Map] cannot tick: [tickMany]
    throws, on an empty key list for want of keys and otherwise at the
    first [this.#cache.has], and the store is left as it was. *)
Lemma tickMany_throws_without_cache keys x autoCreate implicitSave st name :
  BitmapManager.cache st = BitmapManager.CacheNotAMap name →
  ∃ e st', BitmapManager.tickMany keys x autoCreate implicitSave st = (Throw e, st')
    ∧ BitmapManager.db st' = BitmapManager.db st.
Proof.
  intros Hc. unfold BitmapManager.tickMany.
  destruct keys as [|k keys]; simpl.
  - by eexists _, _.
  - assert (∃ e st', BitmapManager.getBitmapJs x st = (Throw e, st')
                     ∧ BitmapManager.db st' = BitmapManager.db st)
      as (e & st' & Hg & Hdb).
    { destruct x; simpl; unfold BitmapManager.getBitmap; simpl;
        rewrite Hc; by eexists _, _. }
    exists e, st'. split; [|done].
    apply bind_throw. unfold BitmapManager.tick. by apply bind_throw.
Qed.

Lemma on_manager_tickMany_throws name keys x autoCreate implicitSave st :
  ∃ e, on_manager name (BitmapManager.tickMany keys x autoCreate implicitSave) st
       = (Return (Throw e), st).
Proof.
  unfold on_manager.
  destruct (tickMany_throws_without_cache keys x autoCreate implicitSave
              (BitmapManager.mkState (bitmaps st) (BitmapManager.CacheNotAMap name) [] [])
              name eq_refl) as (e & st' & -> & Hdb).
  exists e. simpl in Hdb. rewrite Hdb. by destruct st.
Qed.

(** The part of C2 that holds: a document whose hash is already mapped
    is handed to [updateDocument] and nothing is written. *)
Lemma insertDocument_known_hash doc contexts features st id :
  hash2oid st !! raw_sha1 doc = Some id → id ≠ 0%N →
  insertDocument doc contexts features st = (Return Updated, st).
Proof.
  intros Hh Hid. unfold insertDocument, validateDocument.
  unfold mbind, M_bind, gets. simpl. rewrite Hh. simpl.
  by apply N.eqb_neq in Hid as ->.
Qed.

(** Whatever the arguments, [insertDocument] leaves [hash2oid] as it
    found it: for an unknown hash the two [tickMany] promises are rejected
    and the [put] that follows the [await] is not reached. *)
Lemma insertDocument_never_records_hash doc contexts features st :
  hash2oid (insertDocument doc contexts features st).2 = hash2oid st.
Proof.
  unfold insertDocument, validateDocument.
  unfold mbind at 1, M_bind at 1. unfold mbind at 1, M_bind at 1. unfold gets.
  destruct (truthy_id _); [done|].
  unfold mbind at 1, M_bind at 1. unfold modify.
  set (st1 := mkState _ _ _).
  set (parsed := mkDocument _ _ _).
  destruct (on_manager_tickMany_throws "contexts" contexts
              (BitmapManager.VNum (doc_id parsed)) true true st1) as [e1 H1].
  rewrite (bind_return _ _ _ _ _ H1).
  destruct (on_manager_tickMany_throws "features" (features ++ extractDocumentFeatures parsed)
              (BitmapManager.VNum (doc_id parsed)) true true st1) as [e2 H2].
  rewrite (bind_return _ _ _ _ _ H2). done.
Qed.

Definition index_empty : State := mkState ∅ ∅ ∅.
Definition doc_a : RawDocument := mkRawDocument (Some 1000%N) "da39a3ee" "first".
Definition doc_b : RawDocument := mkRawDocument (Some 1001%N) "da39a3ee" "second".

(** C2 at the failing input: two documents with the same hash and
    different data, inserted one after the other into an empty index.
    Each call stores its document and is then rejected by [tickMany]; the
    hash is never recorded, so the second call does not find it and the
    index ends up with two documents for the one hash. *)
Theorem insertDocument_same_hash_twice :
  let st1 := (insertDocument doc_a [] [] index_empty).2 in
  let st2 := (insertDocument doc_b [] [] st1).2 in
  (∃ e, (insertDocument doc_a [] [] index_empty).1 = Throw e)
  ∧ hash2oid st1 = ∅
  ∧ (∃ e, (insertDocument doc_b [] [] st1).1 = Throw e)
  ∧ documents st2 !! 1000%N = Some (mkDocument 1000 "da39a3ee" "first")
  ∧ documents st2 !! 1001%N = Some (mkDocument 1001 "da39a3ee" "second")
  ∧ (∃ e, (insertDocument doc_a ["work"] ["tag"] index_empty).1 = Throw e).
Proof.
  cbv zeta. repeat split; try (eexists; vm_compute; reflexivity); vm_compute; reflexivity.
Qed.

(** The keys of the two lookups: the raw hash when no type is given, the
    type, a slash and the hash otherwise. *)
Lemma getDocumentByHash_key hash hashType st :
  getDocumentByHash hash hashType st
  = let key := if JsString.truthy hashType then hashType +:+ "/" +:+ hash else hash in
    match hash2oid st !! key with
    | Some id => if (id =? 0)%N then None else documents st !! id
    | None => None
    end.
Proof.
  unfold getDocumentByHash. simpl.
  destruct (hash2oid st !! _) as [id|]; simpl; [|done].
  by destruct (id =? 0)%N.
Qed.

(** Once the mapping that line 155 writes is in place (the raw hash to
    the identifier), the lookup without a type finds the document and the
    lookup with the type ['sha1'] does not. *)
Lemma raw_key_found_typed_key_not :
  let st := mkState {[ 1000%N := mkDocument 1000 "da39a3ee" "first" ]} ∅
                    {[ "da39a3ee" := 1000%N ]} in
  getDocumentByHash "da39a3ee" "" st = Some (mkDocument 1000 "da39a3ee" "first")
  ∧ getDocumentByHash "da39a3ee" "sha1" st = None.
Proof. split; vm_compute; reflexivity. Qed.

(** C10 at the failing input: after [insertDocument] of a document the
    lookup by its raw hash returns [null], because the call was rejected
    before the mapping was written (the document itself is stored). *)
Theorem inserted_document_not_found_by_hash :
  let st1 := (insertDocument doc_a [] [] index_empty).2 in
  getDocument 1000 st1 = Some (mkDocument 1000 "da39a3ee" "first")
  ∧ getDocumentByHash "da39a3ee" "" st1 = None
  ∧ getDocumentByHash "da39a3ee" "sha1" st1 = None.
Proof. cbv zeta. repeat split; vm_compute; reflexivity. Qed.

End IndexDFacts.

(** ** The context tree *)
Module TreeFacts.
Import Tree.

(** Induction over a node and, with it, over all its descendants. *)
Lemma TreeNode_ind (P : TreeNode → Prop) :
  (∀ id p cs, Forall P cs → P (mkTreeNode id p cs)) → ∀ t, P t.
Proof.
  intros H. fix IH 1. intros [id p cs]. apply H.
  induction cs as [|c cs IHcs]; constructor; [apply IH|apply IHcs].
Qed.

(** *** The registry *)

(** Identifiers handed out by the registry are non-empty and differ from
    the root identifier. *)
Definition layers_ok (L : LayerIndex) : Prop :=
  Forall (λ l, layer_id l ≠ "" ∧ layer_id l ≠ "/") (layer_list L).

(** The registry only grows. *)
Definition extends (L L' : LayerIndex) : Prop :=
  ∃ more, layer_list L' = layer_list L ++ more.

Lemma extends_refl L : extends L L.
Proof. exists []. by rewrite app_nil_r. Qed.

Lemma extends_trans L1 L2 L3 : extends L1 L2 → extends L2 L3 → extends L1 L3.
Proof. intros [m1 H1] [m2 H2]. exists (m1 ++ m2). by rewrite H2, H1, app_assoc. Qed.

Lemma find_app_Some {A} (f : A → bool) l m x :
  List.find f l = Some x → List.find f (l ++ m) = Some x.
Proof.
  induction l as [|a l IH]; simpl; [done|]. destruct (f a); [done|]. apply IH.
Qed.

Lemma find_Some_elem {A} (f : A → bool) l x :
  List.find f l = Some x → x ∈ l ∧ f x = true.
Proof.
  induction l as [|a l IH]; simpl; [done|].
  destruct (f a) eqn:Hf.
  - intros [= ->]. split; [left|done].
  - intros [Hin Hx]%IH. split; [by right|done].
Qed.

Lemma getLayerByID_extends L L' id p :
  extends L L' → getLayerByID L id = Some p → getLayerByID L' id = Some p.
Proof. intros [m Hm]. unfold getLayerByID. rewrite Hm. apply find_app_Some. Qed.

Lemma getLayerByID_id L id p : getLayerByID L id = Some p → layer_id p = id.
Proof.
  intros [_ H]%find_Some_elem. by apply bool_decide_eq_true in H.
Qed.

Lemma getLayerByID_ok L id p :
  layers_ok L → getLayerByID L id = Some p → id ≠ "" ∧ id ≠ "/".
Proof.
  intros Hok H. pose proof (getLayerByID_id _ _ _ H) as <-.
  apply find_Some_elem in H as [Hin _].
  unfold layers_ok in Hok. rewrite Forall_forall in Hok. by apply Hok.
Qed.

Lemma createLayer_extends name L : extends L (createLayer name L).2.
Proof. by eexists. Qed.

Lemma createLayer_ok name L : layers_ok L → layers_ok (createLayer name L).2.
Proof.
  intros Hok. unfold layers_ok, createLayer; simpl.
  apply Forall_app. split; [done|]. constructor; [|constructor]. simpl. split; done.
Qed.

(** *** Well-formed trees *)

(** A node below the root wraps the record the registry has for its
    identifier; the keys of a child map are pairwise distinct. *)
Local Unset Elimination Schemes.
Inductive node_ok (L : LayerIndex) : TreeNode → Prop :=
  | node_ok_intro id p cs :
      getLayerByID L id = Some p →
      NoDup (map node_id cs) →
      Forall (node_ok L) cs →
      node_ok L (mkTreeNode id p cs).
Local Set Elimination Schemes.

Definition shape_ok (L : LayerIndex) (t : TreeNode) : Prop :=
  NoDup (map node_id (children t)) ∧ Forall (node_ok L) (children t).

Definition root_ok (L : LayerIndex) (t : TreeNode) : Prop :=
  node_id t = "/" ∧ payload t = rootLayer ∧ shape_ok L t.

Lemma node_ok_shape L t : node_ok L t → shape_ok L t.
Proof. by intros [id p cs H1 H2 H3]. Qed.

Lemma node_ok_layer L t : node_ok L t → getLayerByID L (node_id t) = Some (payload t).
Proof. by intros [id p cs H1 H2 H3]. Qed.

Lemma node_ok_build L t :
  getLayerByID L (node_id t) = Some (payload t) → shape_ok L t → node_ok L t.
Proof. destruct t as [id p cs]. intros H [H1 H2]. by constructor. Qed.

Lemma node_ok_extends L L' t : extends L L' → node_ok L t → node_ok L' t.
Proof.
  intros Hext. induction t as [id p cs IH] using TreeNode_ind.
  intros Hok. inversion Hok as [? ? ? H1 H2 H3]; subst.
  constructor; [by eapply getLayerByID_extends|done|].
  rewrite Forall_forall in IH, H3. rewrite Forall_forall.
  intros c Hc. by apply IH, H3.
Qed.

Lemma shape_ok_extends L L' t : extends L L' → shape_ok L t → shape_ok L' t.
Proof.
  intros Hext [H1 H2]. split; [done|].
  eapply Forall_impl; [done|]. intros c. by apply node_ok_extends.
Qed.

Lemma root_ok_extends L L' t : extends L L' → root_ok L t → root_ok L' t.
Proof. intros Hext (H1 & H2 & H3). repeat split; try done; by eapply shape_ok_extends. Qed.

(** *** Serialization and reload *)

(** Both branches of the [map] callback of [#buildJsonIndexTree] produce
    the same object for a leaf. *)
Lemma buildJsonIndexTree_eq id p cs :
  buildJsonIndexTree (mkTreeNode id p cs) = mkJson (Some id) None (map buildJsonIndexTree cs).
Proof.
  simpl. f_equal. apply map_ext. intros [i q [|c cs']]; reflexivity.
Qed.

(** The [for] loop of [buildTree] over [nodeData.children]. *)
Definition build_children (autoCreateLayers : bool)
    : list JsonNode → TreeNode → M State TreeNode :=
  fix build_children (cs : list JsonNode) (node : TreeNode) : M State TreeNode :=
    match cs with
    | [] => mret node
    | childData :: cs' =>
        childNode ← buildTree autoCreateLayers childData;
        build_children cs' (addChild node childNode)
    end.

Lemma buildTree_eq autoCreateLayers jid jname jchildren :
  buildTree autoCreateLayers (mkJson jid jname jchildren) =
    (found ← gets (λ st,
       if bool_decide (jid = Some "/") || bool_decide (jname = Some "/") then Some rootLayer
       else jid ≫= getLayerByID (layers st));
     layer ← match found with
             | Some layer => mret layer
             | None =>
                 if negb (JsString.truthy (default "" jname)) || negb autoCreateLayers
                 then throw (Error "Unable to find layer by ID, can not create a tree node")
                 else createLayerM (default "" jname)
             end;
     node ← (if bool_decide (layer_id layer = "/")
             then lift (newTreeNode "/" (Some rootLayer))
             else
               p ← gets (λ st, getLayerByID (layers st) (layer_id layer));
               lift (newTreeNode (layer_id layer) p));
     build_children autoCreateLayers jchildren node).
Proof. reflexivity. Qed.

Lemma hasChild_false n i : hasChild n i = false ↔ i ∉ map node_id (children n).
Proof.
  unfold hasChild, getChild. induction (children n) as [|c cs IH]; simpl.
  - split; [intros _; apply not_elem_of_nil|done].
  - rewrite not_elem_of_cons. destruct (bool_decide (node_id c = i)) eqn:Hc.
    + apply bool_decide_eq_true in Hc. split; [done|]. intros [Hne _]. by destruct Hne.
    + apply bool_decide_eq_false in Hc. rewrite IH. split; [|tauto].
      intros H. split; [congruence|done].
Qed.

Lemma addChild_new id p cs c :
  node_id c ∉ map node_id cs →
  addChild (mkTreeNode id p cs) c = mkTreeNode id p (cs ++ [c]).
Proof.
  intros H. unfold addChild.
  by rewrite (proj2 (hasChild_false (mkTreeNode id p cs) (node_id c)) H).
Qed.

Lemma build_children_round_trip L rest : ∀ done id p st,
  Forall (λ c, ∀ st, layers st = L →
               buildTree true (buildJsonIndexTree c) st = (Return c, st)) rest →
  NoDup (map node_id (done ++ rest)) →
  layers st = L →
  build_children true (map buildJsonIndexTree rest) (mkTreeNode id p done) st
  = (Return (mkTreeNode id p (done ++ rest)), st).
Proof.
  induction rest as [|c rest IH]; intros done id p st Hall Hnd Hst.
  - simpl. by rewrite app_nil_r.
  - apply Forall_cons in Hall as [Hc Hall].
    cbn [map]. unfold build_children; fold (build_children true).
    rewrite (bind_return _ _ _ _ _ (Hc st Hst)).
    rewrite addChild_new.
    + rewrite IH; [by rewrite <- app_assoc|done|by rewrite <- app_assoc|done].
    + rewrite map_app in Hnd. apply NoDup_app in Hnd as (_ & Hdis & Hnd).
      intros Hin. apply (Hdis _ Hin). simpl. left.
Qed.

Lemma node_round_trip L t :
  layers_ok L → node_ok L t →
  ∀ st, layers st = L → buildTree true (buildJsonIndexTree t) st = (Return t, st).
Proof.
  intros HL. induction t as [id p cs IH] using TreeNode_ind.
  intros Hok st Hst. inversion Hok as [? ? ? Hid Hnd Hcs]; subst.
  destruct (getLayerByID_ok _ _ _ HL Hid) as [Hne Hroot].
  pose proof (getLayerByID_id _ _ _ Hid) as Hpid.
  rewrite buildJsonIndexTree_eq, buildTree_eq.
  unfold mbind at 1, M_bind at 1, gets at 1.
  rewrite bool_decide_eq_false_2 by congruence.
  rewrite bool_decide_eq_false_2 by done. cbn [orb mbind option_bind].
  rewrite Hid. unfold mbind at 1, M_bind at 1, mret at 1, M_ret at 1.
  rewrite Hpid. rewrite bool_decide_eq_false_2 by done.
  unfold mbind at 1, M_bind at 1. unfold mbind at 1, M_bind at 1, gets at 1.
  rewrite Hid. unfold lift, newTreeNode.
  destruct id as [|a id']; [done|]. cbn [JsString.truthy negb].
  apply (build_children_round_trip (layers st)); [|done|done].
  rewrite Forall_forall in IH, Hcs. rewrite Forall_forall.
  intros c Hc st' Hst'. apply IH; auto.
Qed.

(** Reloading the compact form of a well-formed tree gives the tree back
    and leaves the registry alone. *)
Lemma root_round_trip st t :
  layers_ok (layers st) → root_ok (layers st) t →
  buildTreeFromJson (Some (buildJsonIndexTree t)) true st = (Return t, st).
Proof.
  intros HL (Hid & Hp & Hnd & Hcs). destruct t as [id p cs]. simpl in Hid, Hp, Hnd, Hcs.
  subst id p. unfold buildTreeFromJson.
  rewrite buildJsonIndexTree_eq, buildTree_eq.
  unfold mbind at 1, M_bind at 1, gets at 1.
  rewrite bool_decide_eq_true_2 by done. cbn [orb].
  unfold mbind at 1, M_bind at 1, mret at 1, M_ret at 1.
  cbn [rootLayer layer_id]. rewrite bool_decide_eq_true_2 by done.
  unfold mbind at 1, M_bind at 1. unfold lift, newTreeNode. simpl JsString.truthy. cbn [negb].
  apply (build_children_round_trip (layers st)); [|done|done].
  eapply Forall_impl; [exact Hcs|]. intros c Hc st' Hst'.
  apply (node_round_trip (layers st)); auto.
Qed.

(** *** Mutations keep trees well formed *)

Lemma addChild_id n c : node_id (addChild n c) = node_id n.
Proof. unfold addChild. by destruct (hasChild n (node_id c)). Qed.

Lemma addChild_payload n c : payload (addChild n c) = payload n.
Proof. unfold addChild. by destruct (hasChild n (node_id c)). Qed.

Lemma addChild_shape L n c : node_ok L c → shape_ok L n → shape_ok L (addChild n c).
Proof.
  intros Hc [Hnd Hcs]. unfold addChild.
  destruct (hasChild n (node_id c)) eqn:Hh; [done|].
  apply hasChild_false in Hh. split; simpl.
  - rewrite map_app. apply NoDup_app. split; [done|]. split.
    + intros x Hx [->|[]%elem_of_nil]%elem_of_cons. exact (Hh Hx).
    + apply NoDup_singleton.
  - apply Forall_app. split; [done|]. by constructor.
Qed.

Lemma filter_ids_subset (i : string) (cs : list TreeNode) x :
  x ∈ map node_id (List.filter (λ c, negb (bool_decide (node_id c = i))) cs) →
  x ∈ map node_id cs.
Proof.
  induction cs as [|c cs IH]; simpl; [done|].
  destruct (negb (bool_decide (node_id c = i))); simpl.
  - intros [->|Hin]%elem_of_cons; [left|right; by apply IH].
  - intros Hin. right. by apply IH.
Qed.

Lemma removeChild_shape L n i : shape_ok L n → shape_ok L (removeChild n i).
Proof.
  destruct n as [id p cs]. intros [Hnd Hcs]. simpl in Hnd, Hcs. split; simpl.
  - clear Hcs. induction cs as [|c cs IH]; simpl; [constructor|].
    simpl in Hnd. apply NoDup_cons in Hnd as [Hc Hnd].
    destruct (negb (bool_decide (node_id c = i))); simpl; [|by apply IH].
    apply NoDup_cons. split; [|by apply IH].
    intros Hin. by apply Hc, (filter_ids_subset i).
  - clear Hnd. induction cs as [|c cs IH]; simpl; [constructor|].
    apply Forall_cons in Hcs as [Hc Hcs].
    destruct (negb (bool_decide (node_id c = i))); [constructor|]; auto.
Qed.

Lemma update_child_ids i g cs :
  (∀ c, node_id (g c) = node_id c) →
  map node_id (update_child i g cs) = map node_id cs.
Proof.
  intros Hg. induction cs as [|c cs IH]; simpl; [done|].
  destruct (bool_decide (node_id c = i)); simpl; [by rewrite Hg|by rewrite IH].
Qed.

Lemma update_child_ok L i g cs :
  (∀ c, node_ok L c → node_ok L (g c)) →
  Forall (node_ok L) cs → Forall (node_ok L) (update_child i g cs).
Proof.
  intros Hg. induction 1 as [|c cs Hc Hcs IH]; simpl; [constructor|].
  destruct (bool_decide (node_id c = i)); constructor; auto.
Qed.

Section modify.
Context (L : LayerIndex) (f : TreeNode → TreeNode).
Hypothesis f_id : ∀ n, node_id (f n) = node_id n.
Hypothesis f_payload : ∀ n, payload (f n) = payload n.
Hypothesis f_shape : ∀ n, shape_ok L n → shape_ok L (f n).

Lemma modify_at_id cursor t : node_id (modify_at cursor f t) = node_id t.
Proof. destruct cursor; simpl; [apply f_id|done]. Qed.

Lemma modify_at_payload cursor t : payload (modify_at cursor f t) = payload t.
Proof. destruct cursor; simpl; [apply f_payload|done]. Qed.

Lemma modify_at_shape cursor : ∀ t, shape_ok L t → shape_ok L (modify_at cursor f t).
Proof.
  induction cursor as [|i rest IH]; intros t Ht; simpl; [by apply f_shape|].
  destruct Ht as [Hnd Hcs]. split; simpl.
  - rewrite update_child_ids; [done|]. intros c. apply modify_at_id.
  - apply update_child_ok; [|done]. intros c Hc.
    apply node_ok_build.
    + rewrite modify_at_id, modify_at_payload. by apply node_ok_layer.
    + by apply IH, node_ok_shape.
Qed.

Lemma modify_at_root cursor t : root_ok L t → root_ok L (modify_at cursor f t).
Proof.
  intros (Hid & Hp & Hs). repeat split.
  - by rewrite modify_at_id.
  - by rewrite modify_at_payload.
  - by apply modify_at_shape.
  - by apply modify_at_shape.
Qed.

End modify.

(** *** The invariant of a tree object *)

Definition index_ok (L : LayerIndex) (idx : option JsonNode) : Prop :=
  match idx with
  | None => True
  | Some j => ∃ t, root_ok L t ∧ j = buildJsonIndexTree t
  end.

(** The registry is sound, the tree is well formed with respect to it, and
    the persisted form, when there is one, is that of a well-formed tree. *)
Definition invariant (st : State) : Prop :=
  layers_ok (layers st) ∧ root_ok (layers st) (root st) ∧ index_ok (layers st) (index st).

Lemma index_ok_extends L L' idx : extends L L' → index_ok L idx → index_ok L' idx.
Proof.
  intros Hext. destruct idx as [j|]; [|done]. intros (t & Ht & ->).
  exists t. split; [by eapply root_ok_extends|done].
Qed.

Lemma invariant_mutate st cursor f :
  (∀ n, node_id (f n) = node_id n) →
  (∀ n, payload (f n) = payload n) →
  (∀ n, shape_ok (layers st) n → shape_ok (layers st) (f n)) →
  invariant st → invariant (set_root (modify_at cursor f (root st)) st).
Proof.
  intros H1 H2 H3 (HL & Hr & Hi). split; [done|]. split; [|done].
  simpl. by apply modify_at_root.
Qed.

Lemma invariant_save st : invariant st → invariant (save st).2.
Proof.
  intros (HL & Hr & Hi). split; [done|]. split; [done|]. simpl. by exists (root st).
Qed.

Lemma invariant_createLayer st name :
  invariant st → invariant (createLayerM name st).2.
Proof.
  intros (HL & Hr & Hi). unfold createLayerM; simpl.
  pose proof (createLayer_extends name (layers st)) as Hext.
  split; [by apply createLayer_ok|]. split.
  - by eapply root_ok_extends.
  - by eapply index_ok_extends.
Qed.

Lemma newTreeNode_ok L id p c :
  getLayerByID L id = p → newTreeNode id p = Return c → node_ok L c.
Proof.
  intros Hp. unfold newTreeNode. destruct (negb (JsString.truthy id)); [done|].
  destruct p as [q|]; [|done]. intros [= <-]. constructor; [done|constructor|constructor].
Qed.

Lemma invariant_insert_loop a names : ∀ cursor st,
  invariant st → invariant (insert_loop a names cursor st).2.
Proof.
  induction names as [|name names IH]; intros cursor st Hinv; [done|].
  cbn [insert_loop]. unfold mbind at 1, M_bind at 1, gets at 1.
  assert (Hlayer : ∀ (layer : Layer) st1, invariant st1 →
    invariant ((child ← gets (λ st, node_at cursor (root st) ≫= λ n, getChild n (layer_id layer));
          _ ← match child with
              | Some _ => mret ()
              | None =>
                  p ← gets (λ st, getLayerByID (layers st) (layer_id layer));
                  c ← lift (newTreeNode (layer_id layer) p);
                  mutate cursor (λ n, addChild n c)
              end;
          insert_loop a names (cursor ++ [layer_id layer])) st1).2).
  { intros layer st1 Hinv1.
    unfold mbind at 1, M_bind at 1, gets at 1.
    destruct (node_at cursor (root st1) ≫= _) as [child|].
    - unfold mbind at 1, M_bind at 1, mret at 1, M_ret at 1. by apply IH.
    - unfold mbind at 1, M_bind at 1. unfold mbind at 1, M_bind at 1, gets at 1.
      unfold mbind at 1, M_bind at 1, lift at 1.
      destruct (newTreeNode _ _) as [c|e] eqn:Hnew; [|done].
      unfold mutate, modify. apply IH.
      apply invariant_mutate; try done.
      + intros n. apply addChild_id.
      + intros n. apply addChild_payload.
      + intros n. apply addChild_shape. by eapply newTreeNode_ok. }
  destruct (getLayerByName (layers st) name) as [l|].
  - unfold mbind at 1, M_bind at 1, mret at 1, M_ret at 1. by apply Hlayer.
  - destruct a.
    + unfold mbind at 1, M_bind at 1. unfold mbind at 1, M_bind at 1.
      pose proof (invariant_createLayer st name Hinv) as Hinv1.
      destruct (createLayerM name st) as [[l|e] st1] eqn:Hcreate.
      * unfold mret at 1, M_ret at 1. by apply Hlayer.
      * done.
    + unfold mbind at 1, M_bind at 1, mret at 1, M_ret at 1. done.
Qed.

Lemma getChild_ok L n i c : shape_ok L n → getChild n i = Some c → node_ok L c.
Proof.
  intros [_ Hcs] [Hin _]%find_Some_elem.
  rewrite Forall_forall in Hcs. by apply Hcs.
Qed.

Lemma node_at_shape L cursor : ∀ t n,
  shape_ok L t → node_at cursor t = Some n → shape_ok L n.
Proof.
  induction cursor as [|i rest IH]; intros t n Ht; simpl.
  - by intros [= <-].
  - destruct (getChild t i) as [c|] eqn:Hc; [|done].
    apply IH. eapply node_ok_shape, getChild_ok; eauto.
Qed.

Lemma invariant_insert path node a st :
  invariant st → invariant (insert path node a st).2.
Proof.
  intros Hinv. unfold insert.
  destruct (bool_decide (path = "/") && bool_decide (node = None)); [done|].
  unfold mbind at 1, M_bind at 1.
  pose proof (invariant_insert_loop a (JsString.segments path) [] st Hinv) as Hinv1.
  destruct (insert_loop a (JsString.segments path) [] st) as [[[cur|]|e] st1]; [|done|done].
  simpl in Hinv1.
  assert (Hend : ∀ st2, invariant st2 → invariant ((_ ← save; mret Undefined) st2).2).
  { intros st2 Hinv2. by apply (invariant_save st2). }
  destruct node as [node|].
  - unfold mbind at 1, M_bind at 1. unfold mbind at 1, M_bind at 1, gets at 1.
    destruct (node_at cur (root st1) ≫= _) as [child|] eqn:Hchild.
    + unfold mutate, modify. apply Hend.
      apply invariant_mutate; try done.
      * intros n. apply addChild_id.
      * intros n. apply addChild_payload.
      * intros n. apply addChild_shape.
        destruct (node_at cur (root st1)) as [n'|] eqn:Hn; [|done]. simpl in Hchild.
        eapply getChild_ok; [|done].
        eapply node_at_shape; [|done]. apply Hinv1.
    + by apply Hend.
  - by apply Hend.
Qed.

(** The loop over the children of a node throws at its first entry. *)
Lemma promote_children_spec parentNode entries st :
  promote_children parentNode entries st =
    match entries with
    | [] => (Return (), st)
    | _ :: _ => (Throw (TypeError "object is not iterable"), st)
    end.
Proof. by destruct entries. Qed.

Lemma invariant_remove path recursive st :
  invariant st → invariant (remove path recursive st).2.
Proof.
  intros Hinv. unfold remove.
  unfold mbind at 1, M_bind at 1, gets at 1.
  destruct (getNode path st) as [[nodeCursor node]|]; [|done].
  unfold mbind at 1, M_bind at 1, gets at 1.
  destruct (getNode (parent_path path) st) as [[parentNode parent]|]; [|done].
  unfold mbind at 1, M_bind at 1.
  assert (Hend : invariant ((_ ← mutate parentNode (λ p, removeChild p (node_id node));
                             _ ← save; mret true) st).2).
  { unfold mutate, modify. apply (invariant_save _).
    apply invariant_mutate; try done. intros n. apply removeChild_shape. }
  destruct (negb recursive && hasChildren node); [|done].
  rewrite promote_children_spec. by destruct (children node).
Qed.

(** [insert] never returns a truthy value. *)
Lemma insert_falsy path node a st :
  match (insert path node a st).1 with
  | Return v => truthy v = false
  | Throw _ => True
  end.
Proof.
  unfold insert.
  destruct (bool_decide (path = "/") && bool_decide (node = None)); [done|].
  unfold mbind at 1, M_bind at 1.
  destruct (insert_loop a (JsString.segments path) [] st) as [[[cur|]|e] st1]; [|done|done].
  destruct node as [node|]; [|done].
  unfold mbind at 1, M_bind at 1. unfold mbind at 1, M_bind at 1, gets at 1.
  by destruct (node_at cur (root st1) ≫= _).
Qed.

Lemma invariant_moveRecursive pathFrom pathTo st :
  invariant st → invariant (moveRecursive pathFrom pathTo st).2.
Proof.
  intros Hinv. unfold moveRecursive.
  unfold mbind at 1, M_bind at 1, gets at 1.
  unfold mbind at 1, M_bind at 1, gets at 1.
  destruct (getNode pathFrom st) as [[nodeCursor node]|]; [|done].
  destruct (JsString.includes pathTo (layer_name (payload node))); [done|].
  unfold mbind at 1, M_bind at 1.
  pose proof (invariant_insert pathTo (Some node) true st Hinv) as Hinv1.
  pose proof (insert_falsy pathTo (Some node) true st) as Hfalsy.
  destruct (insert pathTo (Some node) true st) as [[v|e] st1]; [|done].
  simpl in Hinv1, Hfalsy. by rewrite Hfalsy.
Qed.

Lemma invariant_move pathFrom pathTo recursive st :
  invariant st → invariant (move pathFrom pathTo recursive st).2.
Proof.
  intros Hinv. unfold move.
  destruct recursive; [by apply invariant_moveRecursive|].
  unfold mbind at 1, M_bind at 1, gets at 1.
  destruct (getNode pathFrom st) as [[nodeCursor node]|]; [|done].
  unfold mbind at 1, M_bind at 1, gets at 1.
  destruct (getNode (parent_path pathFrom) st) as [[parentNode parent]|]; [|done].
  unfold mbind at 1, M_bind at 1, lift at 1.
  destruct (newTreeNode _ _) as [targetNode|e]; [|done].
  unfold mbind at 1, M_bind at 1.
  pose proof (invariant_insert pathTo (Some targetNode) true st Hinv) as Hinv1.
  pose proof (insert_falsy pathTo (Some targetNode) true st) as Hfalsy.
  destruct (insert pathTo (Some targetNode) true st) as [[v|e] st1]; [|done].
  simpl in Hinv1, Hfalsy. by rewrite Hfalsy.
Qed.

Lemma invariant_load st : invariant st → invariant (load st).2.
Proof.
  intros Hinv. unfold load, load_json.
  destruct (index st) as [j|] eqn:Hidx; [|done].
  destruct Hinv as (HL & Hr & Hi). rewrite Hidx in Hi. destruct Hi as (t & Ht & ->).
  rewrite (bind_return _ _ _ _ _ (root_round_trip st t HL Ht)).
  simpl. split; [done|]. split; [done|]. simpl. rewrite Hidx. by exists t.
Qed.

Lemma root_ok_fresh L : root_ok L (mkTreeNode "/" rootLayer []).
Proof. split; [done|]. split; [done|]. split; simpl; constructor. Qed.

Lemma invariant_clear st : invariant st → invariant (clear st).2.
Proof.
  intros (HL & Hr & Hi).
  split; [done|]. split; [apply root_ok_fresh|].
  simpl. eexists. split; [apply root_ok_fresh|done].
Qed.

Lemma invariant_construct st : invariant st → invariant (construct (layers st) (index st)).2.
Proof.
  intros (HL & Hr & Hi). unfold construct.
  set (st0 := mkState (layers st) (mkTreeNode "/" rootLayer []) (index st)).
  assert (H0 : invariant st0).
  { split; [done|]. split; [apply root_ok_fresh|done]. }
  pose proof (invariant_load st0 H0) as H1.
  by destruct (load st0) as [[b|e] st'].
Qed.

(** *** Reachable states *)

(** The states a tree object goes through: it is created over a sound
    registry and an index store without a persisted tree, or again over
    the registry and store left by an earlier object, and then driven by
    [insert], [move], [remove], [save], [load] and [clear]. *)
Inductive reachable : State → Prop :=
  | reach_new L :
      layers_ok L → reachable (construct L None).2
  | reach_restart st :
      reachable st → reachable (construct (layers st) (index st)).2
  | reach_insert st path node autoCreateLayers :
      reachable st → reachable (insert path node autoCreateLayers st).2
  | reach_move st pathFrom pathTo recursive :
      reachable st → reachable (move pathFrom pathTo recursive st).2
  | reach_remove st path recursive :
      reachable st → reachable (remove path recursive st).2
  | reach_save st :
      reachable st → reachable (save st).2
  | reach_load st :
      reachable st → reachable (load st).2
  | reach_clear st :
      reachable st → reachable (clear st).2.

Lemma reachable_invariant st : reachable st → invariant st.
Proof.
  induction 1.
  - split; [done|]. split; [apply root_ok_fresh|done].
  - by apply invariant_construct.
  - by apply invariant_insert.
  - by apply invariant_move.
  - by apply invariant_remove.
  - by apply invariant_save.
  - by apply invariant_load.
  - by apply invariant_clear.
Qed.


Definition tree_new : State := (construct (mkLayerIndex [] 0) None).2.

Definition tree_reports : State := (insert "/work/reports" None true tree_new).2.


(** *** Insertion only adds *)

(** [t'] has every node of [t], at the same place. *)
Local Unset Elimination Schemes.
Inductive grows : TreeNode → TreeNode → Prop :=
  | grows_intro t t' :
      node_id t' = node_id t →
      payload t' = payload t →
      (∀ i c, getChild t i = Some c → ∃ c', getChild t' i = Some c' ∧ grows c c') →
      grows t t'.
Local Set Elimination Schemes.

Lemma grows_refl t : grows t t.
Proof.
  induction t as [id p cs IH] using TreeNode_ind.
  constructor; [done|done|]. intros i c Hc. exists c. split; [done|].
  apply find_Some_elem in Hc as [Hin _]. rewrite Forall_forall in IH. by apply IH.
Qed.

Lemma grows_trans t1 : ∀ t2 t3, grows t1 t2 → grows t2 t3 → grows t1 t3.
Proof.
  induction t1 as [id p cs IH] using TreeNode_ind.
  intros t2 t3 H12 H23.
  inversion H12 as [? ? Hid Hp Hc]; subst. inversion H23 as [? ? Hid' Hp' Hc']; subst.
  constructor; [congruence|congruence|].
  intros i c Hi. destruct (Hc i c Hi) as (c2 & Hi2 & Hg2).
  destruct (Hc' i c2 Hi2) as (c3 & Hi3 & Hg3).
  exists c3. split; [done|].
  apply find_Some_elem in Hi as [Hin _]. rewrite Forall_forall in IH.
  by eapply IH.
Qed.

Lemma getChild_app_l n i c extra :
  getChild n i = Some c →
  getChild (mkTreeNode (node_id n) (payload n) (children n ++ extra)) i = Some c.
Proof. unfold getChild. simpl. apply find_app_Some. Qed.

Lemma grows_addChild n c : grows n (addChild n c).
Proof.
  unfold addChild. destruct (hasChild n (node_id c)); [apply grows_refl|].
  constructor; [done|done|]. intros i c0 Hi. exists c0.
  split; [by apply getChild_app_l|apply grows_refl].
Qed.

Lemma getChild_update_child i g cs j id p :
  (∀ c, node_id (g c) = node_id c) →
  getChild (mkTreeNode id p (update_child i g cs)) j
  = if bool_decide (j = i) then g <$> getChild (mkTreeNode id p cs) j
    else getChild (mkTreeNode id p cs) j.
Proof.
  intros Hg. unfold getChild. simpl.
  induction cs as [|c cs IH]; simpl; [by destruct (bool_decide (j = i))|].
  destruct (bool_decide (node_id c = i)) eqn:Hci; simpl.
  - apply bool_decide_eq_true in Hci. rewrite Hg.
    destruct (bool_decide (node_id c = j)) eqn:Hcj.
    + apply bool_decide_eq_true in Hcj.
      rewrite bool_decide_eq_true_2 by congruence. done.
    + apply bool_decide_eq_false in Hcj.
      rewrite bool_decide_eq_false_2 by congruence. done.
  - destruct (bool_decide (node_id c = j)) eqn:Hcj.
    + apply bool_decide_eq_true in Hcj. apply bool_decide_eq_false in Hci.
      rewrite bool_decide_eq_false_2 by congruence. done.
    + apply IH.
Qed.

Lemma grows_modify_at f cursor :
  (∀ n, node_id (f n) = node_id n) →
  (∀ n, payload (f n) = payload n) →
  (∀ n, grows n (f n)) →
  ∀ t, grows t (modify_at cursor f t).
Proof.
  intros Hid Hp Hf. induction cursor as [|i rest IH]; intros t; simpl; [apply Hf|].
  constructor; [done|done|]. intros j c Hj.
  destruct t as [id p cs]. simpl.
  rewrite getChild_update_child by (intros c0; by apply modify_at_id).
  destruct (bool_decide (j = i)).
  - rewrite Hj. simpl. eexists. split; [done|]. apply IH.
  - exists c. split; [done|apply grows_refl].
Qed.

Lemma getLayerByName_extends L L' name l :
  extends L L' → getLayerByName L name = Some l → getLayerByName L' name = Some l.
Proof. intros [m Hm]. unfold getLayerByName. rewrite Hm. apply find_app_Some. Qed.

Lemma getNode_loop_grows L L' names : ∀ cursor t t' c n,
  extends L L' → grows t t' →
  getNode_loop L names cursor t = Some (c, n) →
  ∃ n', getNode_loop L' names cursor t' = Some (c, n') ∧ grows n n'.
Proof.
  induction names as [|name names IH]; intros cursor t t' c n Hext Hg; simpl.
  - intros [= <- <-]. by exists t'.
  - destruct (getLayerByName L name) as [l|] eqn:Hl; [|done].
    rewrite (getLayerByName_extends _ _ _ _ Hext Hl).
    destruct (getChild t (layer_id l)) as [child|] eqn:Hc; [|done].
    inversion Hg as [? ? _ _ Hch]; subst.
    destruct (Hch _ _ Hc) as (child' & -> & Hg').
    by apply IH.
Qed.

(** A state that has everything an earlier one had. *)
Definition grown (st st' : State) : Prop :=
  extends (layers st) (layers st') ∧ grows (root st) (root st').

Lemma grown_refl st : grown st st.
Proof. split; [apply extends_refl|apply grows_refl]. Qed.

Lemma grown_trans st1 st2 st3 : grown st1 st2 → grown st2 st3 → grown st1 st3.
Proof. intros [H1 H2] [H3 H4]. split; [by eapply extends_trans|by eapply grows_trans]. Qed.

Lemma grown_addChild st cursor c :
  grown st (set_root (modify_at cursor (λ n, addChild n c) (root st)) st).
Proof.
  split; [apply extends_refl|]. simpl. apply grows_modify_at.
  - intros n. apply addChild_id.
  - intros n. apply addChild_payload.
  - intros n. apply grows_addChild.
Qed.

Lemma grown_insert_loop a names : ∀ cursor st,
  grown st (insert_loop a names cursor st).2.
Proof.
  induction names as [|name names IH]; intros cursor st; [apply grown_refl|].
  cbn [insert_loop]. unfold mbind at 1, M_bind at 1, gets at 1.
  assert (Hlayer : ∀ (layer : Layer) st1, grown st st1 →
    grown st ((child ← gets (λ st, node_at cursor (root st) ≫= λ n, getChild n (layer_id layer));
          _ ← match child with
              | Some _ => mret ()
              | None =>
                  p ← gets (λ st, getLayerByID (layers st) (layer_id layer));
                  c ← lift (newTreeNode (layer_id layer) p);
                  mutate cursor (λ n, addChild n c)
              end;
          insert_loop a names (cursor ++ [layer_id layer])) st1).2).
  { intros layer st1 Hg1.
    unfold mbind at 1, M_bind at 1, gets at 1.
    destruct (node_at cursor (root st1) ≫= _) as [child|].
    - unfold mbind at 1, M_bind at 1, mret at 1, M_ret at 1.
      eapply grown_trans; [done|apply IH].
    - unfold mbind at 1, M_bind at 1. unfold mbind at 1, M_bind at 1, gets at 1.
      unfold mbind at 1, M_bind at 1, lift at 1.
      destruct (newTreeNode _ _) as [c|e] eqn:Hnew; [|done].
      unfold mutate, modify.
      eapply grown_trans; [done|]. eapply grown_trans; [|apply IH].
      apply grown_addChild. }
  destruct (getLayerByName (layers st) name) as [l|].
  - unfold mbind at 1, M_bind at 1, mret at 1, M_ret at 1. apply Hlayer, grown_refl.
  - destruct a.
    + unfold mbind at 1, M_bind at 1. unfold mbind at 1, M_bind at 1.
      assert (Hc : grown st (createLayerM name st).2).
      { split; [apply createLayer_extends|apply grows_refl]. }
      destruct (createLayerM name st) as [[l|e] st1] eqn:Hcreate; [|done].
      unfold mret at 1, M_ret at 1. by apply Hlayer.
    + apply grown_refl.
Qed.

Lemma grown_insert path node a st : grown st (insert path node a st).2.
Proof.
  unfold insert.
  destruct (bool_decide (path = "/") && bool_decide (node = None)); [apply grown_refl|].
  unfold mbind at 1, M_bind at 1.
  pose proof (grown_insert_loop a (JsString.segments path) [] st) as Hg.
  destruct (insert_loop a (JsString.segments path) [] st) as [[[cur|]|e] st1]; [|done|done].
  simpl in Hg.
  destruct node as [node|]; [|done].
  unfold mbind at 1, M_bind at 1. unfold mbind at 1, M_bind at 1, gets at 1.
  destruct (node_at cur (root st1) ≫= _) as [child|]; [|done].
  unfold mutate, modify. simpl.
  eapply grown_trans; [done|]. apply grown_addChild.
Qed.

Lemma getNode_grown path st st' c n :
  grown st st' → getNode path st = Some (c, n) →
  ∃ n', getNode path st' = Some (c, n') ∧ grows n n'.
Proof.
  intros [Hext Hg]. unfold getNode.
  destruct (bool_decide (path = "/") || negb (JsString.truthy path)).
  - intros [= <- <-]. by eexists.
  - by apply getNode_loop_grows.
Qed.

(** Whatever the tree and the paths, [move] without [recursive] leaves
    every node where it was: the state it ends in only has more layers
    and more nodes than the one it started from. *)
Lemma move_only_grows pathFrom pathTo st :
  grown st (move pathFrom pathTo false st).2.
Proof.
  unfold move.
  unfold mbind at 1, M_bind at 1, gets at 1.
  destruct (getNode pathFrom st) as [[nodeCursor node]|]; [|apply grown_refl].
  unfold mbind at 1, M_bind at 1, gets at 1.
  destruct (getNode (parent_path pathFrom) st) as [[parentNode parent]|]; [|apply grown_refl].
  unfold mbind at 1, M_bind at 1, lift at 1.
  destruct (newTreeNode _ _) as [targetNode|e]; [|apply grown_refl].
  unfold mbind at 1, M_bind at 1.
  pose proof (grown_insert pathTo (Some targetNode) true st) as Hg.
  pose proof (insert_falsy pathTo (Some targetNode) true st) as Hfalsy.
  destruct (insert pathTo (Some targetNode) true st) as [[v|e] st1]; [|done].
  simpl in Hg, Hfalsy. by rewrite Hfalsy.
Qed.

Lemma move_source_still_found pathFrom pathTo st cursor node :
  getNode pathFrom st = Some (cursor, node) →
  ∃ node', getNode pathFrom (move pathFrom pathTo false st).2 = Some (cursor, node')
           ∧ grows node node'.
Proof. intros H. eapply getNode_grown; [apply move_only_grows|done]. Qed.

(** [move] without [recursive] tests the value of [insert], which is never
    truthy: it returns [false], or throws, before it detaches anything. *)
Lemma move_returns_false pathFrom pathTo st :
  match (move pathFrom pathTo false st).1 with
  | Return v => v = Bool false
  | Throw _ => True
  end.
Proof.
  unfold move.
  unfold mbind at 1, M_bind at 1, gets at 1.
  destruct (getNode pathFrom st) as [[nodeCursor node]|]; [|done].
  unfold mbind at 1, M_bind at 1, gets at 1.
  destruct (getNode (parent_path pathFrom) st) as [[parentNode parent]|]; [|done].
  unfold mbind at 1, M_bind at 1, lift at 1.
  destruct (newTreeNode _ _) as [targetNode|e]; [|done].
  unfold mbind at 1, M_bind at 1.
  pose proof (insert_falsy pathTo (Some targetNode) true st) as Hfalsy.
  destruct (insert pathTo (Some targetNode) true st) as [[v|e] st1]; [|done].
  simpl in Hfalsy. by rewrite Hfalsy.
Qed.

(** C1 at the failing input, the scenario of the specification: after
    [insert('/work/reports')], the call [move('/work/reports',
    '/archive/reports', false)] creates the nodes of the target path and
    returns [false]; the source node is still attached, so
    [getNode('/work/reports')] finds it. *)
Theorem move_leaves_source_attached :
  (move "/work/reports" "/archive/reports" false tree_reports).1 = Return (Bool false)
  ∧ getNode "/work/reports" (move "/work/reports" "/archive/reports" false tree_reports).2
    = Some (["layer-0"; "layer-1"], mkTreeNode "layer-1" (mkLayer "layer-1" "reports") [])
  ∧ getNode "/work/reports" (move "/work/reports" "/archive/reports" false tree_reports).2
    = getNode "/work/reports" tree_reports
  ∧ getNode "/archive/reports" (move "/work/reports" "/archive/reports" false tree_reports).2
    = Some (["layer-2"; "layer-1"], mkTreeNode "layer-1" (mkLayer "layer-1" "reports") []).
Proof. repeat split; vm_compute; reflexivity. Qed.

(** [remove] without [recursive] on a node that has children throws when
    it destructures the first child, before anything is re-parented or
    detached: the tree is as it was. *)
Lemma remove_with_children_throws path st nodeCursor node parent :
  getNode path st = Some (nodeCursor, node) →
  getNode (parent_path path) st = Some parent →
  children node ≠ [] →
  remove path false st = (Throw (TypeError "object is not iterable"), st).
Proof.
  intros Hnode Hparent Hcs. unfold remove.
  unfold mbind at 1, M_bind at 1, gets at 1. rewrite Hnode.
  unfold mbind at 1, M_bind at 1, gets at 1. rewrite Hparent. destruct parent as [parentNode p].
  unfold mbind at 1, M_bind at 1.
  unfold hasChildren, isLeaf. destruct (children node) as [|c cs] eqn:Hc; [done|].
  done.
Qed.

(** A node without children, or any node when [recursive] is set, is
    detached from the node found at the parent path, and the tree saved. *)
Lemma remove_detaches path recursive st nodeCursor node parentNode parent :
  getNode path st = Some (nodeCursor, node) →
  getNode (parent_path path) st = Some (parentNode, parent) →
  recursive = true ∨ children node = [] →
  remove path recursive st
  = (Return true,
     (save (set_root (modify_at parentNode (λ p, removeChild p (node_id node)) (root st)) st)).2).
Proof.
  intros Hnode Hparent Hcase. unfold remove.
  unfold mbind at 1, M_bind at 1, gets at 1. rewrite Hnode.
  unfold mbind at 1, M_bind at 1, gets at 1. rewrite Hparent.
  assert (negb recursive && hasChildren node = false) as ->.
  { destruct Hcase as [->|Hc]; [done|].
    unfold hasChildren, isLeaf. rewrite Hc. by destruct recursive. }
  done.
Qed.

(** C6 at the failing input: in the tree holding [/work/reports],
    [remove('/work', false)] throws a [TypeError] and leaves the tree
    unchanged: the child [reports] is not promoted and [work] is not
    detached. *)
Theorem remove_with_children_fails :
  remove "/work" false tree_reports = (Throw (TypeError "object is not iterable"), tree_reports)
  ∧ getNode "/work/reports" tree_reports
    = Some (["layer-0"; "layer-1"], mkTreeNode "layer-1" (mkLayer "layer-1" "reports") [])
  ∧ remove "/work/reports" false tree_reports
    = (Return true,
       mkState (layers tree_reports)
         (mkTreeNode "/" rootLayer [mkTreeNode "layer-0" (mkLayer "layer-0" "work") []])
         (Some (mkJson (Some "/") None [mkJson (Some "layer-0") None []]))).
Proof. repeat split; vm_compute; reflexivity. Qed.

End TreeFacts.

(** * Further properties *)

(** ** BitmapManager.js: mutators, union, removal and renaming *)
Module BitmapManagerMore.
Import Roaring BitmapManager RoaringFacts BitmapManagerFacts.

(** A manager in working order: its cache is a [Map], and the references
    the cache holds are objects of the heap. *)
Definition well_formed (st : State) (c : gmap string ref) : Prop :=
  cache st = CacheMap c ∧ ∀ k r, c !! k = Some r → r < length (heap st).

(** The members a key stands for, the empty set when it stands for none. *)
Definition members_of (st : State) (key : string) : bitmap := default ∅ (resolves st key).

(** What a mutation of the set of [key] into [s'], written through to the
    store, does to the state. *)
Record written (key : string) (s' : bitmap) (c : gmap string ref) (st : State)
    (r : ref) (st' : State) : Prop := mkWritten {
  wr_cache : cache st' = CacheMap c;
  wr_live : r < length (heap st');
  wr_len : length (heap st) ≤ length (heap st');
  wr_contents : contents st' r = s';
  wr_other : ∀ r0, r0 ≠ r → r0 < length (heap st) → contents st' r0 = contents st r0;
  wr_db : db st' = <[key := DbBlob (serialize s')]> (db st);
  wr_ref : c !! key = Some r ∨ (c !! key = None ∧ length (heap st) ≤ r);
  wr_log : resolved st' = resolved st ++ [key]
}.

Lemma written_well_formed key s' c st r st' :
  well_formed st c → written key s' c st r st' → well_formed st' c.
Proof.
  intros [Hc Hlive] W. split; [apply W|].
  intros k r0 Hk. pose proof (Hlive k r0 Hk). pose proof (wr_len _ _ _ _ _ _ W). lia.
Qed.

(** After the write, [key] stands for [s']; another key stands for what it
    stood for, unless it shares the cached object of [key]. *)
Lemma written_resolves key s' c st r st' k :
  well_formed st c → written key s' c st r st' →
  (k = key → resolves st' k = Some s')
  ∧ (resolves st' k = resolves st k
     ∨ (resolves st' k = Some s' ∧ resolves st k = resolves st key)).
Proof.
  intros [Hc Hlive] W.
  assert (Hkey : resolves st' key = Some s').
  { unfold resolves. rewrite (wr_cache _ _ _ _ _ _ W), (wr_db _ _ _ _ _ _ W).
    destruct (wr_ref _ _ _ _ _ _ W) as [Hr|[Hr _]]; rewrite Hr.
    - by rewrite (wr_contents _ _ _ _ _ _ W).
    - by rewrite lookup_insert_eq, deserialize_serialize. }
  destruct (decide (k = key)) as [->|Hne]; [split; [done|by right]|].
  split; [done|].
  unfold resolves. rewrite (wr_cache _ _ _ _ _ _ W), Hc, (wr_db _ _ _ _ _ _ W).
  destruct (c !! k) as [r0|] eqn:Hk.
  - pose proof (Hlive _ _ Hk) as Hr0.
    destruct (decide (r0 = r)) as [->|Hr].
    + destruct (wr_ref _ _ _ _ _ _ W) as [Hkr|[_ Hge]]; [|lia].
      right. rewrite Hkr. by rewrite (wr_contents _ _ _ _ _ _ W).
    + left. by rewrite (wr_other _ _ _ _ _ _ W).
  - left. by rewrite lookup_insert_ne.
Qed.

Lemma getBitmap_cases key st c :
  well_formed st c →
  ∃ o st1, getBitmap key st = (Return o, st1)
    ∧ cache st1 = CacheMap c ∧ db st1 = db st
    ∧ resolved st1 = resolved st ++ [key]
    ∧ length (heap st) ≤ length (heap st1)
    ∧ (∀ r0, r0 < length (heap st) → contents st1 r0 = contents st r0)
    ∧ match o with
      | Some r => resolves st key = Some (contents st1 r) ∧ r < length (heap st1)
                  ∧ (c !! key = Some r ∨ (c !! key = None ∧ r = length (heap st)))
      | None => resolves st key = None ∧ c !! key = None ∧ heap st1 = heap st
      end.
Proof.
  intros [Hc Hlive]. rewrite (getBitmap_spec _ _ _ Hc). unfold resolves. rewrite Hc.
  destruct (c !! key) as [r|] eqn:Hk.
  - eexists _, _. split; [done|]. repeat split; try done; try (by eapply Hlive); by left.
  - destruct (db st !! key) as [[b|]|] eqn:Hdb.
    + eexists _, _. split; [done|]. simpl. repeat split; try done.
      * rewrite length_app; simpl; lia.
      * intros r0 Hr0. rewrite contents_alloc. simpl. by rewrite decide_False by lia.
      * rewrite contents_alloc. simpl. by rewrite decide_True.
      * rewrite length_app; simpl; lia.
      * by right.
    + eexists _, _. split; [done|]. by repeat split.
    + eexists _, _. split; [done|]. by repeat split.
Qed.

(** The identifiers an argument of [addMany] or [removeMany] stands for:
    the elements of an array, or the members of a bitmap of the heap. *)
Definition denotes (st : State) (v : JsVal) (I : bitmap) : Prop :=
  match v with
  | VArr l => I = list_to_set l
  | VBitmap b => b < length (heap st) ∧ I = contents st b
  | VNum _ | VStr _ => False
  end.

(** The same for [tickManySync], which also takes one identifier. *)
Definition denotes1 (st : State) (v : JsVal) (I : bitmap) : Prop :=
  match v with
  | VNum n => I = {[n]}
  | _ => denotes st v I
  end.

Lemma denotes_denotes1 st v I : denotes st v I → denotes1 st v I.
Proof. by destruct v. Qed.

Lemma denotes_later st st1 v I :
  denotes st v I → length (heap st) ≤ length (heap st1) →
  (∀ r0, r0 < length (heap st) → contents st1 r0 = contents st r0) →
  denotes st1 v I.
Proof.
  destruct v as [?|?|?|b]; simpl; try done.
  intros [Hb ->] Hlen Hold. split; [lia|]. by rewrite Hold.
Qed.

(** The state after the object [r] was given the members [v] and saved
    under [key]. *)
Definition put (key : string) (r : ref) (v : bitmap) (st : State) : State :=
  mkState (<[key := DbBlob (serialize v)]> (db st)) (cache st) (<[r := v]> (heap st))
          (resolved st).

Lemma op_save (op : M State ref) key r s st :
  r < length (heap st) →
  op st = (Return r, set_heap (λ h, <[r := s]> h) st) →
  (bitmap ← op; _ ← saveBitmapToDb key bitmap; mret (TickBitmap bitmap)) st
  = (Return (TickBitmap r), put key r s st).
Proof.
  intros Hr Hop. rewrite (bind_return _ _ _ _ _ Hop).
  unfold saveBitmapToDb, modify, mbind, M_bind, mret, M_ret. simpl.
  unfold put, set_db. simpl. do 4 f_equal.
  rewrite contents_store by done. by rewrite decide_True.
Qed.

Lemma addMany_spec r v I st :
  denotes st v I →
  addMany r v st = (Return r, set_heap (λ h, <[r := contents st r ∪ I]> h) st).
Proof. destruct v; simpl; try done; first [by intros ->|by intros [_ ->]]. Qed.


Lemma contents_put key r v st r0 :
  r < length (heap st) →
  contents (put key r v st) r0 = if decide (r0 = r) then v else contents st r0.
Proof. intros Hr. apply (contents_store st r v r0 Hr). Qed.

Lemma written_put key v c st st1 r :
  cache st1 = CacheMap c → db st1 = db st →
  resolved st1 = resolved st ++ [key] →
  length (heap st) ≤ length (heap st1) →
  (∀ r0, r0 < length (heap st) → contents st1 r0 = contents st r0) →
  r < length (heap st1) →
  c !! key = Some r ∨ (c !! key = None ∧ length (heap st) ≤ r) →
  written key v c st r (put key r v st1).
Proof.
  intros Hc Hdb Hlog Hlen Hold Hr Hcase. split; simpl; try done.
  - by rewrite length_insert.
  - rewrite length_insert; lia.
  - rewrite contents_put by done. by rewrite decide_True.
  - intros r0 Hne Hr0. rewrite contents_put by done. rewrite decide_False by done. by apply Hold.
  - by rewrite Hdb.
Qed.

(** A write keeps what an argument stands for, also when the argument is
    the very bitmap that was written. *)
Lemma written_denotes1 key I c st r st' v s :
  well_formed st c → written key s c st r st' →
  s = members_of st key ∪ I ∨ s = members_of st key ∖ I →
  denotes1 st v I → denotes1 st' v I ∨ (v = VBitmap r ∧ c !! key = Some r).
Proof.
  intros [Hc Hlive] W Hs. destruct v as [?|?|?|b]; simpl; try (by left).
  intros [Hb ->]. destruct (decide (b = r)) as [->|Hne].
  - destruct (wr_ref _ _ _ _ _ _ W) as [Hk|[_ Hge]]; [by right|lia].
  - left. split; [pose proof (wr_len _ _ _ _ _ _ W); lia|].
    by rewrite (wr_other _ _ _ _ _ _ W).
Qed.

Lemma written_denotes key I c st r st' v :
  well_formed st c → written key (members_of st key ∪ I) c st r st' →
  denotes1 st v I → denotes1 st' v I.
Proof.
  intros Hwf W Hp. destruct (written_denotes1 key I c st r st' v _ Hwf W (or_introl eq_refl) Hp)
    as [?|[-> Hk]]; [done|].
  destruct Hwf as [Hc Hlive]. simpl in *. destruct Hp as [Hr ->].
  split; [pose proof (wr_len _ _ _ _ _ _ W); lia|].
  rewrite (wr_contents _ _ _ _ _ _ W). unfold members_of, resolves. rewrite Hc, Hk. simpl.
  by rewrite (idemp_L (∪)).
Qed.

(** [tickSync] with auto-create and implicit save: the set of the key
    becomes its former members and the identifiers, in the object returned
    and in the store. *)
Lemma tickSync_written key v I st c :
  well_formed st c → denotes st v I →
  ∃ r st', tickSync key v true true st = (Return (TickBitmap r), st')
    ∧ written key (members_of st key ∪ I) c st r st'.
Proof.
  intros Hwf Hp. destruct (getBitmap_cases key st c Hwf)
    as (o & st1 & Hg & Hc1 & Hdb1 & Hlog1 & Hlen1 & Hold1 & Ho).
  pose proof (denotes_later _ _ _ _ Hp Hlen1 Hold1) as Hp1.
  unfold tickSync. rewrite (bind_return _ _ _ _ _ Hg). unfold members_of.
  destruct o as [r|].
  - destruct Ho as (Hres & Hr & Hcase). rewrite Hres. cbn [default].
    rewrite (op_save _ key r _ st1 Hr (addMany_spec r v I st1 Hp1)).
    eexists _, _. split; [reflexivity|].
    apply written_put; try done.
    destruct Hcase as [?|[? ->]]; [by left|right; split; [done|lia]].
  - destruct Ho as (Hres & Hk & Hheap). rewrite Hres. cbn [default negb].
    rewrite (bind_return _ _ _ _ _ (new_bitmap_spec ∅ st1)).
    assert (Hp2 : denotes (set_heap (λ h, h ++ [∅]) st1) v I).
    { eapply denotes_later; [exact Hp1|simpl; rewrite length_app; simpl; lia|].
      intros r0 Hr0. rewrite contents_alloc. by rewrite decide_False by lia. }
    assert (Hr2 : length (heap st1) < length (heap (set_heap (λ h, h ++ [∅]) st1)))
      by (simpl; rewrite length_app; simpl; lia).
    rewrite (op_save _ key (length (heap st1)) _ _ Hr2 (addMany_spec _ v I _ Hp2)).
    eexists _, _. split; [reflexivity|].
    rewrite contents_alloc, decide_True by done.
    apply written_put; simpl; try done.
    all: try (rewrite length_app; simpl; lia).
    + intros r0 Hr0. rewrite contents_alloc, decide_False by lia. by apply Hold1.
    + right. split; [done|lia].
Qed.




Lemma resolves_ext st st' c :
  cache st = CacheMap c → cache st' = CacheMap c → db st' = db st →
  (∀ k r, c !! k = Some r → contents st' r = contents st r) →
  ∀ k, resolves st' k = resolves st k.
Proof.
  intros Hc Hc' Hdb Hcont k. unfold resolves. rewrite Hc, Hc', Hdb.
  destruct (c !! k) as [r|] eqn:Hk; [|done]. by rewrite (Hcont k r Hk).
Qed.

Definition store_a : State :=
  mkState {[ "k" := DbBlob (mkBlob [7%N]) ]} (CacheMap {[ "a" := 0 ]}) [ {[ 1%N ]} ] [].

Lemma store_a_well_formed : well_formed store_a {[ "a" := 0 ]}.
Proof.
  split; [reflexivity|]. intros k r Hk.
  apply lookup_singleton_Some in Hk as [_ <-]. simpl. lia.
Qed.



(** X2.  Ticking the same identifiers into the same key a second time
    changes neither the store nor what any key stands for. *)
Theorem tickSync_idempotent key v I st c :
  well_formed st c → denotes st v I →
  ∃ r1 st1 r2 st2,
    tickSync key v true true st = (Return (TickBitmap r1), st1)
    ∧ tickSync key v true true st1 = (Return (TickBitmap r2), st2)
    ∧ db st2 = db st1 ∧ cache st2 = cache st1
    ∧ ∀ k, resolves st2 k = resolves st1 k.
Proof.
  intros Hwf Hp. destruct (tickSync_written key v I st c Hwf Hp) as (r1 & st1 & Ht1 & W1).
  pose proof (written_well_formed _ _ _ _ _ _ Hwf W1) as Hwf1.
  assert (Hp1 : denotes st1 v I).
  { destruct v; try done.
    exact (written_denotes key I c st r1 st1 _ Hwf W1 (denotes_denotes1 _ _ _ Hp)). }
  destruct (tickSync_written key v I st1 c Hwf1 Hp1) as (r2 & st2 & Ht2 & W2).
  exists r1, st1, r2, st2. split; [done|]. split; [done|].
  destruct (written_resolves _ _ _ _ _ _ key Hwf W1) as [Hres1 _].
  assert (Hm : members_of st1 key ∪ I = members_of st key ∪ I).
  { unfold members_of at 1. rewrite (Hres1 eq_refl). simpl.
    by rewrite <- (assoc_L (∪)), (idemp_L (∪)). }
  rewrite Hm in W2. split; [|split].
  - rewrite (wr_db _ _ _ _ _ _ W2). apply insert_id.
    rewrite (wr_db _ _ _ _ _ _ W1). by rewrite lookup_insert_eq.
  - by rewrite (wr_cache _ _ _ _ _ _ W2), (wr_cache _ _ _ _ _ _ W1).
  - intros k. destruct (written_resolves _ _ _ _ _ _ k Hwf1 W2) as [_ [Hk|[Hk Hk']]]; [done|].
    by rewrite Hk, Hk', (Hres1 eq_refl).
Qed.

Lemma tickSync_idempotent_witness :
  well_formed store_a {[ "a" := 0 ]} ∧ denotes store_a (VBitmap 0) {[ 1%N ]}
  ∧ ∃ r1 st1 r2 st2,
      tickSync "k" (VBitmap 0) true true store_a = (Return (TickBitmap r1), st1)
      ∧ tickSync "k" (VBitmap 0) true true st1 = (Return (TickBitmap r2), st2)
      ∧ db st2 = db st1.
Proof.
  assert (Hp : denotes store_a (VBitmap 0) {[ 1%N ]}) by (split; [simpl; lia|reflexivity]).
  split; [exact store_a_well_formed|]. split; [exact Hp|].
  destruct (tickSync_idempotent "k" (VBitmap 0) {[ 1%N ]} store_a _ store_a_well_formed Hp)
    as (r1 & st1 & r2 & st2 & H1 & H2 & Hdb & _).
  by exists r1, st1, r2, st2.
Defined.









(** [keyArray.map(key => this.getBitmap(key))] *)
Lemma getBitmap_all c keys : ∀ st,
  well_formed st c →
  ∃ found st', mapM getBitmap keys st = (Return found, st')
    ∧ cache st' = CacheMap c ∧ db st' = db st
    ∧ resolved st' = resolved st ++ keys
    ∧ length (heap st) ≤ length (heap st')
    ∧ (∀ r0, r0 < length (heap st) → contents st' r0 = contents st r0)
    ∧ Forall2 (λ k o, (λ r, contents st' r) <$> o = resolves st k) keys found.
Proof.
  induction keys as [|key keys IH]; intros st Hwf.
  - exists [], st. rewrite app_nil_r. destruct Hwf as [Hc _]. by repeat split.
  - destruct (getBitmap_cases key st c Hwf)
      as (o & st1 & Hg & Hc1 & Hdb1 & Hlog1 & Hlen1 & Hold1 & Ho).
    assert (Hwf1 : well_formed st1 c).
    { split; [done|]. intros k r Hk. destruct Hwf as [_ Hlive].
      pose proof (Hlive k r Hk). lia. }
    destruct (IH st1 Hwf1) as (found & st' & Hm & Hc' & Hdb' & Hlog' & Hlen' & Hold' & Hall).
    exists (o :: found), st'. cbn [mapM].
    rewrite (bind_return _ _ _ _ _ Hg), (bind_return _ _ _ _ _ Hm).
    split; [done|]. split; [done|]. split; [congruence|].
    split; [by rewrite Hlog', Hlog1, <- (assoc_L (++))|].
    split; [lia|]. split; [intros r0 Hr0; rewrite Hold' by lia; by apply Hold1|].
    destruct Hwf as [Hc Hlive]. constructor.
    + destruct o as [r|]; simpl; [|by destruct Ho as [-> _]].
      destruct Ho as (-> & Hr & _). by rewrite Hold'.
    + eapply Forall2_impl; [exact Hall|]. intros k o' ->. simpl.
      apply (resolves_ext _ _ c Hc Hc1 Hdb1).
      intros k' r' Hk'. apply Hold1. by eapply Hlive.
Qed.

Lemma union_valid (st0 st' : State) keys found :
  Forall2 (λ k o, (λ r, contents st' r) <$> o = resolves st0 k) keys found →
  ⋃ (contents st' <$> omap (λ b : option ref, b) found) = ⋃ (members_of st0 <$> keys).
Proof.
  induction 1 as [|k o keys found Hk _ IH]; [done|].
  rewrite fmap_cons, union_list_cons. unfold members_of at 1. rewrite <- Hk, <- IH.
  destruct o as [r|]; simpl; [done|].
  by rewrite (left_id_L ∅ (∪)).
Qed.

(** X6.  [OR] over any key array: the result is a new object holding the
    union of what the keys stand for, keys that stand for nothing
    contributing nothing (for the empty array, or when no key is found,
    the empty set).  Every key is resolved once, in order, and, unlike
    [AND], no existing object and no part of the store or the cache is
    modified. *)
Theorem OR_is_union keys st c :
  well_formed st c →
  ∃ r st', OR keys st = (Return r, st')
    ∧ contents st' r = ⋃ (members_of st <$> keys)
    ∧ length (heap st) ≤ r
    ∧ (∀ r0, r0 < length (heap st) → contents st' r0 = contents st r0)
    ∧ db st' = db st ∧ cache st' = cache st
    ∧ resolved st' = resolved st ++ keys.
Proof.
  intros Hwf. destruct (getBitmap_all c keys st Hwf)
    as (found & st1 & Hm & Hc1 & Hdb1 & Hlog1 & Hlen1 & Hold1 & Hall).
  pose proof (union_valid st st1 keys found Hall) as Hu.
  destruct Hwf as [Hc _].
  unfold OR. rewrite (bind_return _ _ _ _ _ Hm).
  exists (length (heap st1)), (set_heap (λ h, h ++ [⋃ (members_of st <$> keys)]) st1).
  split.
  - destruct (omap (λ b : option ref, b) found) as [|b bs] eqn:Hv.
    + simpl in Hu. by rewrite <- Hu.
    + cbn [length Nat.eqb]. unfold orMany. by rewrite Hu.
  - split; [by rewrite contents_alloc, decide_True|].
    split; [done|]. split; [|by rewrite Hc].
    intros r0 Hr0. rewrite contents_alloc, decide_False by lia. by apply Hold1.
Qed.

Lemma OR_is_union_witness :
  well_formed store_a {[ "a" := 0 ]}
  ∧ ∃ r st', OR ["a"; "none"; "k"] store_a = (Return r, st')
      ∧ contents st' r = ⋃ (members_of store_a <$> ["a"; "none"; "k"])
      ∧ db st' = db store_a.
Proof.
  split; [exact store_a_well_formed|].
  destruct (OR_is_union ["a"; "none"; "k"] store_a _ store_a_well_formed)
    as (r & st' & Ho & Hcont & _ & _ & Hdb & _).
  by exists r, st'.
Defined.

(** X7.  [removeBitmap] answers whether the store had the key.  If it had,
    the key is gone from the store and from the cache, it stands for
    nothing afterwards and [getBitmap] reports not-found, while every
    other key stands for what it stood for; if it had not, nothing is
    changed, not even a cache entry for the key. *)
Theorem removeBitmap_evicts key st c :
  well_formed st c →
  ∃ st', removeBitmap key st = (Return (bool_decide (is_Some (db st !! key))), st')
    ∧ match db st !! key with
      | Some _ =>
          db st' = delete key (db st) ∧ cache st' = CacheMap (delete key c)
          ∧ (∀ k, k ≠ key → resolves st' k = resolves st k)
          ∧ getBitmap key st' = (Return None, log_resolved key st')
      | None => st' = st
      end.
Proof.
  intros [Hc Hlive].
  assert (Hh : hasBitmap key st = (Return (bool_decide (is_Some (db st !! key))), st))
    by reflexivity.
  unfold removeBitmap. rewrite (bind_return _ _ _ _ _ Hh).
  destruct (db st !! key) as [v|] eqn:Hk.
  - rewrite bool_decide_eq_true_2 by done. cbn [negb].
    unfold cache_delete, modify, mbind, M_bind, mret, M_ret. rewrite Hc.
    eexists. split; [reflexivity|]. simpl. repeat split.
    + intros k Hne. unfold resolves. simpl. rewrite Hc.
      by rewrite !lookup_delete_ne.
    + unfold getBitmap. simpl. by rewrite !lookup_delete_eq.
  - rewrite bool_decide_eq_false_2 by (by intros [? ?]). simpl. by eexists.
Qed.

Lemma removeBitmap_evicts_witness :
  well_formed store_a {[ "a" := 0 ]}
  ∧ ∃ st', removeBitmap "k" store_a = (Return true, st') ∧ db st' = delete "k" (db store_a).
Proof.
  split; [exact store_a_well_formed|].
  destruct (removeBitmap_evicts "k" store_a _ store_a_well_formed) as (st' & Hr & Hcase).
  exists st'. split; [exact Hr|]. apply Hcase.
Defined.

(** X8.  [removeBitmapSync] deletes the key from the store only.  For a
    key that is also cached the call answers [true] and [hasBitmap] then
    answers [false], yet [getBitmap] keeps handing out the cached
    object. *)
Theorem removeBitmapSync_keeps_cache_entry key st c r :
  cache st = CacheMap c → c !! key = Some r → is_Some (db st !! key) →
  ∃ st', removeBitmapSync key st = (Return true, st')
    ∧ hasBitmap key st' = (Return false, st')
    ∧ getBitmap key st' = (Return (Some r), log_resolved key st')
    ∧ heap st' = heap st.
Proof.
  intros Hc Hk Hdb.
  assert (Hh : hasBitmap key st = (Return (bool_decide (is_Some (db st !! key))), st))
    by reflexivity.
  unfold removeBitmapSync. rewrite (bind_return _ _ _ _ _ Hh).
  rewrite bool_decide_eq_true_2 by done. cbn [negb].
  unfold hasBitmap, gets, modify, mbind, M_bind, mret, M_ret.
  eexists. split; [reflexivity|]. simpl. repeat split.
  - rewrite lookup_delete_eq. by rewrite bool_decide_eq_false_2 by (by intros [? ?]).
  - unfold getBitmap. simpl. by rewrite Hc, Hk.
Qed.

Definition store_b : State :=
  mkState {[ "a" := DbBlob (mkBlob [1%N]) ]} (CacheMap {[ "a" := 0 ]}) [ {[ 1%N ]} ] [].

Lemma removeBitmapSync_keeps_cache_entry_witness :
  cache store_b = CacheMap {[ "a" := 0 ]}
  ∧ ({[ "a" := 0 ]} : gmap string ref) !! "a" = Some 0
  ∧ is_Some (db store_b !! "a")
  ∧ ∃ st', removeBitmapSync "a" store_b = (Return true, st')
      ∧ getBitmap "a" st' = (Return (Some 0), log_resolved "a" st').
Proof.
  split; [reflexivity|]. split; [reflexivity|]. split; [by eexists|].
  destruct (removeBitmapSync_keeps_cache_entry "a" store_b _ 0 eq_refl eq_refl
              ltac:(by eexists)) as (st' & Hr & _ & Hg & _).
  by exists st'.
Defined.

(** The two ways [createBitmap] ends. *)
Lemma createBitmap_cases key seed st :
  createBitmap key seed st = (Return CreateFalse, st)
  ∨ ∃ e st' l, createBitmap key seed st = (Throw e, st')
      ∧ db st !! key = None
      ∧ cache st' = cache st ∧ resolved st' = resolved st
      ∧ heap st' = heap st ++ l
      ∧ ∀ k, k ≠ key → db st' !! k = db st !! k.
Proof.
  assert (Hh : hasBitmap key st = (Return (bool_decide (is_Some (db st !! key))), st))
    by reflexivity.
  unfold createBitmap. rewrite (bind_return _ _ _ _ _ Hh).
  destruct (db st !! key) as [x|] eqn:Hk.
  { left. by rewrite bool_decide_eq_true_2. }
  rewrite bool_decide_eq_false_2 by (by intros [? ?]).
  destruct seed as [[[|a s]|n|l|b]|]; cbn [falsy_seed].
  - right. eexists _, _, [_; _]. split; [reflexivity|]. simpl.
    rewrite <- (assoc_L (++)). repeat split; try done.
    intros k Hne. by rewrite lookup_insert_ne.
  - by left.
  - destruct (n =? 0)%N.
    + right. eexists _, _, [_; _]. split; [reflexivity|]. simpl.
      rewrite <- (assoc_L (++)). repeat split; try done.
      intros k Hne. by rewrite lookup_insert_ne.
    + by left.
  - right. eexists _, _, [_; _]. split; [reflexivity|]. simpl.
    rewrite <- (assoc_L (++)). repeat split; try done.
    intros k Hne. by rewrite lookup_insert_ne.
  - right. eexists _, _, [_]. split; [reflexivity|]. simpl.
    repeat split; try done.
    intros k Hne. by rewrite lookup_insert_ne.
  - right. eexists _, _, [_; _]. split; [reflexivity|]. simpl.
    rewrite <- (assoc_L (++)). repeat split; try done.
    intros k Hne. by rewrite lookup_insert_ne.
Qed.

(** X9.  [createBitmap] never hands out a bitmap.  For a key the store
    has, and for a seed that is neither absent, an array nor a bitmap, it
    answers [false] and changes nothing; in every other case it throws:
    [#saveBitmapToDb] has no return value, so the test
    [!this.#saveBitmapToDb(key, bitmap)] always takes the error branch. *)
Theorem createBitmap_never_returns_bitmap key seed st :
  (∀ r st', createBitmap key seed st ≠ (Return (CreatedBitmap r), st'))
  ∧ (is_Some (db st !! key) → createBitmap key seed st = (Return CreateFalse, st))
  ∧ (db st !! key = None →
     seed = None ∨ (∃ l, seed = Some (VArr l)) ∨ (∃ b, seed = Some (VBitmap b)) →
     ∃ e st', createBitmap key seed st = (Throw e, st')).
Proof.
  split; [|split].
  - intros r st' Heq.
    destruct (createBitmap_cases key seed st) as [H|(e & st1 & l & H & _)];
      rewrite H in Heq; discriminate.
  - intros Hk.
    assert (Hh : hasBitmap key st = (Return (bool_decide (is_Some (db st !! key))), st))
      by reflexivity.
    unfold createBitmap. rewrite (bind_return _ _ _ _ _ Hh).
    by rewrite bool_decide_eq_true_2.
  - intros Hk Hseed.
    assert (Hh : hasBitmap key st = (Return (bool_decide (is_Some (db st !! key))), st))
      by reflexivity.
    unfold createBitmap. rewrite (bind_return _ _ _ _ _ Hh).
    rewrite bool_decide_eq_false_2 by (rewrite Hk; by intros [? ?]).
    destruct Hseed as [->|[[l ->]|[b ->]]]; by eexists _, _.
Qed.

(** X10.  Neither [renameBitmap] nor [renameBitmapSync] ever renames.  For
    a key that stands for nothing both answer [false]; otherwise both
    throw ([createBitmap] never reports success, and [createBitmapSync]
    does not exist), and in every case the call leaves the key standing
    for what it stood for. *)
Theorem rename_never_renames key newKey st c :
  well_formed st c →
  (∀ st', renameBitmap key newKey st ≠ (Return true, st'))
  ∧ (∀ st', renameBitmapSync key newKey st ≠ (Return true, st'))
  ∧ (resolves st key = None →
     (renameBitmap key newKey st).1 = Return false
     ∧ (renameBitmapSync key newKey st).1 = Return false)
  ∧ (is_Some (resolves st key) →
     (∃ e, (renameBitmap key newKey st).1 = Throw e)
     ∧ (∃ e, (renameBitmapSync key newKey st).1 = Throw e))
  ∧ resolves (renameBitmap key newKey st).2 key = resolves st key
  ∧ resolves (renameBitmapSync key newKey st).2 key = resolves st key.
Proof.
  intros Hwf. destruct (getBitmap_cases key st c Hwf)
    as (o & st1 & Hg & Hc1 & Hdb1 & Hlog1 & Hlen1 & Hold1 & Ho).
  pose proof Hwf as [Hc Hlive].
  assert (Hres1 : ∀ k, resolves st1 k = resolves st k).
  { apply (resolves_ext _ _ c Hc Hc1 Hdb1). intros k r Hk. apply Hold1. by eapply Hlive. }
  unfold renameBitmap, renameBitmapSync. rewrite !(bind_return _ _ _ _ _ Hg).
  destruct o as [b|].
  - destruct Ho as (Hres & Hb & Hcase).
    assert (Hcreate : ∃ e st2,
      (created ← createBitmap newKey (Some (VBitmap b));
       match created with
       | CreateFalse => throw (Error "Unable to create bitmap")
       | CreatedBitmap _ =>
           removed ← removeBitmap key;
           if negb removed then throw (Error "Unable to remove bitmap") else mret true
       end) st1 = (Throw e, st2) ∧ resolves st2 key = resolves st key).
    { destruct (createBitmap_cases newKey (Some (VBitmap b)) st1)
        as [H|(e & st2 & l & H & Hnew & Hc2 & _ & Hheap & Hdb2)].
      - rewrite (bind_return _ _ _ _ _ H). by eexists _, _.
      - rewrite (bind_throw _ _ _ _ _ H). exists e, st2. split; [done|].
        rewrite <- Hres1. unfold resolves. rewrite Hc2, Hc1.
        destruct (c !! key) as [r|] eqn:Hk.
        + pose proof (Hlive _ _ Hk). unfold contents. rewrite Hheap.
          by rewrite lookup_app_l by lia.
        + destruct (decide (key = newKey)) as [->|Hne].
          * destruct Hcase as [?|[_ ->]]; [done|].
            exfalso. unfold resolves in Hres. rewrite Hdb1 in Hnew.
            by rewrite Hc, Hk, Hnew in Hres.
          * by rewrite Hdb2. }
    destruct Hcreate as (e & st2 & -> & Hres2).
    simpl. split; [done|]. split; [done|].
    split; [by rewrite Hres|]. split; [intros _; split; by eexists|].
    split; [exact Hres2|apply Hres1].
  - destruct Ho as (Hres & _). simpl. split; [done|]. split; [done|].
    split; [done|]. split; [rewrite Hres; by intros [? ?]|].
    split; apply Hres1.
Qed.

Lemma rename_never_renames_witness :
  well_formed store_a {[ "a" := 0 ]}
  ∧ (∃ e, (renameBitmap "k" "k2" store_a).1 = Throw e)
  ∧ resolves (renameBitmap "k" "k2" store_a).2 "k" = resolves store_a "k".
Proof.
  split; [exact store_a_well_formed|].
  destruct (rename_never_renames "k" "k2" store_a _ store_a_well_formed)
    as (_ & _ & _ & Hthrow & Hres & _).
  split; [|exact Hres]. apply Hthrow. by eexists.
Defined.

Definition store_nomap : State :=
  mkState {[ "k" := DbBlob (mkBlob [7%N]) ]} (CacheNotAMap "contexts") [] [].

(** X11.  A manager whose cache argument is not a [Map] (the document
    index builds its four managers with a name string in that place)
    cannot look up any key: [getBitmap] throws a [TypeError], and with it
    [tickSync], [untickSync], [AND] and [OR] over a non-empty key array;
    [removeBitmap] of a stored key throws before the store is touched.
    None of these calls changes the store. *)
Theorem lookups_throw_without_map_cache st name :
  cache st = CacheNotAMap name →
  (∀ key, ∃ e, getBitmap key st = (Throw e, log_resolved key st))
  ∧ (∀ key v a s, ∃ e st', tickSync key v a s st = (Throw e, st') ∧ db st' = db st)
  ∧ (∀ key v s, ∃ e st', untickSync key v s st = (Throw e, st') ∧ db st' = db st)
  ∧ (∀ k keys, ∃ e st', AND (k :: keys) st = (Throw e, st') ∧ db st' = db st)
  ∧ (∀ k keys, ∃ e st', OR (k :: keys) st = (Throw e, st') ∧ db st' = db st)
  ∧ (∀ key, is_Some (db st !! key) → ∃ e, removeBitmap key st = (Throw e, st)).
Proof.
  intros Hc.
  assert (Hg : ∀ key, getBitmap key st
    = (Throw (TypeError "this.#cache.has is not a function"), log_resolved key st)).
  { intros key. unfold getBitmap. simpl. by rewrite Hc. }
  split; [intros key; eexists; apply Hg|].
  split; [intros key v a s; eexists _, _; split;
          [unfold tickSync; apply bind_throw, Hg|done]|].
  split; [intros key v s; eexists _, _; split;
          [unfold untickSync; apply bind_throw, Hg|done]|].
  split; [intros k keys; eexists _, _; split;
          [unfold AND, AND_with; cbn [length Nat.eqb AND_loop]; apply bind_throw, Hg|done]|].
  split; [intros k keys; eexists _, _; split;
          [unfold OR; apply bind_throw; cbn [mapM]; apply bind_throw, Hg|done]|].
  intros key Hk.
  assert (Hh : hasBitmap key st = (Return (bool_decide (is_Some (db st !! key))), st))
    by reflexivity.
  unfold removeBitmap. rewrite (bind_return _ _ _ _ _ Hh).
  rewrite bool_decide_eq_true_2 by done. cbn [negb].
  eexists. apply bind_throw. unfold cache_delete. by rewrite Hc.
Qed.

Lemma lookups_throw_without_map_cache_witness :
  cache store_nomap = CacheNotAMap "contexts"
  ∧ ∃ e st', tickSync "k" (VArr [9%N]) true true store_nomap = (Throw e, st')
      ∧ db st' = db store_nomap.
Proof.
  split; [reflexivity|].
  destruct (lookups_throw_without_map_cache store_nomap "contexts" eq_refl)
    as (_ & Htick & _).
  apply Htick.
Defined.

End BitmapManagerMore.

(** ** The context tree: insertion, removal, moving and reloading *)
Module TreeMore.
Import Tree TreeFacts.

(** *** Cursors *)

Lemma node_at_app c d t : node_at (c ++ d) t = node_at c t ≫= node_at d.
Proof.
  revert t. induction c as [|i c IH]; intros t; simpl; [done|].
  destruct (getChild t i) as [ch|]; [apply IH|done].
Qed.

Lemma getChild_id n i c : getChild n i = Some c → node_id c = i.
Proof.
  unfold getChild. intros H. apply find_Some_elem in H as [_ H].
  by apply bool_decide_eq_true in H.
Qed.

Lemma update_child_fix i g cs id p c :
  getChild (mkTreeNode id p cs) i = Some c → g c = c → update_child i g cs = cs.
Proof.
  unfold getChild. simpl. induction cs as [|x cs IH]; [done|]. simpl.
  destruct (bool_decide (node_id x = i)); [by intros [= ->] ->|].
  intros H Hg. by rewrite IH.
Qed.

(** A mutation that leaves the node at the cursor as it is leaves the tree
    as it is. *)
Lemma modify_at_fix f c : ∀ t n, node_at c t = Some n → f n = n → modify_at c f t = t.
Proof.
  induction c as [|i c IH]; intros t n; simpl; [by intros [= ->]|].
  destruct t as [id p cs]. destruct (getChild _ i) as [ch|] eqn:Hch; [|done].
  intros Hn Hf. simpl. f_equal. eapply update_child_fix; [exact Hch|]. by eapply IH.
Qed.

Lemma node_at_modify f c :
  (∀ n, node_id (f n) = node_id n) →
  ∀ t, node_at c (modify_at c f t) = f <$> node_at c t.
Proof.
  intros Hf. induction c as [|i c IH]; intros t; simpl; [done|].
  destruct t as [id p cs]. simpl.
  rewrite getChild_update_child by (intros x; destruct c; simpl; [apply Hf|done]).
  rewrite bool_decide_eq_true_2 by done.
  destruct (getChild _ i) as [ch|]; simpl; [apply IH|done].
Qed.

Lemma getChild_addChild_new n c :
  getChild n (node_id c) = None → getChild (addChild n c) (node_id c) = Some c.
Proof.
  intros Hn. unfold addChild, hasChild. rewrite Hn. unfold getChild in *. simpl.
  induction (children n) as [|x cs IH]; simpl in *.
  - by rewrite bool_decide_eq_true_2.
  - destruct (bool_decide (node_id x = node_id c)); [done|]. by apply IH.
Qed.

Lemma getChild_removeChild n i : getChild (removeChild n i) i = None.
Proof.
  unfold getChild, removeChild. simpl.
  induction (children n) as [|x cs IH]; simpl; [done|].
  destruct (bool_decide (node_id x = i)) eqn:Hx; simpl; [done|]. by rewrite Hx.
Qed.

(** *** The registry *)

Lemma find_is_Some {A} (f : A → bool) l x : x ∈ l → f x = true → is_Some (List.find f l).
Proof.
  induction 1 as [x l|x y l _ IH]; intros Hx; simpl.
  - rewrite Hx. by eexists.
  - destruct (f y); [by eexists|by apply IH].
Qed.

Lemma getLayerByName_known L name l :
  layers_ok L → getLayerByName L name = Some l →
  layer_id l ≠ "" ∧ is_Some (getLayerByID L (layer_id l)).
Proof.
  intros Hok Hl. apply find_Some_elem in Hl as [Hin _]. split.
  - unfold layers_ok in Hok. rewrite Forall_forall in Hok. by destruct (Hok l Hin).
  - eapply find_is_Some; [exact Hin|]. by apply bool_decide_eq_true.
Qed.

Lemma getLayerByName_created L name :
  getLayerByName L name = None →
  getLayerByName (createLayer name L).2 name = Some (createLayer name L).1.
Proof.
  unfold getLayerByName, createLayer. simpl.
  induction (layer_list L) as [|x l IH]; simpl.
  - by rewrite bool_decide_eq_true_2.
  - destruct (bool_decide (layer_name x = name)); [done|]. apply IH.
Qed.

(** The identifiers a list of layer names stands for. *)
Fixpoint ids_of (L : LayerIndex) (names : list string) : option (list string) :=
  match names with
  | [] => Some []
  | name :: rest =>
      l ← getLayerByName L name; ids ← ids_of L rest; Some (layer_id l :: ids)
  end.

Lemma getNode_loop_eq L names : ∀ c0 t,
  getNode_loop L names c0 t = ids ← ids_of L names; n ← node_at ids t; Some (c0 ++ ids, n).
Proof.
  induction names as [|name names IH]; intros c0 t; simpl.
  - by rewrite app_nil_r.
  - destruct (getLayerByName L name) as [l|]; simpl; [|done].
    destruct (getChild t (layer_id l)) as [ch|] eqn:Hch.
    + rewrite IH. destruct (ids_of L names) as [ids|]; simpl; [|done].
      rewrite Hch. by rewrite <- (assoc_L (++)).
    + destruct (ids_of L names) as [ids|]; simpl; [|done]. by rewrite Hch.
Qed.

Lemma getNode_eq path st :
  getNode path st = getNode_loop (layers st) (JsString.segments path) [] (root st).
Proof.
  unfold getNode. destruct (bool_decide (path = "/")) eqn:Hp.
  - apply bool_decide_eq_true in Hp as ->. reflexivity.
  - destruct path; [reflexivity|done].
Qed.

Lemma getNode_ids path st :
  getNode path st
  = ids ← ids_of (layers st) (JsString.segments path); n ← node_at ids (root st); Some (ids, n).
Proof. by rewrite getNode_eq, getNode_loop_eq. Qed.

(** *** [insert] *)

(** One iteration of the loop of [insert], once the layer of the segment
    is at hand. *)
Definition insert_step (a : bool) (rest : list string) (cursor : Cursor) (layer : Layer)
    : M State (option Cursor) :=
  child ← gets (λ st, node_at cursor (root st) ≫= λ n, getChild n (layer_id layer));
  _ ← match child with
      | Some _ => mret ()
      | None =>
          p ← gets (λ st, getLayerByID (layers st) (layer_id layer));
          c ← lift (newTreeNode (layer_id layer) p);
          mutate cursor (λ n, addChild n c)
      end;
  insert_loop a rest (cursor ++ [layer_id layer]).

Lemma insert_loop_cons a name rest cursor st :
  insert_loop a (name :: rest) cursor st =
  match getLayerByName (layers st) name with
  | Some l => insert_step a rest cursor l st
  | None =>
      if a then insert_step a rest cursor (createLayer name (layers st)).1
                  (set_layers (createLayer name (layers st)).2 st)
      else (Return None, st)
  end.
Proof.
  cbn [insert_loop]. unfold mbind at 1, M_bind at 1, gets at 1.
  destruct (getLayerByName (layers st) name) as [l|]; [reflexivity|].
  destruct a; reflexivity.
Qed.

Lemma insert_step_found a rest cursor l st n ch :
  node_at cursor (root st) = Some n → getChild n (layer_id l) = Some ch →
  insert_step a rest cursor l st = insert_loop a rest (cursor ++ [layer_id l]) st.
Proof.
  intros Hn Hch. unfold insert_step. unfold mbind at 1, M_bind at 1, gets at 1.
  rewrite Hn. simpl. by rewrite Hch.
Qed.

Lemma insert_step_new a rest cursor l st n p :
  node_at cursor (root st) = Some n → getChild n (layer_id l) = None →
  getLayerByID (layers st) (layer_id l) = Some p → layer_id l ≠ "" →
  insert_step a rest cursor l st
  = insert_loop a rest (cursor ++ [layer_id l])
      (set_root (modify_at cursor (λ n, addChild n (mkTreeNode (layer_id l) p [])) (root st)) st).
Proof.
  intros Hn Hch Hp Hid. unfold insert_step. unfold mbind at 1, M_bind at 1, gets at 1.
  rewrite Hn. simpl. rewrite Hch.
  unfold mbind at 1, M_bind at 1. unfold mbind at 1, M_bind at 1, gets at 1. rewrite Hp.
  unfold mbind at 1, M_bind at 1, lift at 1, newTreeNode.
  destruct (layer_id l) eqn:Hl; [done|]. reflexivity.
Qed.

Lemma node_at_added cursor t n c :
  node_at cursor t = Some n → getChild n (node_id c) = None →
  node_at (cursor ++ [node_id c]) (modify_at cursor (λ n, addChild n c) t) = Some c.
Proof.
  intros Hn Hc. rewrite node_at_app.
  rewrite node_at_modify by (intros; apply addChild_id). rewrite Hn. simpl.
  by rewrite getChild_addChild_new.
Qed.

(** With auto-create the loop of [insert] ends at a node, and the layer
    names then stand for the identifiers that lead to it. *)
Lemma insert_loop_reaches names : ∀ cursor st n,
  layers_ok (layers st) → node_at cursor (root st) = Some n →
  ∃ ids st', insert_loop true names cursor st = (Return (Some (cursor ++ ids)), st')
    ∧ ids_of (layers st') names = Some ids
    ∧ is_Some (node_at (cursor ++ ids) (root st'))
    ∧ layers_ok (layers st')
    ∧ extends (layers st) (layers st')
    ∧ index st' = index st.
Proof.
  induction names as [|name names IH]; intros cursor st n Hok Hn.
  - exists [], st. rewrite app_nil_r. split; [done|]. split; [done|]. split; [by eexists|].
    split; [done|]. split; [apply extends_refl|done].
  - assert (Hstep : ∀ l sta, root sta = root st → index sta = index st →
      layers_ok (layers sta) → extends (layers st) (layers sta) →
      getLayerByName (layers sta) name = Some l →
      ∃ ids st', insert_step true names cursor l sta = (Return (Some (cursor ++ ids)), st')
        ∧ ids_of (layers st') (name :: names) = Some ids
        ∧ is_Some (node_at (cursor ++ ids) (root st'))
        ∧ layers_ok (layers st')
        ∧ extends (layers st) (layers st')
        ∧ index st' = index st).
    { intros l sta Hroot Hidx Hoka Hexta Hl.
      destruct (getLayerByName_known _ _ _ Hoka Hl) as [Hid [p Hp]].
      rewrite <- Hroot in Hn.
      assert (Hrest : ∀ stb, layers stb = layers sta → index stb = index sta →
        is_Some (node_at (cursor ++ [layer_id l]) (root stb)) →
        ∃ ids st', insert_loop true names (cursor ++ [layer_id l]) stb
                   = (Return (Some (cursor ++ ids)), st')
          ∧ ids_of (layers st') (name :: names) = Some ids
          ∧ is_Some (node_at (cursor ++ ids) (root st'))
          ∧ layers_ok (layers st')
          ∧ extends (layers st) (layers st')
          ∧ index st' = index st).
      { intros stb Hlb Hib [ch Hch].
        destruct (IH (cursor ++ [layer_id l]) stb ch) as
          (ids & st' & Hloop & Hids & Hat & Hok' & Hext' & Hidx'); [by rewrite Hlb|done|].
        exists (layer_id l :: ids), st'.
        rewrite <- (assoc_L (++)) in Hloop, Hat. simpl in Hloop, Hat.
        rewrite Hlb in Hext'.
        split; [done|]. split.
        { simpl. rewrite (getLayerByName_extends _ _ _ _ Hext' Hl). simpl. by rewrite Hids. }
        split; [done|]. split; [done|].
        split; [by eapply extends_trans|congruence]. }
      destruct (getChild n (layer_id l)) as [ch|] eqn:Hch.
      - rewrite (insert_step_found _ _ _ _ _ _ _ Hn Hch). apply Hrest; [done..|].
        rewrite node_at_app, Hn. simpl. rewrite Hch. by eexists.
      - rewrite (insert_step_new _ _ _ _ _ _ _ Hn Hch Hp Hid). apply Hrest; [done..|].
        simpl. change (layer_id l) with (node_id (mkTreeNode (layer_id l) p [])) at 1.
        rewrite (node_at_added _ _ _ _ Hn); [by eexists|done]. }
    rewrite insert_loop_cons.
    destruct (getLayerByName (layers st) name) as [l|] eqn:Hl.
    + by apply Hstep; [..|apply extends_refl|].
    + apply Hstep; simpl; [done|done|by apply createLayer_ok|apply createLayer_extends|].
      by apply getLayerByName_created.
Qed.

Lemma save_eq st : save st = (Return true, set_index (Some (buildJsonIndexTree (root st))) st).
Proof. reflexivity. Qed.

(** [insert] does nothing with the node it is given: the child it looks
    up is re-added under the key it already has. *)
Lemma insert_node_step (node : TreeNode) currentNode st :
  (child ← gets (λ st, node_at currentNode (root st) ≫= λ n, getChild n (node_id node));
   match child with
   | Some child => mutate currentNode (λ n, addChild n child)
   | None => mret ()
   end) st = (Return (), st).
Proof.
  unfold mbind at 1, M_bind at 1, gets at 1.
  destruct (node_at currentNode (root st)) as [n|] eqn:Hn; simpl; [|done].
  destruct (getChild n (node_id node)) as [child|] eqn:Hch; [|done].
  unfold mutate, modify. f_equal.
  rewrite (modify_at_fix _ _ _ n Hn); [by destruct st|].
  unfold addChild, hasChild. by rewrite (getChild_id _ _ _ Hch), Hch.
Qed.

(** What [insert] comes to: the walk along the path, then a [save]. *)
Lemma insert_eq path node a st :
  insert path node a st =
  if bool_decide (path = "/") && bool_decide (node = None) then (Return (Bool false), st)
  else
    match insert_loop a (JsString.segments path) [] st with
    | (Return (Some _), st1) => (Return Undefined, (save st1).2)
    | (Return None, st1) => (Return (Bool false), st1)
    | (Throw e, st1) => (Throw e, st1)
    end.
Proof.
  unfold insert. destruct (bool_decide (path = "/") && bool_decide (node = None)); [done|].
  unfold mbind at 1, M_bind at 1.
  destruct (insert_loop a (JsString.segments path) [] st) as [[[c|]|e] st1]; [|done|done].
  destruct node as [x|].
  - rewrite (bind_return _ _ _ _ _ (insert_node_step x c st1)).
    by rewrite (bind_return _ _ _ _ _ (save_eq st1)).
  - unfold mbind at 1, M_bind at 1, mret at 1, M_ret at 1.
    by rewrite (bind_return _ _ _ _ _ (save_eq st1)).
Qed.

(** Without auto-create the loop of [insert] gives up at the first layer
    name the registry does not know; the registry and the index store are
    as before. *)
Lemma insert_loop_unknown names : ∀ cursor st n name,
  layers_ok (layers st) → node_at cursor (root st) = Some n →
  name ∈ names → getLayerByName (layers st) name = None →
  ∃ st', insert_loop false names cursor st = (Return None, st')
    ∧ layers st' = layers st ∧ index st' = index st.
Proof.
  induction names as [|x names IH]; intros cursor st n name Hok Hn Hin Hname.
  - by apply elem_of_nil in Hin.
  - rewrite insert_loop_cons.
    destruct (getLayerByName (layers st) x) as [l|] eqn:Hl; [|by exists st].
    assert (Hne : name ∈ names).
    { apply elem_of_cons in Hin as [->|?]; [congruence|done]. }
    destruct (getLayerByName_known _ _ _ Hok Hl) as [Hid [p Hp]].
    destruct (getChild n (layer_id l)) as [ch|] eqn:Hch.
    + rewrite (insert_step_found _ _ _ _ _ _ _ Hn Hch).
      eapply IH; [done| |done|done]. rewrite node_at_app, Hn. simpl. by rewrite Hch.
    + rewrite (insert_step_new _ _ _ _ _ _ _ Hn Hch Hp Hid).
      destruct (IH (cursor ++ [layer_id l])
                  (set_root (modify_at cursor (λ n, addChild n (mkTreeNode (layer_id l) p []))
                               (root st)) st)
                  (mkTreeNode (layer_id l) p []) name) as (st' & Hloop & Hl' & Hi');
        [done| |done|done|by exists st'].
      simpl. change (layer_id l) with (node_id (mkTreeNode (layer_id l) p [])) at 1.
      by apply (node_at_added _ _ n).
Qed.

(** X12.  [insert] with auto-create on a tree over a sound registry: for
    any path (except the call [insert('/')] without a node, which is
    rejected) it runs to its end, the tree is saved, and [getNode] of the
    same path now finds a node; every path that resolved before still
    resolves to the same place. *)
Theorem insert_then_getNode path node st :
  layers_ok (layers st) → path ≠ "/" ∨ is_Some node →
  ∃ st' cursor n, insert path node true st = (Return Undefined, st')
    ∧ getNode path st' = Some (cursor, n)
    ∧ index st' = Some (buildJsonIndexTree (root st'))
    ∧ layers_ok (layers st')
    ∧ ∀ q c m, getNode q st = Some (c, m) → ∃ m', getNode q st' = Some (c, m').
Proof.
  intros Hok Hcall.
  pose proof (grown_insert path node true st) as Hgrown.
  destruct (insert_loop_reaches (JsString.segments path) [] st (root st) Hok eq_refl)
    as (ids & st1 & Hloop & Hids & [n Hn] & Hok1 & Hext & Hidx).
  simpl in Hloop, Hn.
  assert (Hins : insert path node true st
                 = (Return Undefined, set_index (Some (buildJsonIndexTree (root st1))) st1)).
  { rewrite insert_eq.
    assert (bool_decide (path = "/") && bool_decide (node = None) = false) as ->.
    { destruct Hcall as [Hp|[x ->]].
      - by rewrite (bool_decide_eq_false_2 _ Hp).
      - rewrite (bool_decide_eq_false_2 (Some x = None)) by done. apply andb_false_r. }
    by rewrite Hloop. }
  rewrite Hins in Hgrown |- *.
  eexists _, ids, n. split; [reflexivity|]. split.
  { rewrite getNode_ids. simpl. rewrite Hids. simpl. by rewrite Hn. }
  split; [done|]. split; [done|].
  intros q c m Hq. destruct (getNode_grown _ _ _ _ _ Hgrown Hq) as (m' & Hm' & _).
  by exists m'.
Qed.

Lemma insert_then_getNode_witness :
  layers_ok (layers tree_new) ∧ ("/work/reports" ≠ "/" ∨ is_Some (@None TreeNode))
  ∧ ∃ st' cursor n, insert "/work/reports" None true tree_new = (Return Undefined, st')
      ∧ getNode "/work/reports" st' = Some (cursor, n).
Proof.
  assert (Hok : layers_ok (layers tree_new)) by constructor.
  assert (Hp : "/work/reports" ≠ "/" ∨ is_Some (@None TreeNode)) by (by left).
  split; [exact Hok|]. split; [exact Hp|].
  destruct (insert_then_getNode "/work/reports" None tree_new Hok Hp)
    as (st' & cursor & n & Hins & Hget & _).
  by exists st', cursor, n.
Defined.

(** X13.  [insert] never attaches the node it is given: after the path
    has been walked, the only use of [node] is to look up a child with its
    identifier and to add that child again under the key it already has.
    The call behaves as the one without the node (for the path ['/'], as a
    plain [save]). *)
Theorem insert_ignores_node path node a st :
  (path ≠ "/" → insert path (Some node) a st = insert path None a st)
  ∧ insert "/" (Some node) a st = (Return Undefined, (save st).2).
Proof.
  split.
  - intros Hp. rewrite !insert_eq. by rewrite (bool_decide_eq_false_2 _ Hp).
  - by rewrite insert_eq.
Qed.

(** X14.  [insert] with [autoCreateLayers = false] and a path one of whose
    segments names no layer: the call answers [false]; the registry and
    the index store are untouched (nothing is saved), while the nodes for
    the known segments walked before the unknown one stay in the tree,
    which has only grown. *)
Theorem insert_without_autocreate path node st name :
  layers_ok (layers st) →
  name ∈ JsString.segments path → getLayerByName (layers st) name = None →
  ∃ st', insert path node false st = (Return (Bool false), st')
    ∧ layers st' = layers st ∧ index st' = index st
    ∧ grows (root st) (root st').
Proof.
  intros Hok Hin Hname.
  pose proof (grown_insert path node false st) as [_ Hgrows].
  destruct (insert_loop_unknown (JsString.segments path) [] st (root st) name Hok eq_refl
              Hin Hname) as (st' & Hloop & Hl & Hi).
  assert (Hins : insert path node false st = (Return (Bool false), st')).
  { rewrite insert_eq.
    assert (bool_decide (path = "/") = false) as ->.
    { apply bool_decide_eq_false_2. intros ->. by apply elem_of_nil in Hin. }
    simpl. by rewrite Hloop. }
  rewrite Hins in Hgrows |- *. by exists st'.
Qed.

Definition tree_work : State := (insert "/work" None true tree_new).2.

Lemma insert_without_autocreate_witness :
  layers_ok (layers tree_work)
  ∧ "reports" ∈ JsString.segments "/work/reports"
  ∧ getLayerByName (layers tree_work) "reports" = None
  ∧ ∃ st', insert "/work/reports" None false tree_work = (Return (Bool false), st')
      ∧ index st' = index tree_work.
Proof.
  assert (Hok : layers_ok (layers tree_work)).
  { repeat constructor; simpl; discriminate. }
  assert (Hin : "reports" ∈ JsString.segments "/work/reports").
  { apply (list_elem_of_lookup_2 _ 1). reflexivity. }
  split; [exact Hok|]. split; [exact Hin|]. split; [reflexivity|].
  destruct (insert_without_autocreate "/work/reports" None tree_work "reports" Hok Hin eq_refl)
    as (st' & Hins & _ & Hi & _).
  by exists st'.
Defined.

(** *** Paths and their parents *)

Lemma split_not_nil s : JsString.split s ≠ [].
Proof.
  induction s as [|a s IH]; simpl; [done|].
  destruct (Ascii.eqb a JsString.slash); [done|]. by destruct (JsString.split s).
Qed.

Lemma split_no_slash s : Forall (λ x, JsString.includes_slash x = false) (JsString.split s).
Proof.
  induction s as [|a s IH]; simpl; [by repeat constructor|].
  destruct (Ascii.eqb a JsString.slash) eqn:Ha; [by constructor|].
  destruct (JsString.split s) as [|h t]; [by repeat constructor; simpl; rewrite Ha|].
  apply Forall_cons in IH as [Hh Ht]. constructor; [|done]. simpl. by rewrite Ha.
Qed.

Lemma split_slash_free x : JsString.includes_slash x = false → JsString.split x = [x].
Proof.
  induction x as [|a x IH]; simpl; [done|].
  destruct (Ascii.eqb a JsString.slash); [done|]. simpl. intros Hx. by rewrite IH.
Qed.

Lemma split_append x s :
  JsString.includes_slash x = false →
  JsString.split (x +:+ String JsString.slash s) = x :: JsString.split s.
Proof.
  induction x as [|a x IH]; simpl.
  - intros _. reflexivity.
  - destruct (Ascii.eqb a JsString.slash); [done|]. simpl. intros Hx. by rewrite IH.
Qed.

Lemma split_join xs :
  xs ≠ [] → Forall (λ x, JsString.includes_slash x = false) xs →
  JsString.split (JsString.join xs) = xs.
Proof.
  induction xs as [|x xs IH]; [done|]. intros _ Hall.
  apply Forall_cons in Hall as [Hx Hxs].
  destruct xs as [|y xs]; [by apply split_slash_free|].
  change (JsString.join (x :: y :: xs)) with (x +:+ String JsString.slash (JsString.join (y :: xs))).
  rewrite split_append by done. by rewrite IH.
Qed.

Lemma Forall_removelast {A} (P : A → Prop) l : Forall P l → Forall P (removelast l).
Proof.
  induction 1 as [|x l Hx Hl IH]; simpl; [constructor|].
  destruct l; [constructor|by constructor].
Qed.

Lemma segments_parent path :
  JsString.segments (parent_path path)
  = filter (λ x, JsString.truthy x = true) (removelast (JsString.split path)).
Proof.
  unfold parent_path, JsString.segments, JsString.slice_init.
  destruct (removelast (JsString.split path)) as [|x xs] eqn:Hr; [done|].
  rewrite split_join; [done|done|].
  rewrite <- Hr. apply Forall_removelast, split_no_slash.
Qed.

(** The segments of a path are those of its parent path, followed by the
    last component when that is not empty. *)
Lemma segments_last path :
  JsString.segments path
  = JsString.segments (parent_path path)
    ++ (if JsString.truthy (JsString.pop (JsString.split path))
        then [JsString.pop (JsString.split path)] else []).
Proof.
  rewrite segments_parent. unfold JsString.segments at 1, JsString.pop.
  rewrite (app_removelast_last "" (split_not_nil path)) at 1.
  rewrite filter_app. f_equal.
  destruct (List.last (JsString.split path) "") eqn:Hl; [done|].
  by rewrite filter_cons_True.
Qed.

Lemma ids_of_app L a b :
  ids_of L (a ++ b) = ia ← ids_of L a; ib ← ids_of L b; Some (ia ++ ib).
Proof.
  induction a as [|x a IH]; simpl; [by destruct (ids_of L b)|].
  destruct (getLayerByName L x) as [l|]; simpl; [|done].
  rewrite IH. destruct (ids_of L a) as [ia|]; simpl; [|done].
  by destruct (ids_of L b).
Qed.

(** A path whose last component is not empty and which resolves: its
    parent path resolves to the node above. *)
Lemma getNode_parent path st c node :
  JsString.pop (JsString.split path) ≠ "" →
  getNode path st = Some (c, node) →
  ∃ pc parent, getNode (parent_path path) st = Some (pc, parent)
    ∧ c = pc ++ [node_id node]
    ∧ getChild parent (node_id node) = Some node.
Proof.
  intros Hlast. rewrite !getNode_ids, (segments_last path).
  destruct (JsString.pop (JsString.split path)) as [|a x] eqn:Hp; [done|]. simpl.
  rewrite ids_of_app. simpl.
  destruct (ids_of (layers st) (JsString.segments (parent_path path))) as [pc|]; [|done].
  simpl. destruct (getLayerByName (layers st) (String a x)) as [l|]; [|done]. simpl.
  rewrite node_at_app.
  destruct (node_at pc (root st)) as [parent|]; [|done]. simpl.
  destruct (getChild parent (layer_id l)) as [ch|] eqn:Hch; [|done].
  intros [= <- <-]. rewrite (getChild_id _ _ _ Hch). by exists pc, parent.
Qed.

(** A path whose last component is empty (['/'], the empty path, a path
    with a trailing slash) is its own parent. *)
Lemma getNode_parent_self path st :
  JsString.pop (JsString.split path) = "" →
  getNode (parent_path path) st = getNode path st.
Proof.
  intros Hlast. rewrite !getNode_ids, (segments_last path), Hlast. simpl.
  by rewrite app_nil_r.
Qed.

(** Detaching the child [i] below the cursor [c] leaves every node in
    place that is not at or below [c ++ [i]]. *)
Lemma node_at_detach i c : ∀ cq t m,
  ¬ (c ++ [i]) `prefix_of` cq →
  node_at cq t = Some m →
  is_Some (node_at cq (modify_at c (λ p, removeChild p i) t)).
Proof.
  induction c as [|k c IH]; intros cq t m Hpre Hm.
  - simpl. destruct cq as [|j d]; [by eexists|]. simpl in *.
    assert (Hj : j ≠ i).
    { intros ->. apply Hpre. by apply prefix_cons, prefix_nil. }
    assert (Hg : getChild (removeChild t i) j = getChild t j).
    { unfold getChild, removeChild. simpl.
      induction (children t) as [|x cs IHc]; simpl; [done|].
      destruct (bool_decide (node_id x = i)) eqn:Hx; simpl.
      - apply bool_decide_eq_true in Hx.
        rewrite (bool_decide_eq_false_2 (node_id x = j)) by congruence. apply IHc.
      - destruct (bool_decide (node_id x = j)); [done|apply IHc]. }
    rewrite Hg. destruct (getChild t j); [by eexists|done].
  - destruct cq as [|j d]; [by eexists|]. destruct t as [id p cs]. simpl in *.
    rewrite getChild_update_child
      by (intros x; destruct c; simpl; done).
    destruct (bool_decide (j = k)) eqn:Hjk.
    + apply bool_decide_eq_true in Hjk as ->.
      destruct (getChild (mkTreeNode id p cs) k) as [ch|]; [|done]. simpl.
      eapply IH; [|exact Hm]. intros Hd. apply Hpre. by apply prefix_cons.
    + destruct (getChild (mkTreeNode id p cs) j) as [ch|]; [|done]. by eexists.
Qed.

Lemma getNode_Some path st c n :
  getNode path st = Some (c, n)
  ↔ ids_of (layers st) (JsString.segments path) = Some c ∧ node_at c (root st) = Some n.
Proof.
  rewrite getNode_ids.
  destruct (ids_of (layers st) (JsString.segments path)) as [ids|]; simpl;
    [|split; [done|by intros [? _]]].
  destruct (node_at ids (root st)) as [m|] eqn:Hm; simpl.
  - split; [by intros [= <- <-]|]. intros [[= <-] Hn]. congruence.
  - split; [done|]. intros [[= <-] Hn]. congruence.
Qed.

(** *** [remove] *)

(** X15.  [remove] of a node without children, or recursively, at a path
    without a trailing slash: the call answers [true], the tree is saved,
    the path no longer resolves, and every node that is neither the
    removed one nor below it is still found at its path. *)
Theorem remove_then_not_found path recursive st c node :
  getNode path st = Some (c, node) →
  JsString.pop (JsString.split path) ≠ "" →
  recursive = true ∨ children node = [] →
  ∃ st', remove path recursive st = (Return true, st')
    ∧ getNode path st' = None
    ∧ index st' = Some (buildJsonIndexTree (root st'))
    ∧ layers st' = layers st
    ∧ ∀ q cq m, getNode q st = Some (cq, m) → ¬ c `prefix_of` cq → is_Some (getNode q st').
Proof.
  intros Hget Hlast Hrec.
  destruct (getNode_parent path st c node Hlast Hget) as (pc & parent & Hparent & -> & Hch).
  rewrite (remove_detaches path recursive st _ node pc parent Hget Hparent Hrec).
  eexists. split; [reflexivity|].
  apply getNode_Some in Hget as [Hids Hnode].
  apply getNode_Some in Hparent as [Hpids Hpnode].
  simpl. split; [|split; [done|split; [done|]]].
  - rewrite getNode_ids. simpl. rewrite Hids. simpl.
    rewrite node_at_app, node_at_modify by done. rewrite Hpnode. simpl.
    by rewrite getChild_removeChild.
  - intros q cq m Hq Hpre. apply getNode_Some in Hq as [Hqids Hqnode].
    destruct (node_at_detach (node_id node) pc cq (root st) m Hpre Hqnode) as [m' Hm'].
    exists (cq, m'). apply getNode_Some. by split.
Qed.

Lemma remove_then_not_found_witness :
  getNode "/work/reports" tree_reports
    = Some (["layer-0"; "layer-1"], mkTreeNode "layer-1" (mkLayer "layer-1" "reports") [])
  ∧ JsString.pop (JsString.split "/work/reports") ≠ ""
  ∧ (false = true ∨ children (mkTreeNode "layer-1" (mkLayer "layer-1" "reports") []) = [])
  ∧ ∃ st', remove "/work/reports" false tree_reports = (Return true, st')
      ∧ getNode "/work/reports" st' = None
      ∧ is_Some (getNode "/work" st').
Proof.
  assert (H1 : getNode "/work/reports" tree_reports
    = Some (["layer-0"; "layer-1"], mkTreeNode "layer-1" (mkLayer "layer-1" "reports") []))
    by reflexivity.
  assert (H2 : JsString.pop (JsString.split "/work/reports") ≠ "") by done.
  assert (H3 : false = true ∨ children (mkTreeNode "layer-1" (mkLayer "layer-1" "reports") []) = [])
    by (by right).
  split; [exact H1|]. split; [exact H2|]. split; [exact H3|].
  destruct (remove_then_not_found "/work/reports" false tree_reports _ _ H1 H2 H3)
    as (st' & Hr & Hnone & _ & _ & Hother).
  exists st'. split; [done|]. split; [done|].
  apply (Hother "/work" ["layer-0"] (mkTreeNode "layer-0" (mkLayer "layer-0" "work")
           [mkTreeNode "layer-1" (mkLayer "layer-1" "reports") []])); [reflexivity|].
  intros [k Hk]. discriminate.
Defined.

(** X16.  [remove] at a path whose last component is empty (['/'], the
    empty path, a path with a trailing slash): the parent path then
    resolves to the node itself, so the call answers [true] without
    detaching anything; the path still resolves to the same place, and
    for a node without children the tree is exactly as before. *)
Theorem remove_trailing_slash path recursive st c node :
  getNode path st = Some (c, node) →
  JsString.pop (JsString.split path) = "" →
  recursive = true ∨ children node = [] →
  ∃ st', remove path recursive st = (Return true, st')
    ∧ (∃ node', getNode path st' = Some (c, node'))
    ∧ (children node = [] → root st' = root st).
Proof.
  intros Hget Hlast Hrec.
  pose proof (getNode_parent_self path st Hlast) as Hparent. rewrite Hget in Hparent.
  rewrite (remove_detaches path recursive st _ node c node Hget Hparent Hrec).
  eexists. split; [reflexivity|].
  apply getNode_Some in Hget as [Hids Hnode]. simpl. split.
  - exists (removeChild node (node_id node)). apply getNode_Some. simpl. split; [done|].
    rewrite node_at_modify by done. by rewrite Hnode.
  - intros Hleaf. apply (modify_at_fix _ _ _ node Hnode).
    destruct node as [id p cs]. simpl in Hleaf. subst cs. reflexivity.
Qed.

Lemma remove_trailing_slash_witness :
  getNode "/work/" tree_reports
    = Some (["layer-0"], mkTreeNode "layer-0" (mkLayer "layer-0" "work")
                           [mkTreeNode "layer-1" (mkLayer "layer-1" "reports") []])
  ∧ JsString.pop (JsString.split "/work/") = ""
  ∧ (true = true ∨ children (mkTreeNode "layer-0" (mkLayer "layer-0" "work")
                               [mkTreeNode "layer-1" (mkLayer "layer-1" "reports") []]) = [])
  ∧ ∃ st', remove "/work/" true tree_reports = (Return true, st')
      ∧ ∃ node', getNode "/work/" st' = Some (["layer-0"], node').
Proof.
  assert (H1 : getNode "/work/" tree_reports
    = Some (["layer-0"], mkTreeNode "layer-0" (mkLayer "layer-0" "work")
                           [mkTreeNode "layer-1" (mkLayer "layer-1" "reports") []]))
    by reflexivity.
  assert (H3 : true = true ∨ children (mkTreeNode "layer-0" (mkLayer "layer-0" "work")
                               [mkTreeNode "layer-1" (mkLayer "layer-1" "reports") []]) = [])
    by (by left).
  split; [exact H1|]. split; [reflexivity|]. split; [exact H3|].
  destruct (remove_trailing_slash "/work/" true tree_reports _ _ H1 eq_refl H3)
    as (st' & Hr & Hstill & _).
  by exists st'.
Defined.

(** *** [moveRecursive] *)

(** X17.  [moveRecursive] over a sound registry never moves anything.  A
    source path that does not resolve makes it throw a [TypeError] (the
    payload of [false] is read); a destination path that contains the
    name of the source layer makes it throw; in both cases the tree is
    untouched.  Otherwise the destination path is created and saved, the
    call answers [false] (the value of [insert] is never truthy), and
    the source node is still found where it was. *)
Theorem moveRecursive_never_moves pathFrom pathTo st :
  layers_ok (layers st) →
  match getNode pathFrom st with
  | None =>
      moveRecursive pathFrom pathTo st
      = (Throw (TypeError "Cannot read properties of undefined (reading 'name')"), st)
  | Some (c, node) =>
      if JsString.includes pathTo (layer_name (payload node))
      then moveRecursive pathFrom pathTo st
           = (Throw (Error "Destination path includes the layer name"), st)
      else ∃ st', moveRecursive pathFrom pathTo st = (Return (Bool false), st')
             ∧ (∃ node', getNode pathFrom st' = Some (c, node') ∧ grows node node')
             ∧ is_Some (getNode pathTo st')
             ∧ index st' = Some (buildJsonIndexTree (root st'))
  end.
Proof.
  intros Hok.
  assert (Heq : moveRecursive pathFrom pathTo st =
    match getNode pathFrom st with
    | None => (Throw (TypeError "Cannot read properties of undefined (reading 'name')"), st)
    | Some (_, node) =>
        if JsString.includes pathTo (layer_name (payload node))
        then (Throw (Error "Destination path includes the layer name"), st)
        else
          (inserted ← insert pathTo (Some node) true;
           if negb (truthy inserted) then mret (Bool false)
           else
             match getNode (parent_path pathFrom) st with
             | None => throw (TypeError "parentNode.removeChild is not a function")
             | Some (parentNode, _) =>
                 _ ← mutate parentNode (λ p, removeChild p (node_id node));
                 _ ← save;
                 mret Undefined
             end) st
    end).
  { unfold moveRecursive.
    unfold mbind at 1, M_bind at 1, gets at 1.
    unfold mbind at 1, M_bind at 1, gets at 1.
    destruct (getNode pathFrom st) as [[c node]|]; [|done].
    by destruct (JsString.includes pathTo (layer_name (payload node))). }
  rewrite Heq. clear Heq.
  destruct (getNode pathFrom st) as [[c node]|] eqn:Hget; [|done].
  destruct (JsString.includes pathTo (layer_name (payload node))); [done|].
  pose proof (grown_insert pathTo (Some node) true st) as Hgrown.
  destruct (insert_loop_reaches (JsString.segments pathTo) [] st (root st) Hok eq_refl)
    as (ids & st1 & Hloop & Hids & [n Hn] & Hok1 & Hext & Hidx).
  simpl in Hloop, Hn.
  assert (Hins : insert pathTo (Some node) true st = (Return Undefined, (save st1).2)).
  { rewrite insert_eq. rewrite (bool_decide_eq_false_2 (Some node = None)) by done.
    rewrite andb_false_r. by rewrite Hloop. }
  rewrite Hins in Hgrown. rewrite (bind_return _ _ _ _ _ Hins). simpl.
  eexists. split; [reflexivity|].
  split; [exact (getNode_grown _ _ _ _ _ Hgrown Hget)|].
  split; [|done].
  exists (ids, n). apply getNode_Some. by split.
Qed.

Lemma moveRecursive_never_moves_witness :
  layers_ok (layers tree_reports)
  ∧ ∃ st', moveRecursive "/work/reports" "/archive" tree_reports = (Return (Bool false), st')
      ∧ (∃ node', getNode "/work/reports" st' = Some (["layer-0"; "layer-1"], node'))
      ∧ is_Some (getNode "/archive" st').
Proof.
  assert (Hok : layers_ok (layers tree_reports)).
  { repeat constructor; simpl; discriminate. }
  split; [exact Hok|].
  pose proof (moveRecursive_never_moves "/work/reports" "/archive" tree_reports Hok) as H.
  assert (Hget : getNode "/work/reports" tree_reports
    = Some (["layer-0"; "layer-1"], mkTreeNode "layer-1" (mkLayer "layer-1" "reports") []))
    by reflexivity.
  rewrite Hget in H.
  assert (Hinc : JsString.includes "/archive"
                   (layer_name (payload (mkTreeNode "layer-1" (mkLayer "layer-1" "reports") [])))
                 = false) by reflexivity.
  rewrite Hinc in H. destruct H as (st' & Hm & (node' & Hsrc & _) & Hdst & _).
  exists st'. split; [done|]. split; [by exists node'|done].
Defined.

(** *** Restart *)

Lemma construct_saved st :
  invariant st → index st = Some (buildJsonIndexTree (root st)) →
  construct (layers st) (index st) = (Return st, st).
Proof.
  intros (HL & Hr & _) Hidx. unfold construct, load, load_json. simpl. rewrite Hidx.
  set (st0 := mkState (layers st) (mkTreeNode "/" rootLayer []) (Some (buildJsonIndexTree (root st)))).
  rewrite (bind_return _ _ _ _ _ (root_round_trip st0 (root st) HL Hr)).
  simpl. unfold set_root, st0. simpl. destruct st as [L t i]. simpl in *. by rewrite Hidx.
Qed.

Lemma remove_true_saved path recursive st st' :
  remove path recursive st = (Return true, st') →
  index st' = Some (buildJsonIndexTree (root st')).
Proof.
  unfold remove. unfold mbind at 1, M_bind at 1, gets at 1.
  destruct (getNode path st) as [[nodeCursor node]|]; [|done].
  unfold mbind at 1, M_bind at 1, gets at 1.
  destruct (getNode (parent_path path) st) as [[parentNode parent]|]; [|done].
  unfold mbind at 1, M_bind at 1.
  destruct (negb recursive && hasChildren node).
  - rewrite promote_children_spec. destruct (children node); [|done].
    by intros [= <-].
  - by intros [= <-].
Qed.

(** X18.  What a reachable tree has committed survives a restart: after an
    [insert] that ran to its end, a [remove] that answered [true], or a
    [clear], a new [Tree] built over the same registry and index store
    loads exactly the tree that was left, with the registry as it was. *)
Theorem committed_tree_survives_restart st :
  reachable st →
  (∀ path node a st', insert path node a st = (Return Undefined, st') →
     construct (layers st') (index st') = (Return st', st'))
  ∧ (∀ path recursive st', remove path recursive st = (Return true, st') →
       construct (layers st') (index st') = (Return st', st'))
  ∧ construct (layers (clear st).2) (index (clear st).2) = (Return (clear st).2, (clear st).2).
Proof.
  intros Hreach. pose proof (reachable_invariant st Hreach) as Hinv. split; [|split].
  - intros path node a st' Hins.
    pose proof (invariant_insert path node a st Hinv) as Hinv'. rewrite Hins in Hinv'.
    apply construct_saved; [done|].
    rewrite insert_eq in Hins.
    destruct (bool_decide (path = "/") && bool_decide (node = None)); [done|].
    destruct (insert_loop a (JsString.segments path) [] st) as [[[c|]|e] st1]; [|done|done].
    by injection Hins as <-.
  - intros path recursive st' Hrem.
    pose proof (invariant_remove path recursive st Hinv) as Hinv'. rewrite Hrem in Hinv'.
    apply construct_saved; [done|]. by eapply remove_true_saved.
  - apply construct_saved; [by apply invariant_clear|done].
Qed.

Lemma committed_tree_survives_restart_witness :
  reachable tree_new
  ∧ construct (layers tree_reports) (index tree_reports) = (Return tree_reports, tree_reports).
Proof.
  assert (Hreach : reachable tree_new) by (apply reach_new; constructor).
  split; [exact Hreach|].
  destruct (committed_tree_survives_restart tree_new Hreach) as (Hins & _ & _).
  apply (Hins "/work/reports" None true). reflexivity.
Defined.

(** *** [load] *)

Lemma JsonNode_ind (P : JsonNode → Prop) :
  (∀ jid jname cs, Forall P cs → P (mkJson jid jname cs)) → ∀ j, P j.
Proof.
  intros H. fix IH 1. intros [jid jname cs]. apply H.
  induction cs as [|c cs IHcs]; constructor; [apply IH|apply IHcs].
Qed.

(** What building a tree from JSON may do to the tree object: nothing to
    its root and its index store; the registry can only gain layers. *)
Definition only_registers (st st' : State) : Prop :=
  root st' = root st ∧ index st' = index st ∧ extends (layers st) (layers st').

Lemma only_registers_refl st : only_registers st st.
Proof. split; [done|]. split; [done|apply extends_refl]. Qed.

Lemma only_registers_bind {A B} (m : M State A) (f : A → M State B) :
  (∀ st, only_registers st (m st).2) →
  (∀ x st, only_registers st (f x st).2) →
  ∀ st, only_registers st ((x ← m; f x) st).2.
Proof.
  intros Hm Hf st. unfold mbind, M_bind.
  pose proof (Hm st) as H1. destruct (m st) as [[x|e] st1]; [|done].
  pose proof (Hf x st1) as H2. simpl in H1.
  destruct H1 as (Hr1 & Hi1 & He1), H2 as (Hr2 & Hi2 & He2).
  split; [congruence|]. split; [congruence|by eapply extends_trans].
Qed.

Lemma buildTree_only_registers a j : ∀ st, only_registers st (buildTree a j st).2.
Proof.
  induction j as [jid jname cs IH] using JsonNode_ind. rewrite buildTree_eq.
  apply only_registers_bind; [intros st; apply only_registers_refl|intros found].
  apply only_registers_bind.
  { intros st. destruct found as [l|]; [apply only_registers_refl|].
    destruct (negb (JsString.truthy (default "" jname)) || negb a);
      [apply only_registers_refl|].
    split; [done|]. split; [done|apply createLayer_extends]. }
  intros layer. apply only_registers_bind.
  { intros st. destruct (bool_decide (layer_id layer = "/")); [apply only_registers_refl|].
    revert st. apply only_registers_bind; intros; apply only_registers_refl. }
  intros node. revert node.
  induction IH as [|c cs Hc _ IHcs]; intros node st; [apply only_registers_refl|].
  change (build_children a (c :: cs) node)
    with (childNode ← buildTree a c; build_children a cs (addChild node childNode)).
  revert st. apply only_registers_bind; [exact Hc|]. intros childNode. apply IHcs.
Qed.

(** X19.  [load] writes nothing but [this.root], and that only at the very
    end: a load that throws (an entry whose identifier the registry does
    not know and that carries no name) leaves the root and the index
    store as they were, while the layers it auto-created on the way stay
    registered. *)
Theorem load_failure_keeps_tree json st e st' :
  load_json json st = (Throw e, st') →
  root st' = root st ∧ index st' = index st ∧ extends (layers st) (layers st').
Proof.
  unfold load_json. destruct json as [j|]; [|done].
  unfold buildTreeFromJson. unfold mbind at 1, M_bind at 1.
  pose proof (buildTree_only_registers true j st) as H.
  destruct (buildTree true j st) as [[t|e1] st1]; [done|].
  by intros [= <- <-].
Qed.

Definition json_unknown : JsonNode :=
  mkJson (Some "/") None [mkJson None (Some "work") []; mkJson (Some "gone") None []].

Lemma load_failure_keeps_tree_witness :
  load_json (Some json_unknown) tree_new
  = (Throw (Error "Unable to find layer by ID, can not create a tree node"),
     set_layers (mkLayerIndex [mkLayer "layer-0" "work"] 1) tree_new)
  ∧ root (set_layers (mkLayerIndex [mkLayer "layer-0" "work"] 1) tree_new) = root tree_new.
Proof.
  assert (H : load_json (Some json_unknown) tree_new
    = (Throw (Error "Unable to find layer by ID, can not create a tree node"),
       set_layers (mkLayerIndex [mkLayer "layer-0" "work"] 1) tree_new)) by reflexivity.
  split; [exact H|].
  by destruct (load_failure_keeps_tree _ _ _ _ H) as (Hr & _ & _).
Defined.

(** *** [insertNode] *)


(** *** [move] *)

Lemma node_at_payload L c : ∀ t n,
  layers_ok L → root_ok L t → node_at c t = Some n → layer_id (payload n) ≠ "".
Proof.
  intros t n HL (Hid & Hp & Hs) Hn.
  destruct c as [|i c]; [injection Hn as <-; by rewrite Hp|].
  assert (Hok : ∀ c t n, shape_ok L t → node_at c t = Some n → c ≠ [] → node_ok L n).
  { clear. induction c as [|i c IH]; intros t n Hs Hn Hne; [done|]. simpl in Hn.
    destruct (getChild t i) as [ch|] eqn:Hch; [|done].
    pose proof (getChild_ok _ _ _ _ Hs Hch) as Hchok.
    destruct c as [|j c]; [by injection Hn as <-|].
    eapply (IH ch); [by apply node_ok_shape|done|done]. }
  pose proof (Hok (i :: c) t n Hs Hn ltac:(done)) as Hnok.
  apply node_ok_layer in Hnok.
  rewrite (getLayerByID_id _ _ _ Hnok).
  by destruct (getLayerByID_ok _ _ _ HL Hnok).
Qed.

(** X21.  [move] without [recursive] on a reachable tree never detaches
    the source: when the source path does not resolve it answers [false]
    and changes nothing; when it does, the nodes of the destination path
    are created and saved, the call answers [false] right after the
    insertion, and the source node is still found where it was, with all
    the children it had. *)
Theorem move_never_detaches pathFrom pathTo st :
  reachable st →
  match getNode pathFrom st with
  | None => move pathFrom pathTo false st = (Return (Bool false), st)
  | Some (c, node) =>
      ∃ st', move pathFrom pathTo false st = (Return (Bool false), st')
        ∧ (∃ node', getNode pathFrom st' = Some (c, node') ∧ grows node node')
        ∧ is_Some (getNode pathTo st')
        ∧ index st' = Some (buildJsonIndexTree (root st'))
  end.
Proof.
  intros Hreach. destruct (reachable_invariant st Hreach) as (Hok & Hroot & _).
  assert (Heq : move pathFrom pathTo false st =
    match getNode pathFrom st with
    | None => (Return (Bool false), st)
    | Some (nodeCursor, node) =>
        match getNode (parent_path pathFrom) st with
        | None => (Return (Bool false), st)
        | Some (parentNode, _) =>
            (targetNode ← lift (newTreeNode (layer_id (payload node)) (Some (payload node)));
             inserted ← insert pathTo (Some targetNode) true;
             if negb (truthy inserted) then mret (Bool false)
             else
               _ ← mutate parentNode (λ p, removeChild p (node_id node));
               now ← gets (λ st, default node (node_at nodeCursor (root st)));
               _ ← (if hasChildren now
                    then promote_children parentNode (children now)
                    else mret ());
               _ ← save;
               mret Undefined) st
        end
    end).
  { unfold move. unfold mbind at 1, M_bind at 1, gets at 1.
    destruct (getNode pathFrom st) as [[c node]|]; [|done].
    unfold mbind at 1, M_bind at 1, gets at 1.
    by destruct (getNode (parent_path pathFrom) st) as [[pc parent]|]. }
  rewrite Heq. clear Heq.
  destruct (getNode pathFrom st) as [[c node]|] eqn:Hget; [|done].
  assert (Hparent : is_Some (getNode (parent_path pathFrom) st)).
  { destruct (decide (JsString.pop (JsString.split pathFrom) = "")) as [Hl|Hl].
    - rewrite (getNode_parent_self _ _ Hl), Hget. by eexists.
    - destruct (getNode_parent _ _ _ _ Hl Hget) as (pc & parent & -> & _). by eexists. }
  destruct Hparent as [[pc parent] ->].
  pose proof Hget as Hget'. apply getNode_Some in Hget' as [_ Hnode].
  pose proof (node_at_payload _ _ _ _ Hok Hroot Hnode) as Hid.
  assert (Hnew : newTreeNode (layer_id (payload node)) (Some (payload node))
                 = Return (mkTreeNode (layer_id (payload node)) (payload node) [])).
  { unfold newTreeNode. by destruct (layer_id (payload node)). }
  unfold mbind at 1, M_bind at 1, lift at 1. rewrite Hnew.
  set (targetNode := mkTreeNode _ _ _).
  pose proof (grown_insert pathTo (Some targetNode) true st) as Hgrown.
  destruct (insert_loop_reaches (JsString.segments pathTo) [] st (root st) Hok eq_refl)
    as (ids & st1 & Hloop & Hids & [n Hn] & Hok1 & Hext & Hidx).
  simpl in Hloop, Hn.
  assert (Hins : insert pathTo (Some targetNode) true st = (Return Undefined, (save st1).2)).
  { rewrite insert_eq. rewrite (bool_decide_eq_false_2 (Some targetNode = None)) by done.
    rewrite andb_false_r. by rewrite Hloop. }
  rewrite Hins in Hgrown. rewrite (bind_return _ _ _ _ _ Hins). simpl.
  eexists. split; [reflexivity|].
  split; [exact (getNode_grown _ _ _ _ _ Hgrown Hget)|].
  split; [|done].
  exists (ids, n). apply getNode_Some. by split.
Qed.

Lemma move_never_detaches_witness :
  reachable tree_reports
  ∧ ∃ st', move "/work/reports" "/archive" false tree_reports = (Return (Bool false), st')
      ∧ (∃ node', getNode "/work/reports" st' = Some (["layer-0"; "layer-1"], node'))
      ∧ is_Some (getNode "/archive" st').
Proof.
  assert (Hreach : reachable tree_reports).
  { apply reach_insert, reach_new. constructor. }
  split; [exact Hreach|].
  pose proof (move_never_detaches "/work/reports" "/archive" tree_reports Hreach) as H.
  assert (Hget : getNode "/work/reports" tree_reports
    = Some (["layer-0"; "layer-1"], mkTreeNode "layer-1" (mkLayer "layer-1" "reports") []))
    by reflexivity.
  rewrite Hget in H. destruct H as (st' & Hm & (node' & Hsrc & _) & Hdst & _).
  exists st'. split; [done|]. split; [by exists node'|done].
Defined.

End TreeMore.

(** ** IndexD: insertion, lookup by hash and schema names *)
Module IndexDMore.
Import Roaring IndexD IndexDFacts.

(** The identifier [#validateDocument] settles on: the one the document
    brings, or a generated one. *)
Definition id_for (doc : RawDocument) (st : State) : N :=
  if truthy_id (raw_id doc) then default 0%N (raw_id doc) else genDocumentID st.

(** X22.  [insertDocument] never resolves to the parsed document.  For a
    hash that [hash2oid] maps to an identifier it resolves to the value
    of [updateDocument]; for any other hash it writes the document
    record and is then rejected by [tickMany], leaving [hash2oid] and
    the bitmaps as they were: the record stays behind, reachable by
    [getDocument] only. *)
Theorem insertDocument_never_completes doc contexts features st :
  (∀ parsed st', insertDocument doc contexts features st ≠ (Return (Inserted parsed), st'))
  ∧ (truthy_id (hash2oid st !! raw_sha1 doc) = false →
     ∃ e st', insertDocument doc contexts features st = (Throw e, st')
       ∧ documents st'
         = <[id_for doc st := mkDocument (id_for doc st) (raw_sha1 doc) (raw_data doc)]>
             (documents st)
       ∧ bitmaps st' = bitmaps st ∧ hash2oid st' = hash2oid st
       ∧ getDocument (id_for doc st) st'
         = Some (mkDocument (id_for doc st) (raw_sha1 doc) (raw_data doc))).
Proof.
  assert (Hnew : truthy_id (hash2oid st !! raw_sha1 doc) = false →
     ∃ e st', insertDocument doc contexts features st = (Throw e, st')
       ∧ documents st'
         = <[id_for doc st := mkDocument (id_for doc st) (raw_sha1 doc) (raw_data doc)]>
             (documents st)
       ∧ bitmaps st' = bitmaps st ∧ hash2oid st' = hash2oid st
       ∧ getDocument (id_for doc st) st'
         = Some (mkDocument (id_for doc st) (raw_sha1 doc) (raw_data doc))).
  { intros Hres. unfold insertDocument, validateDocument.
    unfold mbind at 1, M_bind at 1. unfold mbind at 1, M_bind at 1. unfold gets.
    fold (id_for doc st). simpl. rewrite Hres.
    unfold mbind at 1, M_bind at 1. unfold modify.
    set (parsed := mkDocument _ _ _).
    set (st1 := mkState _ _ _).
    destruct (on_manager_tickMany_throws "contexts" contexts
                (BitmapManager.VNum (doc_id parsed)) true true st1) as [e1 H1].
    rewrite (bind_return _ _ _ _ _ H1).
    destruct (on_manager_tickMany_throws "features" (features ++ extractDocumentFeatures parsed)
                (BitmapManager.VNum (doc_id parsed)) true true st1) as [e2 H2].
    rewrite (bind_return _ _ _ _ _ H2).
    exists e1, st1. split; [done|]. split; [done|]. split; [done|]. split; [done|].
    unfold getDocument. simpl. by rewrite lookup_insert_eq. }
  split; [|exact Hnew].
  intros parsed st' Heq.
  destruct (truthy_id (hash2oid st !! raw_sha1 doc)) eqn:Hres.
  - revert Heq. unfold insertDocument, validateDocument.
    unfold mbind at 1, M_bind at 1. unfold mbind at 1, M_bind at 1. unfold gets.
    simpl. by rewrite Hres.
  - destruct (Hnew eq_refl) as (e & st1 & H & _). rewrite H in Heq. discriminate.
Qed.

(** An index whose [hash2oid] dataset starts empty and that is filled
    through [insertDocument]. *)
Inductive populated : State → Prop :=
  | populated_start st : hash2oid st = ∅ → populated st
  | populated_insert st doc contexts features :
      populated st → populated (insertDocument doc contexts features st).2.

(** X23.  On an index filled through [insertDocument], however many
    documents were handed in, [getDocumentByHash] finds nothing, with or
    without a hash type: the hash of a document is never recorded. *)
Theorem getDocumentByHash_never_finds st hash hashType :
  populated st → getDocumentByHash hash hashType st = None.
Proof.
  intros Hpop.
  assert (Hempty : hash2oid st = ∅).
  { induction Hpop as [st H|st doc cs fs _ IH]; [done|].
    by rewrite insertDocument_never_records_hash. }
  rewrite getDocumentByHash_key. simpl. by rewrite Hempty, lookup_empty.
Qed.

Lemma getDocumentByHash_never_finds_witness :
  populated (insertDocument doc_b [] [] (insertDocument doc_a ["work"] [] index_empty).2).2
  ∧ getDocumentByHash "da39a3ee" "sha1"
      (insertDocument doc_b [] [] (insertDocument doc_a ["work"] [] index_empty).2).2 = None.
Proof.
  assert (Hpop : populated
    (insertDocument doc_b [] [] (insertDocument doc_a ["work"] [] index_empty).2).2).
  { do 2 apply populated_insert. by apply populated_start. }
  split; [exact Hpop|]. exact (getDocumentByHash_never_finds _ _ _ Hpop).
Defined.

(** *** Schema names *)

Lemma split_two p x : ∃ h y t, JsString.split (p +:+ String JsString.slash x) = h :: y :: t.
Proof.
  induction p as [|a p (h & y & t & IH)]; simpl.
  - destruct (JsString.split x) as [|y t] eqn:Hx; [|by eexists _, _, _].
    exfalso. revert Hx. clear. induction x as [|a x IH]; simpl; [done|].
    destruct (Ascii.eqb a JsString.slash); [done|]. by destruct (JsString.split x).
  - destruct (Ascii.eqb a JsString.slash); [rewrite IH; by eexists _, _, _|].
    rewrite IH. by eexists _, _, _.
Qed.

Lemma pop_split_append p x :
  JsString.pop (JsString.split (p +:+ String JsString.slash x))
  = JsString.pop (JsString.split x).
Proof.
  unfold JsString.pop. induction p as [|a p IH]; simpl.
  - destruct (JsString.split x) eqn:Hx; [|done].
    exfalso. revert Hx. clear. induction x as [|a x IH]; simpl; [done|].
    destruct (Ascii.eqb a JsString.slash); [done|]. by destruct (JsString.split x).
  - destruct (split_two p x) as (h & y & t & Hs).
    destruct (Ascii.eqb a JsString.slash).
    + rewrite <- IH. by rewrite Hs.
    + rewrite <- IH. by rewrite Hs.
Qed.

Lemma includes_slash_append p x :
  JsString.includes_slash (p +:+ String JsString.slash x) = true.
Proof.
  induction p as [|a p IH]; simpl; [done|]. rewrite IH. apply orb_true_r.
Qed.

Lemma pop_split_slash_free x :
  JsString.includes_slash x = false → JsString.pop (JsString.split x) = x.
Proof.
  intros Hx. unfold JsString.pop.
  assert (JsString.split x = [x]) as ->; [|done].
  induction x as [|a x IH]; simpl in *; [done|].
  destruct (Ascii.eqb a JsString.slash); [done|]. simpl in Hx. by rewrite IH.
Qed.

(** X24.  [getDocumentSchema] looks at the last component of a name only:
    putting any prefix and a slash in front of a name does not change the
    answer, whereas [hasDocumentSchema] answers [false] for every such
    prefixed name. *)
Theorem getDocumentSchema_ignores_prefix prefix name :
  getDocumentSchema (prefix +:+ "/" +:+ name) = getDocumentSchema name
  ∧ hasDocumentSchema (prefix +:+ "/" +:+ name) = false.
Proof.
  change (prefix +:+ "/" +:+ name) with (prefix +:+ String JsString.slash name).
  split; [|apply hasDocumentSchema_rejects_prefixed, includes_slash_append].
  unfold getDocumentSchema. rewrite includes_slash_append, pop_split_append.
  destruct (JsString.includes_slash name) eqn:Hn; [done|].
  by rewrite pop_split_slash_free.
Qed.

End IndexDMore.
